(** * From time series to equations: the implicit-to-explicit pipeline

    A shallow embedding of [implicit_to_explicit.py] and
    [symbolic_model_utils.py], and the properties of the tokenizer, the
    equation assembler, the rescaler, the term dropper and the batch
    orchestrator. *)

From Stdlib Require Import Ascii String.
From Stdlib Require Import List Arith Lia ZArith QArith Qabs Qreduction Bool.
From stdpp Require Import base strings list sorting gmap gmultiset.
From Equations Require Import Equations.
Import ListNotations.

Local Open Scope nat_scope.
Local Open Scope list_scope.

(** ** Python strings and the two regular expressions of [parse_feature]

    A feature name is a sequence of characters.  The scanner follows
    [re.finditer]: at every start position the pattern is tried; after a
    match the scan resumes at the end of the match, otherwise one character
    further. *)

Module Tokenizer.

Definition str := list ascii.

Definition of_string (s : string) : str := list_ascii_of_string s.

(** [[a-zA-Z]] *)
Definition is_letter (c : ascii) : bool :=
  let n := nat_of_ascii c in
  ((65 <=? n) && (n <=? 90)) || ((97 <=? n) && (n <=? 122)).

(** [\d] on the characters of a feature name *)
Definition is_digit (c : ascii) : bool :=
  let n := nat_of_ascii c in (48 <=? n) && (n <=? 57).

(** Greedy [\d*]: the longest run of digits and what follows it. *)
Fixpoint span_digits (s : str) : str * str :=
  match s with
  | c :: r =>
      if is_digit c then let (ds, rest) := span_digits r in (c :: ds, rest)
      else ([], s)
  | [] => ([], [])
  end.

(** [(_dot|_t)] tried at the head of [s]: the suffix matched and the rest. *)
Definition match_suffix (s : str) : option (str * str) :=
  match s with
  | "_"%char :: "d"%char :: "o"%char :: "t"%char :: r => Some (of_string "_dot", r)
  | "_"%char :: "t"%char :: r => Some (of_string "_t", r)
  | _ => None
  end.

Lemma span_digits_app s : fst (span_digits s) ++ snd (span_digits s) = s.
Proof.
  induction s as [|c r IH]; simpl; [reflexivity|].
  destruct (is_digit c); [|reflexivity].
  destruct (span_digits r) as [ds rest]; simpl in *. now rewrite IH.
Qed.

Lemma span_digits_length s : length (snd (span_digits s)) <= length s.
Proof.
  rewrite <- (span_digits_app s) at 2. rewrite length_app. lia.
Qed.

Lemma match_suffix_app s suf r : match_suffix s = Some (suf, r) -> s = suf ++ r.
Proof.
  unfold match_suffix. intros H.
  repeat (match type of H with
          | match ?x with _ => _ end = _ => destruct x; try discriminate
          | (if ?b then _ else _) = _ => destruct b; try discriminate
          end);
    inversion H; subst; reflexivity.
Qed.

(** [re.findall] with the plain-variable pattern: one letter, then digits. *)
Equations? findall_var (s : str) : list str by wf (length s) lt :=
  findall_var [] := [];
  findall_var (c :: r) with is_letter c => {
    | true := (c :: fst (span_digits r)) :: findall_var (snd (span_digits r));
    | false := findall_var r }.
Proof.
  pose proof (span_digits_length r). simpl. lia.
Qed.

(** A match object of [re.finditer] with the derivative pattern: group 1 is
    one letter then digits, group 2 is [_dot] or [_t]. *)
Record rmatch := { m_start : nat; m_end : nat; m_base : str; m_deriv : str }.

(** One attempt of the derivative pattern at the head of [s]. *)
Definition match_deriv (s : str) : option (str * str * str) :=
  match s with
  | c :: r =>
      if is_letter c then
        match match_suffix (snd (span_digits r)) with
        | Some (suf, rest) => Some (c :: fst (span_digits r), suf, rest)
        | None => None
        end
      else None
  | [] => None
  end.

Lemma match_deriv_app s b d rest :
  match_deriv s = Some (b, d, rest) -> s = b ++ d ++ rest /\ b <> [].
Proof.
  destruct s as [|c r]; simpl; [discriminate|].
  destruct (is_letter c); [|discriminate].
  destruct (match_suffix _) as [[suf r']|] eqn:E; [|discriminate].
  intros H; inversion H; subst; clear H.
  apply match_suffix_app in E. split; [|discriminate].
  simpl. f_equal. rewrite <- E. symmetry. apply span_digits_app.
Qed.

Definition inspect {A} (a : A) : {b | a = b} := exist _ a eq_refl.

(** [pos] is the offset of [s] in the whole feature string. *)
Equations? finditer_deriv (pos : nat) (s : str) : list rmatch by wf (length s) lt :=
  finditer_deriv pos [] := [];
  finditer_deriv pos (c :: r) with inspect (match_deriv (c :: r)) => {
    | exist _ (Some (b, d, rest)) _ :=
        {| m_start := pos; m_end := pos + length b + length d;
           m_base := b; m_deriv := d |}
        :: finditer_deriv (pos + length b + length d) rest;
    | exist _ None _ := finditer_deriv (S pos) r }.
Proof.
  apply (match_deriv_app (c :: r)) in e. destruct e as [E Hb].
  assert (L : length (c :: r) = length (b ++ d ++ rest)) by now rewrite E.
  rewrite !length_app in L. destruct b; [congruence|]. simpl in *. lia.
Qed.

(** Python slice [s[a:b]] for [a <= b]. *)
Definition slice (s : str) (a b : nat) : str := firstn (b - a) (skipn a s).

(** The [for m in matches] loop: the state is [(tokens, last)]. *)
Fixpoint parse_loop (feature : str) (ms : list rmatch) (tokens : list str) (last : nat)
  : list str * nat :=
  match ms with
  | [] => (tokens, last)
  | m :: ms' =>
      let prefix := slice feature last (m_start m) in
      let tokens := match prefix with
                    | [] => tokens
                    | _ => tokens ++ findall_var prefix
                    end in
      let tokens := tokens ++ [m_base m ++ m_deriv m] in
      parse_loop feature ms' tokens (m_end m)
  end.

Definition parse_feature (feature : str) : list str :=
  let matches := finditer_deriv 0 feature in
  match matches with
  | [] => findall_var feature
  | _ =>
      let (tokens, last) := parse_loop feature matches [] 0 in
      if last <? length feature
      then tokens ++ findall_var (skipn last feature)
      else tokens
  end.

Definition tokenize (s : string) : list string :=
  map string_of_list_ascii (parse_feature (of_string s)).

(** [embeds ts s]: the tokens [ts] occur in [s] one after the other, from
    left to right and without overlap, separated by arbitrary gaps. *)
Inductive embeds : list str -> str -> Prop :=
| embeds_nil s : embeds [] s
| embeds_cons gap t ts s : embeds ts s -> embeds (t :: ts) (gap ++ t ++ s).

Lemma embeds_gap ts s gap : embeds ts s -> embeds ts (gap ++ s).
Proof.
  intros H. destruct H as [s|g t ts s H]; [constructor|].
  rewrite app_assoc. now constructor.
Qed.

Lemma embeds_app ts1 s1 ts2 s2 :
  embeds ts1 s1 -> embeds ts2 s2 -> embeds (ts1 ++ ts2) (s1 ++ s2).
Proof.
  intros H1 H2. induction H1 as [s|g t ts s H IH]; simpl.
  - now apply embeds_gap.
  - rewrite <- !app_assoc. now constructor.
Qed.

Lemma findall_var_embeds s : embeds (findall_var s) s.
Proof.
  funelim (findall_var s); simp findall_var.
  - constructor.
  - pose proof (embeds_cons [] (c :: fst (span_digits r)) _ _ H) as E.
    simpl in E. now rewrite span_digits_app in E.
  - now apply (embeds_gap _ _ [c]).
Qed.

Lemma skipn_slice (s : str) a b :
  a <= b -> b <= length s -> skipn a s = slice s a b ++ skipn b s.
Proof.
  intros Hab Hb. unfold slice.
  rewrite <- (firstn_skipn (b - a) (skipn a s)) at 1.
  f_equal. rewrite skipn_skipn. f_equal. lia.
Qed.

(** The loop over the derivative matches, followed by the scan of the
    leftover text, lays its tokens out along the unread part of the string. *)
Lemma parse_loop_embeds pos s :
  forall feature last tokens,
    skipn pos feature = s -> last <= pos -> pos <= length feature ->
    exists T,
      fst (parse_loop feature (finditer_deriv pos s) tokens last) = tokens ++ T /\
      embeds (T ++ findall_var
                    (skipn (snd (parse_loop feature (finditer_deriv pos s) tokens last))
                           feature))
             (skipn last feature).
Proof.
  funelim (finditer_deriv pos s); intros feature last tokens Hs Hl Hp.
  - exists []. simpl. split; [now rewrite app_nil_r|]. apply findall_var_embeds.
  - clear H0 Heqcall. apply match_deriv_app in e. destruct e as [E _].
    set (pos' := pos + length b + length d) in *.
    assert (Hlen : length (skipn pos feature) = length (b ++ d ++ rest))
      by now rewrite Hs, E.
    rewrite length_skipn, !length_app in Hlen.
    assert (Hrest : skipn pos' feature = rest).
    { unfold pos'. rewrite <- Nat.add_assoc, Nat.add_comm, <- skipn_skipn, Hs, E.
      rewrite app_assoc, <- length_app. now rewrite skipn_app, skipn_all, Nat.sub_diag. }
    simpl parse_loop.
    set (prefix := slice feature last pos).
    set (tokens1 := match prefix with [] => tokens | _ :: _ => tokens ++ findall_var prefix end).
    assert (Ht : tokens1 = tokens ++ findall_var prefix).
    { unfold tokens1. destruct prefix; [simp findall_var; now rewrite app_nil_r | reflexivity]. }
    destruct (H feature pos' (tokens1 ++ [b ++ d]) Hrest (Nat.le_refl _)) as (T & HT & HE);
      [unfold pos'; lia|].
    exists (findall_var prefix ++ [b ++ d] ++ T). split.
    + rewrite HT, Ht. now rewrite <- !app_assoc.
    + rewrite (skipn_slice feature last pos Hl Hp). fold prefix.
      rewrite <- !app_assoc. apply embeds_app; [apply findall_var_embeds|].
      rewrite Hs, E. simpl.
      pose proof (embeds_cons [] (b ++ d) _ _ HE) as HC.
      simpl in HC. rewrite Hrest, <- app_assoc in HC. exact HC.
  - assert (Hr : skipn (S pos) feature = r).
    { change (S pos) with (1 + pos). now rewrite <- skipn_skipn, Hs. }
    assert (Hlen : length (skipn pos feature) = length (c :: r)) by now rewrite Hs.
    rewrite length_skipn in Hlen. simpl in Hlen.
    apply (H feature last tokens Hr); lia.
Qed.

(** Every token list the tokenizer returns is laid out in the input from
    left to right. *)
Lemma parse_feature_embeds feature : embeds (parse_feature feature) feature.
Proof.
  unfold parse_feature.
  destruct (finditer_deriv 0 feature) as [|m ms] eqn:Em; [apply findall_var_embeds|].
  rewrite <- Em.
  destruct (parse_loop_embeds 0 feature feature 0 [] eq_refl (Nat.le_refl _) (Nat.le_0_l _))
    as (T & HT & HE).
  destruct (parse_loop feature (finditer_deriv 0 feature) [] 0) as [tokens last].
  simpl in *. subst tokens.
  destruct (last <? length feature) eqn:El; [exact HE|].
  apply Nat.ltb_ge in El. rewrite skipn_all2 in HE by exact El.
  simp findall_var in HE. now rewrite app_nil_r in HE.
Qed.

End Tokenizer.

(** ** The fragment of the algebra engine the pipeline uses

    Following the spec's data model, a rational expression is a pair of
    expanded polynomials, numerator over denominator.  Numeric coefficients
    are exact rationals kept in lowest terms: they stand for the engine's
    numbers with rounding left out.  As the engine does with the pipeline's
    floating-point coefficients, a number is an atom: it is never split into
    an integer numerator and denominator. *)

Module Sympy.

Local Open Scope Q_scope.

Abbreviation symbol := string (only parsing).

(** A power product of symbols: the multiplicity of a symbol is its exponent. *)
Abbreviation mono := (gmultiset string) (only parsing).

(** A term [c * m] as [as_coeff_Mul] splits it. *)
Abbreviation term := (Q * gmultiset string)%type (only parsing).

(** An expanded sum of terms, in the order [as_ordered_terms] lists them. *)
Abbreviation poly := (list (Q * gmultiset string)) (only parsing).

Definition is_zero (c : Q) : bool := Qeq_bool c 0.

Definition one : poly := [(1, ∅)].

(** [sp.Add] applied to a list of terms: like terms are collected and vanishing ones disappear. *)
Fixpoint add_term (p : poly) (t : term) : poly :=
  match p with
  | [] => if is_zero (fst t) then [] else [(Qred (fst t), snd t)]
  | (c, m) :: p' =>
      if bool_decide (m = snd t)
      then (if is_zero (c + fst t) then p' else (Qred (c + fst t), m) :: p')
      else (c, m) :: add_term p' t
  end.

Definition Add (ts : list term) : poly := fold_left add_term ts [].

(** [p.as_ordered_terms()]; the terms of zero are the list [[0]]. *)
Definition as_ordered_terms (p : poly) : list term :=
  match p with
  | [] => [(0, ∅)]
  | _ => p
  end.

(** Polynomials are kept expanded, so [sp.expand] returns its argument. *)
Definition expand (p : poly) : poly := p.

(** [k * p] and [p / c] for a number, distributed over the terms, in exact
    arithmetic and with the terms left in their places; [Engine] below has
    the division with the rounding of the engine's numbers. *)
Definition scale (k : Q) (p : poly) : poly :=
  map (fun t => (Qred (k * fst t), snd t)) p.

Definition div_number (p : poly) (c : Q) : poly := scale (/ c) p.

(** The free symbols of a polynomial. *)
Definition free_symbols (p : poly) : gset symbol :=
  ⋃ (map (fun t => dom (snd t)) p).

(** [p.is_number] *)
Definition is_number (p : poly) : bool := bool_decide (free_symbols p = ∅).

Inductive expr :=
| Frac (num den : poly)
| Zoo.

(** [n / d] as the engine evaluates it on floating-point coefficients, in
    exact arithmetic.  The number of a one-term denominator is folded into
    the numerator's coefficients, and between two single terms common
    powers cancel; a denominator with several terms is kept as it is.  Zero
    over anything is zero; a zero denominator gives the sentinel, which is
    what [drop_small_terms] returns for it before it divides. *)
Definition div (n d : poly) : expr :=
  match d with
  | [] => Zoo
  | [(c, m)] =>
      if is_zero c then Zoo else
      match div_number n c with
      | [] => Frac [] one
      | [(a, mn)] => Frac [(a, mn ∖ m)] [(1, m ∖ mn)]
      | n' => Frac n' [(1, m)]
      end
  | _ => match n with
         | [] => Frac [] one
         | _ => Frac n d
         end
  end.

(** [sp.fraction] and [as_numer_denom] of a fraction; the sentinel has no
    polynomial parts. *)
Definition fraction (e : expr) : option (poly * poly) :=
  match e with
  | Frac n d => Some (n, d)
  | Zoo => None
  end.

(** [expand_rational_expr] *)
Definition expand_rational_expr (e : expr) : expr :=
  match e with
  | Frac num den => div (expand num) (expand den)
  | Zoo => Zoo
  end.

(** [sp.together] on a single fraction, which is already over a common
    denominator, taken as the identity; content that the engine cancels
    between the two sides is not followed here, and [Engine] below takes
    [sp.together] as a parameter. *)
Definition together (e : expr) : expr := e.

(** *** Values *)

Definition eval_mono (rho : symbol -> Q) (m : mono) : Q :=
  foldr (fun x acc => rho x * acc) 1 (elements m).

Definition eval_term (rho : symbol -> Q) (t : term) : Q :=
  fst t * eval_mono rho (snd t).



(** ** [symbolic_model_utils.py]: the term dropper *)

(** Strict comparison of two numbers. *)
Definition Qlt_bool (a b : Q) : bool := negb (Qle_bool b a).

(** The key of the fallback: [abs(t.as_coeff_Mul()[0].evalf())]. *)
Definition magnitude (t : term) : Q := Qabs (fst t).

(** The test of [filter_terms]: the coefficient is a number (every
    coefficient [as_coeff_Mul] returns is one), it is not zero, and its
    magnitude is strictly above [tol]. *)
Definition keep_term (tol : Q) (t : term) : bool :=
  let coeff := fst t in
  true && negb (is_zero coeff) && Qlt_bool tol (Qabs coeff).

Definition filter_terms (tol : Q) (terms : list term) : list term :=
  List.filter (keep_term tol) terms.

(** Python's [max(xs, key=...)] on a nonempty list [x :: xs]: the first
    element whose key no other exceeds. *)
Fixpoint max_by (key : term -> Q) (x : term) (xs : list term) : term :=
  match xs with
  | [] => x
  | y :: ys => if Qlt_bool (key x) (key y) then max_by key y ys else max_by key x ys
  end.

(** The terms of one side after filtering and fallback. *)
Definition kept_terms (tol : Q) (p : poly) : list term :=
  match filter_terms tol (as_ordered_terms p), as_ordered_terms p with
  | [], x :: xs => [max_by magnitude x xs]
  | terms, _ => terms
  end.

Definition num_clean (tol : Q) (num : poly) : poly := Add (kept_terms tol (expand num)).
Definition den_clean (tol : Q) (den : poly) : poly := Add (kept_terms tol (expand den)).

(** [den_clean.is_zero] *)
Definition poly_is_zero (p : poly) : bool :=
  match p with [] => true | _ => false end.

(** On the sentinel, [as_numer_denom] gives [zoo] over [1]; the single term on
    each side has coefficient one and is kept by the filter or retained by
    the fallback, so the sentinel comes back. *)
Definition drop_small_terms (e : expr) (tol : Q) : expr :=
  match e with
  | Zoo => Zoo
  | Frac num den =>
      if poly_is_zero (den_clean tol den) then Zoo
      else expand_rational_expr (div (num_clean tol num) (den_clean tol den))
  end.

(** ** Polynomials over chosen generators *)

(** Order of symbol names, as Python compares strings. *)
Definition name_le (a b : symbol) : Prop := String.leb a b = true.

Global Instance name_le_dec a b : Decision (name_le a b).
Proof. unfold name_le. apply _. Defined.

(** [sorted(D.free_symbols, key=lambda s: s.name)] *)
Definition sorted_symbols (D : poly) : list symbol :=
  merge_sort name_le (elements (free_symbols D)).

(** [sp.Poly] of [D] and [gens]: the expression read as a polynomial in [gens]; the
    other symbols belong to the coefficients. *)
Record Poly := { rep : poly; poly_gens : list symbol }.

(** The constructor refuses repeated generators. *)
Definition mk_Poly (D : poly) (gens : list symbol) : option Poly :=
  if bool_decide (NoDup gens) then Some {| rep := D; poly_gens := gens |} else None.

(** A coefficient of a polynomial over [gens]: a number, or an expression in
    the remaining symbols. *)
Inductive coefficient :=
| Number (q : Q)
| Symbolic (p : poly).

(** The exponent tuple of a power product over the generators. *)
Definition exps (gens : list symbol) (m : mono) : list nat :=
  map (fun g => multiplicity g m) gens.

(** What is left of a power product outside the generators. *)
Definition residual (gens : list symbol) (m : mono) : mono :=
  filter (fun s => s ∉ gens) m.

(** [sp.prod(v**e for v, e in zip(gens, tuple))] *)
Definition mono_of (gens : list symbol) (tuple : list nat) : mono :=
  foldr (fun ve acc => (snd ve *: {[+ fst ve +]}) ⊎ acc) ∅ (zip gens tuple).

Definition sum_coeffs (ts : list term) : Q :=
  Qred (foldr (fun t acc => fst t + acc) 0 ts).

(** [poly.nth]: the coefficient of an exponent tuple. *)
Definition nth_coeff (P : Poly) (tuple : list nat) : coefficient :=
  let ts := List.filter (fun t => bool_decide (exps (poly_gens P) (snd t) = tuple)) (rep P) in
  let rs := map (fun t => (fst t, residual (poly_gens P) (snd t))) ts in
  if forallb (fun t => bool_decide (snd t = ∅)) rs
  then Number (sum_coeffs rs)
  else Symbolic rs.

(** [poly.coeff_monomial(monom)]: [monom] has to be a power product of the
    generators with coefficient one; anything else raises [ValueError]. *)
Definition coeff_monomial (P : Poly) (monom : poly) : option coefficient :=
  match monom with
  | [(c, m)] =>
      if Qeq_bool c 1 && bool_decide (dom m ⊆ list_to_set (poly_gens P))
      then Some (nth_coeff P (exps (poly_gens P) m))
      else None
  | _ => None
  end.

(** [poly.monoms()] *)
Definition monoms (P : Poly) : list (list nat) :=
  match rep P with
  | [] => [replicate (length (poly_gens P)) 0%nat]
  | _ => remove_dups (map (fun t => exps (poly_gens P) (snd t)) (rep P))
  end.

(** Python's order on tuples of integers. *)
Fixpoint lex_leb (a b : list nat) : bool :=
  match a, b with
  | [], _ => true
  | _ :: _, [] => false
  | x :: a', y :: b' => (x <? y)%nat || ((x =? y)%nat && lex_leb a' b')
  end.

Definition lex_le (a b : list nat) : Prop := lex_leb a b = true.

Global Instance lex_le_dec a b : Decision (lex_le a b).
Proof. unfold lex_le. apply _. Defined.

(** [sum(m)] and [max(total_degrees)] *)
Definition total_degree (m : list nat) : nat := foldr Nat.add 0%nat m.
Definition max_list (l : list nat) : nat := foldr Nat.max 0%nat l.

(** ** [symbolic_model_utils.py]: the rescaler *)

(** The floor [1e-12]. *)
Definition floor : Q := 1 # 1000000000000.

(** The test made on a coefficient before it is used as the scaling factor:
    a number, not zero, of magnitude above the floor (the model's numbers
    contain no NaN). *)
Definition usable (coeff : coefficient) : option Q :=
  match coeff with
  | Number q => if negb (is_zero q) && Qlt_bool floor (Qabs q) then Some q else None
  | Symbolic _ => None
  end.

(** Option 1 of the [try] block.  [None]: an exception was raised;
    [Some None]: no scaling coefficient yet. *)
Definition try_target (P : Poly) (target : option poly) : option (option (Q * poly)) :=
  match target with
  | None => Some None
  | Some target =>
      match coeff_monomial P (expand target) with
      | None => None
      | Some coeff =>
          match usable coeff with
          | Some q => Some (Some (q, target))
          | None => Some None
          end
      end
  end.

(** The candidates of maximal total degree, sorted; the head is the lead. *)
Definition lead_candidates (P : Poly) : list (list nat) :=
  let monoms := monoms P in
  let total_degrees := map total_degree monoms in
  let max_deg := max_list total_degrees in
  merge_sort lex_le
    (map fst (List.filter (fun md => (snd md =? max_deg)%nat) (zip monoms total_degrees))).

(** Option 2 of the [try] block. *)
Definition try_leading (P : Poly) : option (Q * poly) :=
  match monoms P with
  | [] => None
  | _ =>
      match lead_candidates P with
      | [] => None
      | lead :: _ =>
          let leading_term : poly := [(1, mono_of (poly_gens P) lead)] in
          match coeff_monomial P leading_term with
          | None => None
          | Some coeff =>
              match usable coeff with
              | Some q => Some (q, leading_term)
              | None => None
              end
          end
      end
  end.

(** The whole [try] block: the scaling coefficient and the monomial used, or
    [None] on every path that returns the expression as it is. *)
Definition select_scaling (D : poly) (target : option poly) (gens : list symbol)
  : option (Q * poly) :=
  match mk_Poly D gens with
  | None => None
  | Some P =>
      match try_target P target with
      | None => None
      | Some (Some r) => Some r
      | Some None => try_leading P
      end
  end.

(** [tuple(gens) if gens else sorted free symbols of D] *)
Definition generators (D : poly) (gens : option (list symbol)) : list symbol :=
  match gens with
  | Some (g :: gs) => g :: gs
  | _ => sorted_symbols D
  end.

Definition rescale_expression (e : expr) (target : option poly)
    (gens : option (list symbol)) : expr :=
  let expr := together e in
  match expr with
  | Zoo => expr
  | Frac N D =>
      if is_number D then expr
      else
        match select_scaling D target (generators D gens) with
        | None => expr
        | Some (scaling_coeff, _) =>
            expand_rational_expr (div (div_number N scaling_coeff) (div_number D scaling_coeff))
        end
  end.

End Sympy.

(** ** [symbolic_model_utils.py]: the rescaler over the engine's numbers

    What [rescale_expression] returns depends on two things the engine
    does: [sp.together], applied to the input before anything else, and the
    arithmetic of the coefficients.  The coefficients that reach
    the rescaler come from numerical matrices and are floating-point
    numbers: binary fractions of 53 significant bits, of any exponent, every
    product, quotient and reciprocal rounded to the nearest such number,
    ties to the even one.  (Exact integers and rationals, which the engine
    keeps in lowest terms on both sides of the fraction bar, are not
    followed.)  Here the rescaler is written again with both kept visible:
    [together] is a parameter, as the solver and the evaluator are, and so
    is the rounding [rnd] of an exact result to the engine's number.

    A sum is the list of its terms.  The rescaler looks at the denominator
    only through the polynomial it builds from it, whose coefficients and
    monomials do not depend on the order of the terms; the order of a list
    here is not the order in which the engine prints the sum. *)

Module Engine.

Import Sympy.
Local Open Scope Q_scope.

#[local] Instance Q_eq_dec : EqDecision Q.
Proof. solve_decision. Defined.

(** *** Rounding to 53 bits *)

(** The integer nearest to [n / d], for [d] positive; a tie goes to the even
    one. *)
Definition round_half_even (n d : Z) : Z :=
  let f := (n / d)%Z in
  match (2 * (n mod d) ?= d)%Z with
  | Lt => f
  | Gt => (f + 1)%Z
  | Eq => if Z.even f then f else (f + 1)%Z
  end.

(** [n / d] divided by [2 ^ k], as a fraction of integers. *)
Definition scaled (n d k : Z) : Z * Z :=
  if (0 <=? k)%Z then (n, (d * 2 ^ k)%Z) else ((n * 2 ^ (- k))%Z, d).

(** The exponent [k] of the last kept bit of [n / d]:
    [2 ^ (prec - 1) <= (n / d) / 2 ^ k < 2 ^ prec]. *)
Definition exponent (prec n d : Z) : Z :=
  let k := (Z.log2 n - Z.log2 d - (prec - 1))%Z in
  let '(a, b) := scaled n d k in
  if (a <? b * 2 ^ (prec - 1))%Z then (k - 1)%Z else k.

(** A positive [n / d] rounded to [prec] significant bits. *)
Definition round_pos (prec n d : Z) : Q :=
  let k := exponent prec n d in
  let '(a, b) := scaled n d k in
  let m := round_half_even a b in
  if (0 <=? k)%Z then inject_Z (m * 2 ^ k) else Qmake m (Z.to_pos (2 ^ (- k))).

Definition round_to (prec : Z) (q : Q) : Q :=
  Qred match Qnum q with
       | Z0 => 0
       | Zpos n => round_pos prec (Zpos n) (Zpos (Qden q))
       | Zneg n => - round_pos prec (Zpos n) (Zpos (Qden q))
       end.

(** The engine's float nearest to a rational. *)
Definition round53 : Q -> Q := round_to 53.

(** *** What [sp.together] does to a quotient with integer coefficients *)

(** The greatest common divisor of the coefficients of a sum, when they are
    all integers. *)
Definition content (p : poly) : option Z :=
  foldr (fun t acc =>
           match acc with
           | Some g => if (Qden (fst t) =? 1)%positive
                       then Some (Z.gcd (Qnum (fst t)) g) else None
           | None => None
           end) (Some 0%Z) p.

(** On a single quotient of two sums with integer coefficients,
    [sp.together] cancels the content the numerator and the denominator
    share; a quotient without common content is left as it is. *)
Definition together_content (e : expr) : expr :=
  match e with
  | Frac n d =>
      match content n, content d with
      | Some gn, Some gd =>
          let g := Z.gcd gn gd in
          if (1 <? g)%Z
          then Frac (map (fun t => (Qred (fst t / inject_Z g), snd t)) n)
                    (map (fun t => (Qred (fst t / inject_Z g), snd t)) d)
          else e
      | _, _ => e
      end
  | Zoo => Zoo
  end.

Section Rescaler.

(** [sp.together], and the rounding of an exact result to the engine's
    number. *)
Variable together : expr -> expr.
Variable rnd : Q -> Q.

(** [c ** -1] and [a * b] on the engine's numbers. *)
Definition recip (c : Q) : Q := rnd (/ c).
Definition mul (a b : Q) : Q := rnd (a * b).

(** [k * p] for a number [k], distributed over the terms. *)
Definition times (k : Q) (p : poly) : poly :=
  map (fun t => (mul k (fst t), snd t)) p.

(** [p / c] for a number [c].  A number is divided by [c], with one
    rounding; anything else is multiplied by [c ** -1]. *)
Definition div_number (p : poly) (c : Q) : poly :=
  match p with
  | [(a, m)] => if bool_decide (m = ∅) then [(rnd (a / c), m)] else times (recip c) p
  | _ => times (recip c) p
  end.

(** [n / d] as the engine evaluates it and [sp.fraction] splits it again.
    The number of a one-term denominator is inverted and multiplied into
    the numerator's coefficients (nothing is computed when that number is
    one), and between two single terms common powers cancel; a denominator
    with several terms is kept as it is, under a numerator that is not the
    same sum; equal sums cancel to one.  Zero over a sum is zero.  A zero
    denominator is left under its numerator: the rescaler never divides by
    zero. *)
Definition div (n d : poly) : expr :=
  match d with
  | [] => Frac n d
  | [(c, m)] =>
      if is_zero c then Frac n d else
      let n' := if Qeq_bool c 1 then n
                else if bool_decide (m = ∅) then div_number n c
                else times (recip c) n in
      match n' with
      | [] => Frac [] one
      | [(a, mn)] => Frac [(a, mn ∖ m)] [(1, m ∖ mn)]
      | _ => Frac n' [(1, m)]
      end
  | _ => match n with
         | [] => Frac [] one
         | _ => if bool_decide (n ≡ₚ d) then Frac one one else Frac n d
         end
  end.

(** [expand_rational_expr] *)
Definition expand_rational_expr (e : expr) : expr :=
  match e with
  | Frac num den => div (expand num) (expand den)
  | Zoo => Zoo
  end.

(** The literal [1e-12]: the engine's number nearest to it. *)
Definition floor : Q := rnd (1 # 1000000000000).

(** The test made on a coefficient before it is used as the scaling factor:
    a number, not zero, of magnitude above the floor (the numbers here
    contain no NaN). *)
Definition usable (coeff : coefficient) : option Q :=
  match coeff with
  | Number q => if negb (is_zero q) && Qlt_bool floor (Qabs q) then Some q else None
  | Symbolic _ => None
  end.

(** Option 1 of the [try] block.  [None]: an exception was raised;
    [Some None]: no scaling coefficient yet. *)
Definition try_target (P : Poly) (target : option poly) : option (option (Q * poly)) :=
  match target with
  | None => Some None
  | Some target =>
      match coeff_monomial P (expand target) with
      | None => None
      | Some coeff =>
          match usable coeff with
          | Some q => Some (Some (q, target))
          | None => Some None
          end
      end
  end.

(** Option 2 of the [try] block. *)
Definition try_leading (P : Poly) : option (Q * poly) :=
  match monoms P with
  | [] => None
  | _ =>
      match lead_candidates P with
      | [] => None
      | lead :: _ =>
          let leading_term : poly := [(1, mono_of (poly_gens P) lead)] in
          match coeff_monomial P leading_term with
          | None => None
          | Some coeff =>
              match usable coeff with
              | Some q => Some (q, leading_term)
              | None => None
              end
          end
      end
  end.

(** The whole [try] block: the scaling coefficient and the monomial used, or
    [None] on every path that returns [expr]. *)
Definition select_scaling (D : poly) (target : option poly) (gens : list symbol)
  : option (Q * poly) :=
  match mk_Poly D gens with
  | None => None
  | Some P =>
      match try_target P target with
      | None => None
      | Some (Some r) => Some r
      | Some None => try_leading P
      end
  end.

(** [rescale_expression]; [expr] is rebound to [sp.together(expr)] on the
    first line, and that is what every early exit returns.  The sentinel
    splits into itself over one, a constant denominator. *)
Definition rescale_expression (e : expr) (target : option poly)
    (gens : option (list symbol)) : expr :=
  let expr := together e in
  match expr with
  | Zoo => expr
  | Frac N D =>
      if is_number D then expr
      else
        match select_scaling D target (generators D gens) with
        | None => expr
        | Some (scaling_coeff, _) =>
            expand_rational_expr (div (div_number N scaling_coeff) (div_number D scaling_coeff))
        end
  end.

End Rescaler.

End Engine.

(** ** [implicit_to_explicit.py]: vocabulary, products and equation assembly *)

Module Assembler.

Import Sympy.
Local Open Scope Q_scope.

(** Exceptions the assembler can raise. *)
Inductive error :=
| ValueError
| KeyError (key : string)
| IndexError (i j : nat).

Definition result (A : Type) : Type := error + A.

Definition ret {A} (a : A) : result A := inr a.
Definition raise {A} (e : error) : result A := inl e.
Definition bind {A B} (m : result A) (k : A -> result B) : result B :=
  match m with
  | inl e => inl e
  | inr a => k a
  end.

Notation "'let!' x ':=' m 'in' k" := (bind m (fun x => k))
  (at level 10, x name, m at level 100, k at level 200).

(** [d[key]] on a dict. *)
Definition getitem {A} (d : gmap string A) (key : string) : result A :=
  match d !! key with
  | Some a => ret a
  | None => raise (KeyError key)
  end.

(** [extract_distinct_features]: the loop state is the pair
    [(unique_tokens, feature_map)]. *)
Definition extract_step (st : gset string * gmap string (list string)) (feat : string)
  : gset string * gmap string (list string) :=
  let toks := Tokenizer.tokenize feat in
  (fst st ∪ list_to_set toks, <[feat := toks]> (snd st)).

Definition extract_distinct_features (feature_names : list string)
  : list string * gmap string (list string) :=
  let st := fold_left extract_step feature_names (∅, ∅) in
  (merge_sort name_le (elements (fst st)), snd st).

(** The counting pass of [consolidate_product]: a dict in insertion order. *)
Fixpoint count_token (token_counts : list (string * nat)) (token : string)
  : list (string * nat) :=
  match token_counts with
  | [] => [(token, 1%nat)]
  | (k, c) :: rest =>
      if String.eqb k token then (k, S c) :: rest
      else (k, c) :: count_token rest token
  end.

(** The unevaluated product [Mul] of powers: its factors in order. *)
Definition product := list (symbol * nat).

Fixpoint powers (token_symbols : gmap string symbol) (token_counts : list (string * nat))
  : result product :=
  match token_counts with
  | [] => ret []
  | (token, count) :: rest =>
      let! symbol := getitem token_symbols token in
      let! terms := powers token_symbols rest in
      ret ((symbol, count) :: terms)
  end.

Definition consolidate_product (tokens : list string) (token_symbols : gmap string symbol)
  : result product :=
  let token_counts := fold_left count_token tokens [] in
  powers token_symbols token_counts.

(** A number times a product, evaluated: one term. *)
Definition mono_of_product (f : product) : mono :=
  foldr (fun sc acc => (snd sc *: {[+ fst sc +]}) ⊎ acc) ∅ f.

Definition times (c : Q) (f : product) : term := (c, mono_of_product f).

(** [sp.Matrix] of a list of rows. *)
Record Matrix := { rows : nat; cols : nat; flat : list Q }.

Definition sp_Matrix (a : list (list Q)) : result Matrix :=
  match a with
  | [] => ret {| rows := 0; cols := 0; flat := [] |}
  | r :: _ =>
      if forallb (fun r' => (length r' =? length r)%nat) a
      then ret {| rows := length a; cols := length r; flat := concat a |}
      else raise ValueError
  end.

(** [M[i, j]] *)
Definition entry (M : Matrix) (i j : nat) : result Q :=
  if (i <? rows M)%nat && (j <? cols M)%nat then
    match flat M !! (i * cols M + j)%nat with
    | Some q => ret q
    | None => raise (IndexError i j)
    end
  else raise (IndexError i j).

(** [sum(M[i, j] * consolidate_product(fmap[feature_names[j]], token_symbols)
    for j in range(n))], the running sum being [acc]. *)
Fixpoint row_sum (M : Matrix) (fmap : gmap string (list string))
    (token_symbols : gmap string symbol) (feature_names : list string)
    (i : nat) (js : list nat) (acc : poly) : result poly :=
  match js with
  | [] => ret acc
  | j :: js' =>
      let! c := entry M i j in
      let! name := match feature_names !! j with
              | Some name => ret name
              | None => raise (IndexError j 0)
              end in
      let! tokens := getitem fmap name in
      let! f := consolidate_product tokens token_symbols in
      row_sum M fmap token_symbols feature_names i js' (add_term acc (times c f))
  end.

(** An equation object; [sp.Eq] of a number and zero is a truth value. *)
Inductive equation :=
| Eq (lhs rhs : poly)
| BooleanTrue
| BooleanFalse.

Definition sp_Eq (lhs : poly) : equation :=
  if is_number lhs then (if poly_is_zero lhs then BooleanTrue else BooleanFalse)
  else Eq lhs [].

(** [lhs - rhs] *)
Definition sub (lhs rhs : poly) : poly := fold_left add_term (scale (-1) rhs) lhs.

Fixpoint build_rows (L R : Matrix) (fmap : gmap string (list string))
    (token_symbols : gmap string symbol) (feature_names : list string)
    (n : nat) (idx : list nat) : result (list equation) :=
  match idx with
  | [] => ret []
  | i :: is' =>
      let! lhs := row_sum L fmap token_symbols feature_names i (seq 0 n) [] in
      let! rhs := row_sum R fmap token_symbols feature_names i (seq 0 n) [] in
      let! eqs := build_rows L R fmap token_symbols feature_names n is' in
      ret (sp_Eq (sub lhs rhs) :: eqs)
  end.

Definition generate_symbolic_equations_both_sides (feature_names : list string)
    (left_coeff right_coeff : list (list Q))
  : result (list equation * gmap string symbol) :=
  let '(distinct, fmap) := extract_distinct_features feature_names in
  let token_symbols : gmap string symbol :=
    list_to_map (map (fun tok => (tok, tok)) distinct) in
  let n := length feature_names in
  let! L := sp_Matrix left_coeff in
  let! R := sp_Matrix right_coeff in
  let! eq_list := build_rows L R fmap token_symbols feature_names n (seq 0 n) in
  ret (eq_list, token_symbols).

(** [np.eye(len(features), dtype=int)] *)
Definition generate_identity_matrix (features : list string) : list (list Q) :=
  let n := length features in
  map (fun i => map (fun j => if (i =? j)%nat then 1 else 0) (seq 0 n)) (seq 0 n).

(** [get_reformatted_feature_names] *)

Section Reformat.

(** [str] of an unevaluated product, as the engine prints it. *)
Variable str : product -> string.

(** The [for feat in feature_names] loop of [get_reformatted_feature_names]. *)
Fixpoint reformat (feature_map : gmap string (list string))
    (token_symbols : gmap string symbol) (feature_names : list string)
  : result (list string) :=
  match feature_names with
  | [] => ret []
  | feat :: rest =>
      let! tokens := getitem feature_map feat in
      let! sym_expr := consolidate_product tokens token_symbols in
      let! reformatted := reformat feature_map token_symbols rest in
      ret (str sym_expr :: reformatted)
  end.

Definition get_reformatted_feature_names (feature_names : list string)
  : result (list string) :=
  let '(distinct_tokens, feature_map) := extract_distinct_features feature_names in
  let token_symbols : gmap string symbol :=
    list_to_map (map (fun token => (token, token)) distinct_tokens) in
  reformat feature_map token_symbols feature_names.

End Reformat.

End Assembler.

(** ** [symbolic_model_utils.py]: the batch orchestrator *)

Module Orchestrator.

Import Sympy Assembler.
Local Open Scope nat_scope.

(** One record of [rows_for_csv]. *)
Record csv_row := {
  csv_model : nat;
  csv_equation : symbol * expr;
  csv_numerator_terms : nat;
  csv_denominator_terms : nat;
  csv_any_negative : bool
}.

(** What a row prints. *)
Inductive message :=
| NoSolution (i : nat)
| ZeroNumerator (i : nat)
| AllTermsDropped (i : nat)
| RationalEq (i : nat) (var : symbol) (e : expr).

(** The local variables of [print_and_store_models] that the loop updates. *)
Record state := {
  raw_models : gmap nat expr;
  rescaled_models : gmap nat expr;
  cleaned_models : gmap nat expr;
  final_models : gmap nat expr;
  failed_models : nat;
  successful_models : nat;
  rows_for_csv : list csv_row;
  latex_file : list (nat * expr);
  printed : list message
}.

Definition initial : state :=
  {| raw_models := ∅; rescaled_models := ∅; cleaned_models := ∅; final_models := ∅;
     failed_models := 0; successful_models := 0;
     rows_for_csv := []; latex_file := []; printed := [] |}.

(** [getattr(num, "is_zero", False)] on the numerator [sp.fraction] returns;
    the numerator of the sentinel is the sentinel, which is not zero. *)
Definition numerator_is_zero (e : expr) : bool :=
  match fraction e with
  | Some (num, _) => poly_is_zero num
  | None => false
  end.

(** Expanding a fraction and recombining it gives the fraction back. *)
Definition expand_expr (e : expr) : expr :=
  match e with
  | Frac num den => Frac (expand num) (expand den)
  | Zoo => Zoo
  end.

Definition count_terms (e : expr) : nat * nat :=
  match e with
  | Frac num den => (length (as_ordered_terms num), length (as_ordered_terms den))
  | Zoo => (1, 1)
  end.

Definition has_negative (e : expr) : bool :=
  match e with
  | Frac _ den => existsb (fun t => Qlt_bool (fst t) 0) (as_ordered_terms den)
  | Zoo => false
  end.

Section Pipeline.

(** The solver and the rounding of the algebra engine. *)
Variable solve : equation -> symbol -> list expr.
Variable evalf : nat -> expr -> expr.

Variable xdot_symbol : symbol.
Variable target : option poly.
Variable gens : option (list symbol).
Variable sig_digits : nat.
Variable tol : Q.
Variable latex_path : bool.

(** The body of the [for i, eq in enumerate(eq_list)] loop. *)
Definition process_row (st : state) (i : nat) (eq : equation) : state :=
  match solve eq xdot_symbol with
  | [] =>
      {| raw_models := raw_models st; rescaled_models := rescaled_models st;
         cleaned_models := cleaned_models st; final_models := final_models st;
         failed_models := failed_models st + 1;
         successful_models := successful_models st;
         rows_for_csv := rows_for_csv st; latex_file := latex_file st;
         printed := printed st ++ [NoSolution i] |}
  | raw :: _ =>
      let raw_expanded := together (expand_expr raw) in
      let raw_models' := <[i := raw_expanded]> (raw_models st) in
      if numerator_is_zero raw_expanded then
        {| raw_models := raw_models'; rescaled_models := rescaled_models st;
           cleaned_models := cleaned_models st; final_models := final_models st;
           failed_models := failed_models st + 1;
           successful_models := successful_models st;
           rows_for_csv := rows_for_csv st; latex_file := latex_file st;
           printed := printed st ++ [ZeroNumerator i] |}
      else
        let rescaled := rescale_expression raw_expanded target gens in
        let rescaled_models' := <[i := rescaled]> (rescaled_models st) in
        let cleaned := drop_small_terms rescaled tol in
        if numerator_is_zero cleaned then
          {| raw_models := raw_models'; rescaled_models := rescaled_models';
             cleaned_models := cleaned_models st; final_models := final_models st;
             failed_models := failed_models st + 1;
             successful_models := successful_models st;
             rows_for_csv := rows_for_csv st; latex_file := latex_file st;
             printed := printed st ++ [AllTermsDropped i] |}
        else
          let final_expr := expand_rational_expr (evalf sig_digits cleaned) in
          {| raw_models := raw_models'; rescaled_models := rescaled_models';
             cleaned_models := <[i := cleaned]> (cleaned_models st);
             final_models := <[i := final_expr]> (final_models st);
             failed_models := failed_models st;
             successful_models := successful_models st + 1;
             rows_for_csv := rows_for_csv st ++
               [{| csv_model := i; csv_equation := (xdot_symbol, final_expr);
                   csv_numerator_terms := fst (count_terms cleaned);
                   csv_denominator_terms := snd (count_terms cleaned);
                   csv_any_negative := has_negative cleaned |}];
             latex_file := if latex_path then latex_file st ++ [(i, final_expr)]
                           else latex_file st;
             printed := printed st ++ [RationalEq i xdot_symbol final_expr] |}
  end.

(** [enumerate(eq_list)], the index of the head being [i]. *)
Fixpoint loop (i : nat) (eq_list : list equation) (st : state) : state :=
  match eq_list with
  | [] => st
  | eq :: rest => loop (S i) rest (process_row st i eq)
  end.

(** The state when the loop is over and the summary is printed. *)
Definition run (eq_list : list equation) : state := loop 0 eq_list initial.

(** The three numbers of the summary report. *)
Definition summary (eq_list : list equation) : nat * nat * nat :=
  (length eq_list, successful_models (run eq_list), failed_models (run eq_list)).

Definition print_and_store_models (eq_list : list equation)
  : gmap nat expr * gmap nat expr * gmap nat expr * gmap nat expr :=
  let st := run eq_list in
  (raw_models st, rescaled_models st, cleaned_models st, final_models st).

End Pipeline.

End Orchestrator.

(** * Properties *)

(** ** The tokenizer *)

(** C5: the tokenizer maps ["x0x1x2_dot"] to [("x0","x1","x2_dot")],
    ["x1x2_t"] to [("x1","x2_t")], ["x0x1"] to [("x0","x1")] and ["1"] to the
    empty tuple; and for every input string the returned tokens occur in the
    string in the order of the tuple, from left to right and without
    overlap. *)
Theorem tokenize_examples_and_order :
  Tokenizer.tokenize "x0x1x2_dot" = ["x0"; "x1"; "x2_dot"]%string /\
  Tokenizer.tokenize "x1x2_t" = ["x1"; "x2_t"]%string /\
  Tokenizer.tokenize "x0x1" = ["x0"; "x1"]%string /\
  Tokenizer.tokenize "1" = [] /\
  forall feature : string,
    Tokenizer.embeds (Tokenizer.parse_feature (Tokenizer.of_string feature))
                     (Tokenizer.of_string feature).
Proof.
  repeat split; try reflexivity.
  intros feature. apply Tokenizer.parse_feature_embeds.
Qed.

(** ** The orchestrator *)

Module OrchestratorFacts.

Import Sympy Assembler Orchestrator.

(** The stage at which a row stops. *)
Inductive exit := SolveFailure | ZeroNum | Dropped | Final.

Global Instance exit_eq_dec : EqDecision exit.
Proof. solve_decision. Defined.

Section Facts.

Variable solve : equation -> symbol -> list expr.
Variable evalf : nat -> expr -> expr.
Variable xdot_symbol : symbol.
Variable target : option poly.
Variable gens : option (list symbol).
Variable sig_digits : nat.
Variable tol : Q.
Variable latex_path : bool.

Definition classify (eq : equation) : exit :=
  match solve eq xdot_symbol with
  | [] => SolveFailure
  | raw :: _ =>
      let raw_expanded := together (expand_expr raw) in
      if numerator_is_zero raw_expanded then ZeroNum
      else if numerator_is_zero
                (drop_small_terms (rescale_expression raw_expanded target gens) tol)
           then Dropped else Final
  end.

Let step := process_row solve evalf xdot_symbol target gens sig_digits tol latex_path.
Let go := loop solve evalf xdot_symbol target gens sig_digits tol latex_path.

Definition exported (st : state) : list nat := map csv_model (rows_for_csv st).

(** What one row does to the counters, the four dictionaries and the
    export table. *)
Lemma process_row_spec st i eq :
  successful_models (step st i eq) + failed_models (step st i eq)
    = S (successful_models st + failed_models st) /\
  dom (raw_models (step st i eq)) =
    (if decide (classify eq = SolveFailure) then ∅ else {[i]}) ∪ dom (raw_models st) /\
  dom (rescaled_models (step st i eq)) =
    (if decide (classify eq = Dropped \/ classify eq = Final) then {[i]} else ∅)
      ∪ dom (rescaled_models st) /\
  dom (cleaned_models (step st i eq)) =
    (if decide (classify eq = Final) then {[i]} else ∅) ∪ dom (cleaned_models st) /\
  dom (final_models (step st i eq)) =
    (if decide (classify eq = Final) then {[i]} else ∅) ∪ dom (final_models st) /\
  exported (step st i eq) =
    exported st ++ (if decide (classify eq = Final) then [i] else []).
Proof.
  unfold step, process_row, classify, exported.
  destruct (solve eq xdot_symbol) as [|raw sols]; simpl.
  { split; [lia|]. do 4 (split; [set_solver|]). now rewrite app_nil_r. }
  destruct (numerator_is_zero (together (expand_expr raw))); simpl.
  { split; [lia|]. split; [rewrite dom_insert_L; set_solver|].
    do 3 (split; [set_solver|]). now rewrite app_nil_r. }
  destruct (numerator_is_zero (drop_small_terms _ tol)); simpl.
  { split; [lia|]. do 2 (split; [rewrite dom_insert_L; set_solver|]).
    do 2 (split; [set_solver|]). now rewrite app_nil_r. }
  split; [lia|]. do 4 (split; [rewrite dom_insert_L; set_solver|]).
  now rewrite map_app.
Qed.

Lemma loop_counters eq_list : forall i st,
  successful_models (go i eq_list st) + failed_models (go i eq_list st)
    = successful_models st + failed_models st + length eq_list.
Proof.
  induction eq_list as [|eq rest IH]; intros i st; simpl; [lia|].
  unfold go in *. simpl. rewrite IH.
  pose proof (process_row_spec st i eq) as [Hc _]. unfold step in Hc. lia.
Qed.

(** Which keys the loop adds to a dictionary: those of the rows whose exit
    is in the class [P] of the dictionary. *)
Lemma loop_dom (proj : state -> gset nat) (P : exit -> Prop)
    (Pdec : forall x, Decision (P x)) :
  (forall st i eq, proj (step st i eq) =
                   (if decide (P (classify eq)) then {[i]} else ∅) ∪ proj st) ->
  forall eq_list i st k,
    k ∈ proj (go i eq_list st) <->
    k ∈ proj st \/ exists eq, eq_list !! (k - i) = Some eq /\ i <= k /\ P (classify eq).
Proof.
  intros Hstep. induction eq_list as [|eq rest IH]; intros i st k.
  - simpl. split; [tauto|]. intros [H|(eq & H & _)]; [exact H|discriminate].
  - unfold go in *. simpl. rewrite IH. fold step. rewrite Hstep. split.
    + intros [H|(eq' & Hl & Hle & HP)].
      * apply elem_of_union in H as [H|H]; [|tauto].
        destruct (decide (P (classify eq))); [|set_solver].
        apply elem_of_singleton in H. subst k. right. exists eq.
        rewrite Nat.sub_diag. auto.
      * right. exists eq'. replace (k - i) with (S (k - S i)) by lia. simpl. auto with lia.
    + intros [H|(eq' & Hl & Hle & HP)]; [set_solver|].
      destruct (decide (k = i)) as [->|Hne].
      * rewrite Nat.sub_diag in Hl. simpl in Hl. inversion Hl; subst eq'.
        left. rewrite decide_True by exact HP. set_solver.
      * right. exists eq'. replace (k - i) with (S (k - S i)) in Hl by lia.
        simpl in Hl. auto with lia.
Qed.

(** The keys of a dictionary after the whole batch. *)
Lemma run_dom (proj : state -> gset nat) (P : exit -> Prop)
    (Pdec : forall x, Decision (P x)) :
  proj initial = ∅ ->
  (forall st i eq, proj (step st i eq) =
                   (if decide (P (classify eq)) then {[i]} else ∅) ∪ proj st) ->
  forall eq_list k,
    k ∈ proj (go 0 eq_list initial) <->
    exists eq, eq_list !! k = Some eq /\ P (classify eq).
Proof.
  intros H0 Hstep eq_list k.
  rewrite (loop_dom proj P Pdec Hstep), H0, Nat.sub_0_r. split.
  - intros [Hk|(eq & Hl & _ & HP)]; [set_solver|eauto].
  - intros (eq & Hl & HP). right. exists eq. auto with lia.
Qed.

Definition in_raw (x : exit) : Prop := x <> SolveFailure.
Definition in_rescaled (x : exit) : Prop := x = Dropped \/ x = Final.
Definition in_final (x : exit) : Prop := x = Final.

Lemma raw_keys eq_list k :
  k ∈ dom (raw_models (go 0 eq_list initial)) <->
  exists eq, eq_list !! k = Some eq /\ in_raw (classify eq).
Proof.
  apply (run_dom (fun st => dom (raw_models st)) in_raw _); [set_solver|].
  intros st i eq. pose proof (process_row_spec st i eq) as (_ & H & _).
  rewrite H. unfold in_raw. repeat case_decide; tauto || set_solver.
Qed.

Lemma rescaled_keys eq_list k :
  k ∈ dom (rescaled_models (go 0 eq_list initial)) <->
  exists eq, eq_list !! k = Some eq /\ in_rescaled (classify eq).
Proof.
  apply (run_dom (fun st => dom (rescaled_models st)) in_rescaled _); [set_solver|].
  intros st i eq. pose proof (process_row_spec st i eq) as (_ & _ & H & _).
  exact H.
Qed.

Lemma cleaned_keys eq_list k :
  k ∈ dom (cleaned_models (go 0 eq_list initial)) <->
  exists eq, eq_list !! k = Some eq /\ in_final (classify eq).
Proof.
  apply (run_dom (fun st => dom (cleaned_models st)) in_final _); [set_solver|].
  intros st i eq. pose proof (process_row_spec st i eq) as (_ & _ & _ & H & _).
  exact H.
Qed.

Lemma final_keys eq_list k :
  k ∈ dom (final_models (go 0 eq_list initial)) <->
  exists eq, eq_list !! k = Some eq /\ in_final (classify eq).
Proof.
  apply (run_dom (fun st => dom (final_models st)) in_final _); [set_solver|].
  intros st i eq. pose proof (process_row_spec st i eq) as (_ & _ & _ & _ & H & _).
  exact H.
Qed.

Lemma exported_keys eq_list k :
  k ∈ exported (go 0 eq_list initial) <->
  exists eq, eq_list !! k = Some eq /\ in_final (classify eq).
Proof.
  rewrite <- (run_dom (fun st => list_to_set (exported st)) in_final _).
  - now rewrite elem_of_list_to_set.
  - reflexivity.
  - intros st i eq. pose proof (process_row_spec st i eq) as (_ & _ & _ & _ & _ & H).
    rewrite H, list_to_set_app_L. unfold in_final.
    case_decide; simpl; set_solver.
Qed.

End Facts.

End OrchestratorFacts.

Section OrchestratorClaims.

Import Sympy Assembler Orchestrator OrchestratorFacts.

Variable solve : equation -> symbol -> list expr.
Variable evalf : nat -> expr -> expr.
Variable xdot_symbol : symbol.
Variable target : option poly.
Variable gens : option (list symbol).
Variable sig_digits : nat.
Variable tol : Q.
Variable latex_path : bool.

Let step := process_row solve evalf xdot_symbol target gens sig_digits tol latex_path.
Let final_state := run solve evalf xdot_symbol target gens sig_digits tol latex_path.
Let exit_of := classify solve xdot_symbol target gens tol.

(** C9: every equation row increments exactly one of the two counters, so
    when the summary is printed the models obtained and the models failed
    add up to the number of equations. *)
Theorem counters_partition_the_batch (eq_list : list equation) :
  (forall st i eq,
      (successful_models (step st i eq) = S (successful_models st) /\
       failed_models (step st i eq) = failed_models st) \/
      (successful_models (step st i eq) = successful_models st /\
       failed_models (step st i eq) = S (failed_models st))) /\
  successful_models (final_state eq_list) + failed_models (final_state eq_list)
    = length eq_list /\
  summary solve evalf xdot_symbol target gens sig_digits tol latex_path eq_list
    = (length eq_list, successful_models (final_state eq_list),
       failed_models (final_state eq_list)).
Proof.
  split; [|split; [|reflexivity]].
  - intros st i eq. unfold step, process_row.
    destruct (solve eq xdot_symbol); simpl; [right; lia|].
    destruct (numerator_is_zero (together (expand_expr e))); simpl; [right; lia|].
    destruct (numerator_is_zero (drop_small_terms _ tol)); simpl; [right; lia|left; lia].
  - unfold final_state, run.
    rewrite (loop_counters solve evalf xdot_symbol target gens sig_digits tol latex_path).
    reflexivity.
Qed.

(** C10: the key sets of the four returned dictionaries are nested,
    keys(final) = keys(cleaned) ⊆ keys(rescaled) ⊆ keys(raw); a row that
    fails the zero-numerator check is stored in [raw_models] only, a row
    whose numerator is dropped entirely is stored in [raw_models] and
    [rescaled_models] only, and neither row is exported. *)
Theorem model_keys_nested (eq_list : list equation) :
  let '(raw, rescaled, cleaned, final) :=
    print_and_store_models solve evalf xdot_symbol target gens sig_digits tol
                           latex_path eq_list in
  dom final = dom cleaned /\ (dom cleaned ⊆ dom rescaled) /\ (dom rescaled ⊆ dom raw) /\
  forall i eq, eq_list !! i = Some eq ->
    (exit_of eq = ZeroNum ->
       (i ∈ dom raw) /\ (i ∉ dom rescaled) /\ (i ∉ dom cleaned) /\ (i ∉ dom final) /\
       (i ∉ exported (final_state eq_list))) /\
    (exit_of eq = Dropped ->
       (i ∈ dom raw) /\ (i ∈ dom rescaled) /\ (i ∉ dom cleaned) /\ (i ∉ dom final) /\
       (i ∉ exported (final_state eq_list))).
Proof.
  unfold print_and_store_models, final_state, run, exit_of.
  pose proof (raw_keys solve evalf xdot_symbol target gens sig_digits tol latex_path
                eq_list) as Hraw.
  pose proof (rescaled_keys solve evalf xdot_symbol target gens sig_digits tol latex_path
                eq_list) as Hres.
  pose proof (cleaned_keys solve evalf xdot_symbol target gens sig_digits tol latex_path
                eq_list) as Hcl.
  pose proof (final_keys solve evalf xdot_symbol target gens sig_digits tol latex_path
                eq_list) as Hfin.
  pose proof (exported_keys solve evalf xdot_symbol target gens sig_digits tol latex_path
                eq_list) as Hex.
  unfold in_raw, in_rescaled, in_final in *.
  split; [|split; [|split]].
  - apply set_eq. intros k. rewrite Hfin, Hcl. reflexivity.
  - intros k. rewrite Hcl, Hres. intros (eq & ? & ?). eauto.
  - intros k. rewrite Hres, Hraw. intros (eq & ? & [E|E]); exists eq; rewrite E; auto.
  - intros i eq Hl.
    assert (Hnot : forall P : exit -> Prop,
               (exists eq', eq_list !! i = Some eq' /\
                  P (classify solve xdot_symbol target gens tol eq')) ->
               P (classify solve xdot_symbol target gens tol eq)).
    { intros P (eq' & Hl' & HP). rewrite Hl in Hl'. now inversion Hl'; subst. }
    split; intros Hx.
    + split; [apply Hraw; exists eq; split; [assumption|rewrite Hx; discriminate]|].
      split; [rewrite Hres; intros Hk;
              apply (Hnot (fun x => x = Dropped \/ x = Final)) in Hk;
              rewrite Hx in Hk; destruct Hk; discriminate|].
      repeat split; [rewrite Hcl | rewrite Hfin | rewrite Hex];
        intros Hk; apply (Hnot (fun x => x = Final)) in Hk;
        rewrite Hx in Hk; discriminate.
    + split; [apply Hraw; exists eq; split; [assumption|rewrite Hx; discriminate]|].
      split; [apply Hres; exists eq; auto|].
      repeat split; [rewrite Hcl | rewrite Hfin | rewrite Hex];
        intros Hk; apply (Hnot (fun x => x = Final)) in Hk;
        rewrite Hx in Hk; discriminate.
Qed.

End OrchestratorClaims.

(** A solver for equations that already read [x = rhs]. *)
Definition solve_explicit (eq : Assembler.equation) (x : string) : list Sympy.expr :=
  match eq with
  | Assembler.Eq [(c, m)] rhs =>
      if Qeq_bool c 1 && bool_decide (m = {[+ x +]}) then [Sympy.Frac rhs Sympy.one] else []
  | _ => []
  end.

Lemma model_keys_nested_witness :
  let xdot : gmultiset string := {[+ "x0_dot"%string +]} in
  let eq_list :=
    [Assembler.Eq [(1%Q, xdot)] [];
     Assembler.Eq [(1%Q, xdot)] [(2%Q, {[+ "x0"%string +]}); ((-1)%Q, {[+ "x1"%string +]})];
     Assembler.BooleanTrue] in
  let '(raw, rescaled, cleaned, final) :=
    Orchestrator.print_and_store_models solve_explicit (fun _ e => e) "x0_dot"%string
      None None 4 (1 # 1000000) false eq_list in
  (0%nat ∈ dom raw) /\ (0%nat ∉ dom rescaled) /\ (dom final = dom cleaned).
Proof.
  intros xdot eq_list.
  pose proof (model_keys_nested solve_explicit (fun _ e => e) "x0_dot"%string
                None None 4 (1 # 1000000) false eq_list) as H.
  destruct (Orchestrator.print_and_store_models _ _ _ _ _ _ _ _ _)
    as [[[raw rescaled] cleaned] final].
  destruct H as (Hfc & _ & _ & Hrows).
  destruct (Hrows 0%nat (Assembler.Eq [(1%Q, xdot)] []) eq_refl) as [Hzero _].
  destruct (Hzero eq_refl) as (Hraw & Hres & _).
  auto.
Defined.

(** ** The term dropper *)

Module DropFacts.

Import Sympy.
Local Open Scope Q_scope.

Lemma Qlt_bool_iff a b : Qlt_bool a b = true <-> a < b.
Proof.
  unfold Qlt_bool. rewrite negb_true_iff. split.
  - intros H. apply Qnot_le_lt. intros Hle. apply Qle_bool_iff in Hle. congruence.
  - intros H. destruct (Qle_bool b a) eqn:E; [|reflexivity].
    apply Qle_bool_iff in E. exfalso. apply (Qlt_not_le _ _ H E).
Qed.

Lemma is_zero_false c : is_zero c = false <-> ~ c == 0.
Proof.
  unfold is_zero. split.
  - intros H Hc. apply Qeq_bool_iff in Hc. congruence.
  - intros H. destruct (Qeq_bool c 0) eqn:E; [|reflexivity].
    apply Qeq_bool_iff in E. contradiction.
Qed.

Lemma keep_term_iff tol t :
  keep_term tol t = true <-> ~ fst t == 0 /\ tol < Qabs (fst t).
Proof.
  unfold keep_term. simpl.
  rewrite andb_true_iff, negb_true_iff, is_zero_false, Qlt_bool_iff. reflexivity.
Qed.

(** The fallback of [max]: a member of the list that no member exceeds. *)
Lemma max_by_spec key xs : forall x,
  In (max_by key x xs) (x :: xs) /\
  forall y, In y (x :: xs) -> key y <= key (max_by key x xs).
Proof.
  induction xs as [|y ys IH]; intros x; simpl.
  - split; [now left|]. intros y [->|[]]. apply Qle_refl.
  - destruct (Qlt_bool (key x) (key y)) eqn:E.
    + destruct (IH y) as [Hin Hmax]. split.
      * simpl in Hin. tauto.
      * intros w [->|Hw]; [|now apply Hmax].
        apply Qlt_bool_iff in E. apply Qlt_le_weak.
        eapply Qlt_le_trans; [exact E|]. apply Hmax. now left.
    + destruct (IH x) as [Hin Hmax]. split.
      * simpl in Hin. tauto.
      * intros w [->|[->|Hw]].
        -- apply Hmax. now left.
        -- apply Qle_trans with (key x); [|apply Hmax; now left].
           apply Qnot_lt_le. intros Hlt. apply Qlt_bool_iff in Hlt. congruence.
        -- apply Hmax. now right.
Qed.


Lemma div_denominator n d n' d' : div n d = Frac n' d' -> d' <> [].
Proof.
  unfold div. intros H.
  repeat (match type of H with
          | match ?x with _ => _ end = _ => destruct x; try discriminate
          | (if ?b then _ else _) = _ => destruct b; try discriminate
          end);
    inversion H; subst; discriminate.
Qed.

(** *** Polynomials as the engine holds them

    In an expanded sum the power products are pairwise distinct and no
    coefficient vanishes; numbers are in lowest terms. *)
Definition wf_term (t : term) : Prop := is_zero (fst t) = false /\ Qred (fst t) = fst t.

Definition wf_poly (p : poly) : Prop := NoDup (map snd p) /\ Forall wf_term p.

Lemma wf_poly_cons t p :
  wf_poly (t :: p) <-> (snd t ∉ map snd p) /\ wf_term t /\ wf_poly p.
Proof.
  unfold wf_poly. simpl. rewrite list.NoDup_cons, list.Forall_cons. tauto.
Qed.

Lemma wf_poly_nil : wf_poly [].
Proof. split; constructor. Qed.

Lemma add_term_fresh acc t :
  snd t ∉ map snd acc -> wf_term t -> add_term acc t = acc ++ [t].
Proof.
  intros Hnin [Hz Hr]. induction acc as [|[c m] acc IH]; simpl.
  - rewrite Hz, Hr. now destruct t.
  - simpl in Hnin. apply not_elem_of_cons in Hnin as [Hne Hnin].
    rewrite bool_decide_eq_false_2 by congruence.
    now rewrite IH.
Qed.

Lemma fold_add_term_wf ts : forall acc,
  wf_poly (acc ++ ts) -> fold_left add_term ts acc = acc ++ ts.
Proof.
  induction ts as [|t ts IH]; intros acc Hwf; simpl.
  - now rewrite app_nil_r.
  - assert (Hwf' : wf_poly ((acc ++ [t]) ++ ts)) by now rewrite <- app_assoc.
    rewrite add_term_fresh.
    + rewrite IH by exact Hwf'. now rewrite <- app_assoc.
    + destruct Hwf as [Hnd _]. rewrite map_app in Hnd. simpl in Hnd.
      apply list.NoDup_app in Hnd as (_ & Hdis & _).
      intros Hin. apply (Hdis _ Hin). now left.
    + destruct Hwf as [_ Hall]. apply list.Forall_app in Hall as [_ Hall].
      now inversion Hall.
Qed.

(** On such a list [Add] has nothing to collect. *)
Lemma Add_wf ts : wf_poly ts -> Add ts = ts.
Proof. intros H. unfold Add. now rewrite fold_add_term_wf. Qed.

Lemma wf_poly_filter f p : wf_poly p -> wf_poly (List.filter f p).
Proof.
  induction p as [|t p IH]; simpl; [auto|].
  intros H. apply wf_poly_cons in H as (Hnin & Ht & Hp).
  destruct (f t); [|now apply IH].
  apply wf_poly_cons. split; [|split; [exact Ht|now apply IH]].
  intros Hin. apply Hnin.
  apply list_elem_of_fmap in Hin as (t' & -> & Hin').
  apply list_elem_of_fmap. exists t'. split; [reflexivity|].
  apply list_elem_of_In. apply list_elem_of_In in Hin'.
  apply List.filter_In in Hin'. tauto.
Qed.

Lemma wf_poly_single t : wf_term t -> wf_poly [t].
Proof.
  intros H. apply wf_poly_cons. split; [|split; [exact H|apply wf_poly_nil]].
  simpl. apply not_elem_of_nil.
Qed.

Lemma wf_poly_In p t : wf_poly p -> In t p -> wf_term t.
Proof.
  intros [_ H] Hin. rewrite list.Forall_forall in H. apply H. now apply list_elem_of_In.
Qed.

(** *** One side after cleaning, and cleaning it again *)

(** A cleaned side is empty, or made of terms that all pass the filter, or
    the single term retained by the fallback. *)
Definition stable (tol : Q) (p : poly) : Prop :=
  wf_poly p /\
  (p = [] \/ (p <> [] /\ forallb (keep_term tol) p = true) \/
   exists t, p = [t] /\ keep_term tol t = false).

Lemma filter_forallb {A} (f : A -> bool) l : forallb f (List.filter f l) = true.
Proof.
  induction l as [|a l IH]; simpl; [reflexivity|].
  destruct (f a) eqn:E; simpl; [now rewrite E|exact IH].
Qed.

Lemma forallb_filter_id {A} (f : A -> bool) l : forallb f l = true -> List.filter f l = l.
Proof.
  induction l as [|a l IH]; simpl; [reflexivity|].
  intros H. apply andb_true_iff in H as [-> H]. now rewrite IH.
Qed.

Lemma filter_nil_In {A} (f : A -> bool) l a : List.filter f l = [] -> In a l -> f a = false.
Proof.
  intros Hf Hin. destruct (f a) eqn:E; [|reflexivity].
  assert (In a (List.filter f l)) by (apply List.filter_In; auto).
  rewrite Hf in H. destruct H.
Qed.

Lemma den_clean_eq tol p : den_clean tol p = num_clean tol p.
Proof. reflexivity. Qed.

Lemma clean_nil tol : num_clean tol [] = [].
Proof. reflexivity. Qed.

Lemma clean_stable tol p : wf_poly p -> stable tol (num_clean tol p).
Proof.
  intros Hwf. destruct p as [|t p].
  { rewrite clean_nil. split; [apply wf_poly_nil|now left]. }
  unfold num_clean, kept_terms, expand, filter_terms.
  change (as_ordered_terms (t :: p)) with (t :: p).
  destruct (List.filter (keep_term tol) (t :: p)) as [|x xs] eqn:Ef.
  - destruct (max_by_spec magnitude p t) as [Hin _].
    assert (Hm : wf_term (max_by magnitude t p)) by (eapply wf_poly_In; eauto).
    rewrite Add_wf by now apply wf_poly_single.
    split; [now apply wf_poly_single|]. right. right.
    eexists. split; [reflexivity|]. eapply filter_nil_In; eauto.
  - assert (Hw : wf_poly (x :: xs)) by (rewrite <- Ef; now apply wf_poly_filter).
    rewrite Add_wf by exact Hw.
    split; [exact Hw|]. right. left. split; [discriminate|].
    rewrite <- Ef. apply filter_forallb.
Qed.

Lemma stable_fix tol p : stable tol p -> num_clean tol p = p.
Proof.
  intros [Hwf [->|[[Hne Hall]|(t & -> & Hk)]]].
  - apply clean_nil.
  - unfold num_clean, kept_terms, expand, filter_terms.
    destruct p as [|t p]; [congruence|].
    change (as_ordered_terms (t :: p)) with (t :: p).
    rewrite (forallb_filter_id _ _ Hall). now apply Add_wf.
  - unfold num_clean, kept_terms, expand, filter_terms. simpl. rewrite Hk. simpl.
    now apply Add_wf.
Qed.

Lemma stable_single tol t : wf_term t -> stable tol [t].
Proof.
  intros H. split; [now apply wf_poly_single|].
  destruct (keep_term tol t) eqn:E.
  - right. left. split; [discriminate|]. simpl. now rewrite E.
  - right. right. eauto.
Qed.

Lemma wf_term_one m : wf_term (1, m).
Proof. split; reflexivity. Qed.

Lemma Qred_fix_div_one a : Qred a = a -> Qred (/ 1 * a) = a.
Proof.
  intros H. rewrite <- H at 2. apply Qred_complete.
  change (/ 1) with 1. apply Qmult_1_l.
Qed.

Lemma is_zero_quotient c a :
  is_zero c = false -> is_zero a = false -> is_zero (Qred (/ c * a)) = false.
Proof.
  rewrite !is_zero_false. intros Hc Ha H. rewrite Qred_correct in H.
  apply Qmult_integral in H as [H|H]; [|contradiction].
  apply Hc. rewrite <- (Qinv_involutive c), H. reflexivity.
Qed.

Lemma wf_term_quotient c a m m' :
  is_zero c = false -> wf_term (a, m) -> wf_term (Qred (/ c * a), m').
Proof.
  intros Hc [Ha _]. split; simpl in *.
  - now apply is_zero_quotient.
  - apply Qred_complete, Qred_correct.
Qed.

(** A fraction of two coprime single terms, the lower one with coefficient
    one, is returned as it is. *)
Lemma drop_single_single tol a A B :
  wf_term (a, A) -> A ∖ B = A -> B ∖ A = B ->
  drop_small_terms (Frac [(a, A)] [(1, B)]) tol = Frac [(a, A)] [(1, B)].
Proof.
  intros Ha HA HB. unfold drop_small_terms.
  change (den_clean tol [(1, B)]) with (num_clean tol [(1, B)]).
  rewrite (stable_fix tol [(1, B)]) by (apply stable_single, wf_term_one).
  rewrite (stable_fix tol [(a, A)]) by now apply stable_single.
  simpl. destruct Ha as [_ Hr]. simpl in Hr.
  rewrite (Qred_fix_div_one a Hr), HA, HB. simpl.
  now rewrite (Qred_fix_div_one a Hr), HA, HB.
Qed.

Lemma drop_zero tol : drop_small_terms (Frac [] one) tol = Frac [] one.
Proof.
  unfold drop_small_terms.
  change (den_clean tol one) with (num_clean tol one).
  rewrite (stable_fix tol one) by (apply stable_single, wf_term_one).
  reflexivity.
Qed.




End DropFacts.



(** C3: when the cleaned denominator is identically zero the result is the
    sentinel [zoo]: the function returns, and what it returns is not a
    fraction, so in particular not the number zero. *)
Theorem zero_denominator_gives_sentinel (num den : Sympy.poly) (tol : Q) :
  Sympy.den_clean tol den = [] ->
  Sympy.drop_small_terms (Sympy.Frac num den) tol = Sympy.Zoo /\
  (forall n d, Sympy.drop_small_terms (Sympy.Frac num den) tol <> Sympy.Frac n d).
Proof.
  intros H. unfold Sympy.drop_small_terms. rewrite H. simpl.
  split; [reflexivity|discriminate].
Qed.

Lemma zero_denominator_gives_sentinel_witness :
  Sympy.den_clean (1 # 1000000) [] = [] /\
  Sympy.drop_small_terms (Sympy.Frac [(1%Q, {[+ "x0"%string +]})] []) (1 # 1000000)
    = Sympy.Zoo.
Proof.
  split; [reflexivity|].
  apply (zero_denominator_gives_sentinel [(1%Q, {[+ "x0"%string +]})] [] (1 # 1000000)).
  reflexivity.
Defined.

(** C6, as stated, fails: after the first pass keeps the constant [2] as the
    only term of the denominator of [(6*x + 8*z)/(y + 2)] with [tol = 3], the
    quotient is evaluated to [3*x + 4*z], and the second pass drops [3*x]. *)
Lemma drop_small_terms_twice_differs :
  ~ (forall (e : Sympy.expr) (tol : Q),
        Sympy.drop_small_terms (Sympy.drop_small_terms e tol) tol
        = Sympy.drop_small_terms e tol).
Proof.
  intros H.
  specialize (H (Sympy.Frac [(6%Q, {[+ "x"%string +]}); (8%Q, {[+ "z"%string +]})]
                            [(1%Q, {[+ "y"%string +]}); (2%Q, ∅)]) 3%Q).
  vm_compute in H. discriminate H.
Qed.

(** ** Values of power products and polynomials *)

Module EvalFacts.

Import Sympy DropFacts.
Local Open Scope Q_scope.









Global Instance eval_term_proper rho :
  Proper (Qeq ==> eq ==> Qeq) (fun (c : Q) (m : gmultiset string) => eval_term rho (c, m)).
Proof. intros c c' Hc m m' ->. unfold eval_term. simpl. now rewrite Hc. Qed.




(** [add_term] keeps a sum in the form the engine holds. *)
Lemma add_term_keys p t k :
  k ∈ map snd (add_term p t) -> k = snd t \/ k ∈ map snd p.
Proof.
  induction p as [|[c m] p IH]; simpl.
  - destruct (is_zero (fst t)); simpl; intros H.
    + now apply elem_of_nil in H.
    + apply list_elem_of_singleton in H. now left.
  - case_bool_decide as Hm.
    + destruct (is_zero (c + fst t)); simpl; intros H.
      * right. apply elem_of_cons. now right.
      * right. exact H.
    + simpl. intros H. apply elem_of_cons in H as [->|H].
      * right. apply elem_of_cons. now left.
      * destruct (IH H) as [->|H']; [now left|]. right. apply elem_of_cons. now right.
Qed.

Lemma add_term_wf p t : wf_poly p -> wf_poly (add_term p t).
Proof.
  induction p as [|[c m] p IH]; simpl; intros Hwf.
  - destruct (is_zero (fst t)) eqn:E; [apply wf_poly_nil|].
    apply wf_poly_single. split; simpl.
    + apply is_zero_false. rewrite Qred_correct. now apply is_zero_false.
    + apply Qred_complete, Qred_correct.
  - apply wf_poly_cons in Hwf as (Hnin & Ht & Hp). simpl in Hnin.
    case_bool_decide as Hm.
    + destruct (is_zero (c + fst t)) eqn:E; [exact Hp|].
      apply wf_poly_cons. split; [exact Hnin|split; [|exact Hp]].
      split; simpl.
      * apply is_zero_false. rewrite Qred_correct. now apply is_zero_false.
      * apply Qred_complete, Qred_correct.
    + apply wf_poly_cons. split; [|split; [exact Ht|now apply IH]].
      simpl. intros Hin. destruct (add_term_keys _ _ _ Hin) as [->|H']; [now apply Hm|].
      now apply Hnin.
Qed.


End EvalFacts.

(** ** The equation assembler *)

Module AssemblerFacts.

Import Sympy Assembler.
Local Open Scope nat_scope.

(** The entry of the input array at row [i] and column [j], when there is one. *)
Definition cell (a : list (list Q)) (i j : nat) : option Q :=
  match a !! i with
  | Some r => r !! j
  | None => None
  end.

Lemma lookup_concat_rect (a : list (list Q)) c i j :
  Forall (fun r => length r = c) a -> j < c ->
  concat a !! (i * c + j) = cell a i j.
Proof.
  intros Hall Hj. revert i. induction Hall as [|r a Hr Hall IH]; intros i.
  - unfold cell. now rewrite !lookup_nil.
  - destruct i as [|i]; simpl.
    + unfold cell. simpl. apply lookup_app_l. lia.
    + rewrite lookup_app_r by lia.
      replace (c + i * c + j - length r) with (i * c + j) by lia.
      rewrite IH. reflexivity.
Qed.

(** What [sp.Matrix] builds from a rectangular array. *)
Lemma sp_Matrix_spec a M :
  sp_Matrix a = inr M ->
  rows M = length a /\ Forall (fun r => length r = cols M) a /\ flat M = concat a /\
  (a = [] -> cols M = 0).
Proof.
  unfold sp_Matrix. destruct a as [|r a]; [intros H; inversion H; subst; simpl; auto|].
  destruct (forallb _ _) eqn:E; [|discriminate].
  intros H. inversion H; subst; clear H. simpl.
  repeat split; try discriminate.
  apply list.Forall_forall. intros x Hx.
  apply Nat.eqb_eq. apply (proj1 (forallb_forall _ _) E). now apply list_elem_of_In.
Qed.

(** An entry is read exactly when it lies inside the matrix; otherwise the
    access raises [IndexError]. *)
Lemma entry_spec a M i j :
  sp_Matrix a = inr M ->
  (i < rows M /\ j < cols M /\ exists q, cell a i j = Some q /\ entry M i j = inr q) \/
  (~ (i < rows M /\ j < cols M) /\ entry M i j = inl (IndexError i j)).
Proof.
  intros HM. destruct (sp_Matrix_spec a M HM) as (Hr & Hall & Hf & _).
  unfold entry.
  destruct (i <? rows M) eqn:Ei; [|right; apply Nat.ltb_ge in Ei; split; [lia|reflexivity]].
  destruct (j <? cols M) eqn:Ej; [|right; apply Nat.ltb_ge in Ej; split; [lia|reflexivity]].
  apply Nat.ltb_lt in Ei. apply Nat.ltb_lt in Ej. left. simpl.
  rewrite Hf, (lookup_concat_rect a (cols M) i j Hall Ej).
  unfold cell. rewrite Hr in Ei.
  destruct (lookup_lt_is_Some_2 a i Ei) as [r Hri]. rewrite Hri.
  assert (Hlen : length r = cols M).
  { rewrite list.Forall_forall in Hall. apply Hall. eapply list_elem_of_lookup_2; eauto. }
  destruct (lookup_lt_is_Some_2 r j ltac:(lia)) as [q Hq]. rewrite Hq.
  repeat split; try lia. eauto.
Qed.

(** *** The vocabulary *)

Lemma extract_fold_keeps (fs : list string) : forall st f,
  snd st !! f = Some (Tokenizer.tokenize f) ->
  snd (fold_left extract_step fs st) !! f = Some (Tokenizer.tokenize f).
Proof.
  induction fs as [|feat fs IH]; intros st f H; simpl; [exact H|].
  apply IH. unfold extract_step. simpl.
  destruct (decide (feat = f)) as [->|Hne].
  - apply lookup_insert_eq.
  - now rewrite lookup_insert_ne.
Qed.

Lemma extract_fold_map (fs : list string) : forall st f,
  f ∈ fs -> snd (fold_left extract_step fs st) !! f = Some (Tokenizer.tokenize f).
Proof.
  induction fs as [|feat fs IH]; intros st f Hin; simpl.
  - now apply elem_of_nil in Hin.
  - apply elem_of_cons in Hin as [->|Hin]; [|now apply IH].
    apply extract_fold_keeps. unfold extract_step. simpl. apply lookup_insert_eq.
Qed.

Lemma extract_fold_grows (fs : list string) : forall st t,
  t ∈ fst st -> t ∈ fst (fold_left extract_step fs st).
Proof.
  induction fs as [|feat fs IH]; intros st t H; simpl; [exact H|].
  apply IH. unfold extract_step. simpl. set_solver.
Qed.

Lemma extract_fold_tokens (fs : list string) : forall st f t,
  f ∈ fs -> t ∈ Tokenizer.tokenize f -> t ∈ fst (fold_left extract_step fs st).
Proof.
  induction fs as [|feat fs IH]; intros st f t Hin Ht; simpl.
  - now apply elem_of_nil in Hin.
  - apply elem_of_cons in Hin as [->|Hin]; [|now apply (IH _ f)].
    apply extract_fold_grows. unfold extract_step. simpl.
    apply elem_of_union_r. now apply elem_of_list_to_set.
Qed.

Lemma identity_map_lookup (l : list string) t :
  t ∈ l ->
  (list_to_map (map (fun tok => (tok, tok)) l) : gmap string symbol) !! t = Some t.
Proof.
  induction l as [|a l IH]; intros Hin; simpl.
  - now apply elem_of_nil in Hin.
  - destruct (decide (a = t)) as [->|Hne].
    + apply lookup_insert_eq.
    + rewrite lookup_insert_ne by exact Hne. apply IH.
      apply elem_of_cons in Hin as [->|Hin]; [congruence|exact Hin].
Qed.

(** Every feature is in the token map, and every token has its symbol. *)
Definition vocabulary_ok (fs : list string) (fmap : gmap string (list string))
    (token_symbols : gmap string symbol) : Prop :=
  forall name, name ∈ fs ->
    fmap !! name = Some (Tokenizer.tokenize name) /\
    forall t, t ∈ Tokenizer.tokenize name -> token_symbols !! t = Some t.

Lemma vocabulary_built fs :
  vocabulary_ok fs (snd (extract_distinct_features fs))
    (list_to_map (map (fun tok => (tok, tok)) (fst (extract_distinct_features fs)))).
Proof.
  intros name Hin. unfold extract_distinct_features. simpl. split.
  - now apply extract_fold_map.
  - intros t Ht. apply identity_map_lookup.
    rewrite merge_sort_Permutation. apply elem_of_elements.
    now apply (extract_fold_tokens fs _ name).
Qed.

(** *** Products *)

Lemma count_token_keys counts token k :
  k ∈ map fst (count_token counts token) -> k = token \/ k ∈ map fst counts.
Proof.
  induction counts as [|[k' c] counts IH]; simpl.
  - intros H. apply list_elem_of_singleton in H. now left.
  - destruct (String.eqb k' token) eqn:E; simpl; [tauto|].
    intros H. apply elem_of_cons in H as [->|H].
    + right. apply elem_of_cons. now left.
    + destruct (IH H) as [->|H']; [now left|]. right. apply elem_of_cons. now right.
Qed.

Lemma fold_count_token_keys tokens : forall counts k,
  k ∈ map fst (fold_left count_token tokens counts) -> k ∈ tokens \/ k ∈ map fst counts.
Proof.
  induction tokens as [|t tokens IH]; intros counts k H; simpl in *; [now right|].
  destruct (IH _ _ H) as [H'|H'].
  - left. apply elem_of_cons. now right.
  - destruct (count_token_keys _ _ _ H') as [->|H'']; [|now right].
    left. apply elem_of_cons. now left.
Qed.

Lemma powers_identity (token_symbols : gmap string symbol) counts :
  (forall k, k ∈ map fst counts -> token_symbols !! k = Some k) ->
  powers token_symbols counts = inr counts.
Proof.
  induction counts as [|[k c] counts IH]; intros H; simpl; [reflexivity|].
  unfold getitem. rewrite (H k) by (simpl; apply elem_of_cons; now left). simpl.
  rewrite IH; [reflexivity|].
  intros k' Hk'. apply H. simpl. apply elem_of_cons. now right.
Qed.

Lemma consolidate_product_ok tokens (token_symbols : gmap string symbol) :
  (forall t, t ∈ tokens -> token_symbols !! t = Some t) ->
  consolidate_product tokens token_symbols = inr (fold_left count_token tokens []).
Proof.
  intros H. unfold consolidate_product. apply powers_identity.
  intros k Hk. apply H.
  destruct (fold_count_token_keys _ _ _ Hk) as [Hk'|Hk']; [exact Hk'|].
  simpl in Hk'. now apply elem_of_nil in Hk'.
Qed.

(** *** Rows *)

(** The counted product of a feature, and the term it contributes to row
    [i] through column [j] of the array [a]. *)
Definition feature_product (name : string) : product :=
  fold_left count_token (Tokenizer.tokenize name) [].

Definition row_term (a : list (list Q)) (fs : list string) (i j : nat) : Q * gmultiset string :=
  times (default 0%Q (cell a i j)) (feature_product (default String.EmptyString (fs !! j))).

Definition row_poly (a : list (list Q)) (fs : list string) (i : nat) (js : list nat)
    (acc : list (Q * gmultiset string)) : list (Q * gmultiset string) :=
  fold_left (fun acc j => add_term acc (row_term a fs i j)) js acc.

Definition inside (M : Matrix) (i j : nat) : Prop := i < rows M /\ j < cols M.

Global Instance inside_dec M i j : Decision (inside M i j).
Proof. unfold inside. apply _. Defined.

Section Rows.

Variable fs : list string.
Variable fmap : gmap string (list string).
Variable token_symbols : gmap string string.
Hypothesis Hvoc : vocabulary_ok fs fmap token_symbols.

Lemma row_sum_spec a M i :
  sp_Matrix a = inr M ->
  forall js acc, (forall j, j ∈ js -> j < length fs) ->
    (Forall (inside M i) js /\
     row_sum M fmap token_symbols fs i js acc = inr (row_poly a fs i js acc)) \/
    (Exists (fun j => ~ inside M i j) js /\
     exists j, row_sum M fmap token_symbols fs i js acc = inl (IndexError i j)).
Proof.
  intros HM. induction js as [|j js IH]; intros acc Hjs.
  - left. split; [constructor|reflexivity].
  - assert (Hj : j < length fs) by (apply Hjs, elem_of_cons; now left).
    assert (Hjs' : forall j', j' ∈ js -> j' < length fs)
      by (intros j' H'; apply Hjs, elem_of_cons; now right).
    destruct (lookup_lt_is_Some_2 fs j Hj) as [name Hname].
    destruct (Hvoc name (list_elem_of_lookup_2 _ _ _ Hname)) as [Hmap Htok].
    simpl.
    destruct (entry_spec a M i j HM) as [(Hi & Hc & q & Hcell & He)|[Hout He]].
    + rewrite He. simpl. rewrite Hname. simpl.
      unfold getitem. rewrite Hmap. simpl.
      rewrite (consolidate_product_ok _ _ Htok). simpl.
      assert (Ht : times q (fold_left count_token (Tokenizer.tokenize name) [])
                   = row_term a fs i j).
      { unfold row_term, feature_product. now rewrite Hcell, Hname. }
      rewrite Ht.
      destruct (IH (add_term acc (row_term a fs i j)) Hjs') as [[Hall Hr]|[Hex Hr]].
      * left. split; [constructor; [split; assumption|exact Hall]|exact Hr].
      * right. split; [now apply Exists_cons_tl|exact Hr].
    + right. split; [now apply Exists_cons_hd|].
      exists j. now rewrite He.
Qed.

Definition row_equation (aL aR : list (list Q)) (n i : nat) : equation :=
  sp_Eq (sub (row_poly aL fs i (seq 0 n) []) (row_poly aR fs i (seq 0 n) [])).

Definition row_inside (L R : Matrix) (n i : nat) : Prop :=
  Forall (inside L i) (seq 0 n) /\ Forall (inside R i) (seq 0 n).

Lemma build_rows_spec aL aR L R n :
  sp_Matrix aL = inr L -> sp_Matrix aR = inr R -> n <= length fs ->
  forall idx,
    (Forall (row_inside L R n) idx /\
     build_rows L R fmap token_symbols fs n idx = inr (map (row_equation aL aR n) idx)) \/
    (Exists (fun i => ~ row_inside L R n i) idx /\
     exists i j, build_rows L R fmap token_symbols fs n idx = inl (IndexError i j)).
Proof.
  intros HL HR Hn. induction idx as [|i idx IH].
  - left. split; [constructor|reflexivity].
  - assert (Hseq : forall j, j ∈ seq 0 n -> j < length fs).
    { intros j Hj. apply elem_of_seq in Hj. lia. }
    simpl.
    destruct (row_sum_spec aL L i HL (seq 0 n) [] Hseq) as [[HLi ->]|[HLi [j ->]]];
      [|right; split; [|eauto]; apply Exists_cons_hd; intros [H _];
        apply List.Exists_exists in HLi as (j' & Hj' & Hout);
        rewrite List.Forall_forall in H; now apply Hout, H].
    simpl.
    destruct (row_sum_spec aR R i HR (seq 0 n) [] Hseq) as [[HRi ->]|[HRi [j ->]]];
      [|right; split; [|eauto]; apply Exists_cons_hd; intros [_ H];
        apply List.Exists_exists in HRi as (j' & Hj' & Hout);
        rewrite List.Forall_forall in H; now apply Hout, H].
    simpl.
    destruct IH as [[Hall ->]|[Hex (i' & j' & ->)]].
    + left. split; [constructor; [split; assumption|exact Hall]|reflexivity].
    + right. split; [now apply Exists_cons_tl|eauto].
Qed.

End Rows.

(** *** The whole assembly *)

Lemma generate_spec fs aL aR L R :
  sp_Matrix aL = inr L -> sp_Matrix aR = inr R ->
  let n := length fs in
  (Forall (row_inside L R n) (seq 0 n) /\
   exists token_symbols,
     generate_symbolic_equations_both_sides fs aL aR
     = inr (map (row_equation fs aL aR n) (seq 0 n), token_symbols)) \/
  (Exists (fun i => ~ row_inside L R n i) (seq 0 n) /\
   exists i j, generate_symbolic_equations_both_sides fs aL aR = inl (IndexError i j)).
Proof.
  intros HL HR n. unfold generate_symbolic_equations_both_sides.
  pose proof (vocabulary_built fs) as Hvoc.
  destruct (extract_distinct_features fs) as [distinct fmap]. simpl in Hvoc.
  rewrite HL, HR. simpl. fold n.
  destruct (build_rows_spec fs fmap _ Hvoc aL aR L R n HL HR (Nat.le_refl _) (seq 0 n))
    as [[Hall ->]|[Hex (i & j & ->)]].
  - left. split; [exact Hall|]. simpl. eauto.
  - right. split; [exact Hex|]. simpl. eauto.
Qed.

Lemma all_rows_inside L R n :
  Forall (row_inside L R n) (seq 0 n) <->
  n = 0 \/ (n <= rows L /\ n <= cols L /\ n <= rows R /\ n <= cols R).
Proof.
  unfold row_inside, inside. rewrite List.Forall_forall. split.
  - intros H. destruct n as [|n]; [now left|right].
    assert (Hin : In n (seq 0 (S n))) by (apply in_seq; lia).
    destruct (H n Hin) as [H1 H2].
    rewrite List.Forall_forall in H1, H2.
    destruct (H1 n Hin), (H2 n Hin). lia.
  - intros [->|Hd] i Hi; [destruct Hi|].
    apply in_seq in Hi. split; apply List.Forall_forall; intros j Hj;
      apply in_seq in Hj; lia.
Qed.

(** *** What the rows denote *)

Local Open Scope Q_scope.
Import EvalFacts DropFacts.


(** The coefficient of the input array, and the sum over the columns below [n]. *)
Definition coeff (a : list (list Q)) (i j : nat) : Q := default 0 (cell a i j).









Lemma row_poly_wf a fs i js : wf_poly (row_poly a fs i js []).
Proof.
  unfold row_poly. generalize (@nil (Q * gmultiset string)) wf_poly_nil.
  induction js as [|j js IH]; intros acc Hacc; simpl; [exact Hacc|].
  apply IH. now apply add_term_wf.
Qed.






(** *** The identity on the left *)

Lemma identity_cell fs i j :
  (i < length fs)%nat -> (j < length fs)%nat ->
  cell (generate_identity_matrix fs) i j = Some (if (i =? j)%nat then 1 else 0).
Proof.
  intros Hi Hj. unfold cell, generate_identity_matrix.
  rewrite list_lookup_fmap, lookup_seq_lt by exact Hi. simpl.
  rewrite list_lookup_fmap, lookup_seq_lt by exact Hj. reflexivity.
Qed.




End AssemblerFacts.

(** C8, as stated, fails: a single feature with two 2 x 2 matrices is
    assembled without any error. *)
Lemma larger_matrices_are_accepted :
  let features := ["x0"%string] in
  let left_coeff := [[1%Q; 0%Q]; [0%Q; 1%Q]] in
  let right_coeff := [[2%Q; 0%Q]; [0%Q; 0%Q]] in
  length features <> length left_coeff /\
  exists r,
    Assembler.generate_symbolic_equations_both_sides features left_coeff right_coeff
    = inr r.
Proof.
  split; [discriminate|]. eexists. vm_compute. reflexivity.
Qed.

(** *** The order in which the entries are read *)

Module BlockFacts.
Import Sympy Assembler AssemblerFacts.

(** A row sum depends only on the entries it reads. *)
Lemma row_poly_cells a a' fs i js : forall acc,
  (forall j, j ∈ js -> cell a i j = cell a' i j) ->
  row_poly a fs i js acc = row_poly a' fs i js acc.
Proof.
  induction js as [|j js IH]; intros acc H; [reflexivity|].
  change (row_poly a fs i (j :: js) acc)
    with (row_poly a fs i js (add_term acc (row_term a fs i j))).
  change (row_poly a' fs i (j :: js) acc)
    with (row_poly a' fs i js (add_term acc (row_term a' fs i j))).
  assert (E : row_term a fs i j = row_term a' fs i j).
  { unfold row_term. rewrite (H j); [reflexivity|left]. }
  rewrite E. apply IH. intros j' Hj'. apply H. now right.
Qed.

(** A matrix with a column has a row. *)
Lemma cols_rows a M : sp_Matrix a = inr M -> 0 < cols M -> 0 < rows M.
Proof.
  intros HM Hc. destruct (sp_Matrix_spec a M HM) as (Hr & _ & _ & H0).
  destruct a as [|r a]; [specialize (H0 eq_refl); lia|]. rewrite Hr. simpl. lia.
Qed.

Lemma seq_split s n k : k < n -> seq s n = seq s k ++ (s + k) :: seq (S (s + k)) (n - S k).
Proof.
  intros H. replace n with (k + S (n - S k)) at 1 by lia.
  rewrite seq_app. simpl. reflexivity.
Qed.

Section Reading.

Variable fs : list string.
Variable fmap : gmap string (list string).
Variable token_symbols : gmap string string.
Hypothesis Hvoc : vocabulary_ok fs fmap token_symbols.

(** The first entry of a row that is missing stops the row sum. *)
Lemma row_sum_first_missing a M i :
  sp_Matrix a = inr M ->
  forall js1 j js2 acc,
    (forall j', j' ∈ js1 -> inside M i j' /\ j' < length fs) ->
    ~ inside M i j ->
    row_sum M fmap token_symbols fs i (js1 ++ j :: js2) acc = inl (IndexError i j).
Proof.
  intros HM. induction js1 as [|j1 js1 IH]; intros j js2 acc Hin Hout; simpl.
  - destruct (entry_spec a M i j HM) as [(Hi & Hc & _)|[_ He]].
    + exfalso. apply Hout. now split.
    + now rewrite He.
  - destruct (Hin j1) as [Hins Hj1]; [left|].
    destruct (lookup_lt_is_Some_2 fs j1 Hj1) as [name Hname].
    destruct (Hvoc name (list_elem_of_lookup_2 _ _ _ Hname)) as [Hmap Htok].
    destruct (entry_spec a M i j1 HM) as [(_ & _ & q & _ & He)|[Hno _]];
      [|contradiction].
    rewrite He. simpl. rewrite Hname. simpl.
    unfold getitem. rewrite Hmap. simpl.
    rewrite (consolidate_product_ok _ _ Htok). simpl.
    apply IH; [|exact Hout]. intros j' Hj'. apply Hin. now right.
Qed.

Lemma row_sum_inside a M i n :
  sp_Matrix a = inr M -> n <= length fs -> Forall (inside M i) (seq 0 n) ->
  row_sum M fmap token_symbols fs i (seq 0 n) [] = inr (row_poly a fs i (seq 0 n) []).
Proof.
  intros HM Hn Hall.
  destruct (row_sum_spec fs fmap token_symbols Hvoc a M i HM (seq 0 n) [])
    as [[_ H]|[Hex _]]; [|exact H|].
  - intros j Hj. apply elem_of_seq in Hj. lia.
  - exfalso. apply List.Exists_exists in Hex. destruct Hex as (j & Hj & Hout).
    rewrite List.Forall_forall in Hall. now apply Hout, Hall.
Qed.

(** Rows that lie inside both matrices are passed; the error of the first
    row that does not is the error of the loop. *)
Lemma build_rows_passes aL aR L R n e :
  sp_Matrix aL = inr L -> sp_Matrix aR = inr R -> n <= length fs ->
  forall idx1 rest,
    Forall (row_inside L R n) idx1 ->
    build_rows L R fmap token_symbols fs n rest = inl e ->
    build_rows L R fmap token_symbols fs n (idx1 ++ rest) = inl e.
Proof.
  intros HL HR Hn. induction idx1 as [|i idx1 IH]; intros rest Hall He; [exact He|].
  inversion Hall as [|? ? [HiL HiR] Hall']; subst. simpl.
  rewrite (row_sum_inside aL L i n HL Hn HiL). simpl.
  rewrite (row_sum_inside aR R i n HR Hn HiR). simpl.
  now rewrite (IH rest Hall' He).
Qed.

Lemma build_rows_left_error L R n i rest e :
  row_sum L fmap token_symbols fs i (seq 0 n) [] = inl e ->
  build_rows L R fmap token_symbols fs n (i :: rest) = inl e.
Proof. intros H. simpl. now rewrite H. Qed.

Lemma build_rows_right_error L R n i rest p e :
  row_sum L fmap token_symbols fs i (seq 0 n) [] = inr p ->
  row_sum R fmap token_symbols fs i (seq 0 n) [] = inl e ->
  build_rows L R fmap token_symbols fs n (i :: rest) = inl e.
Proof. intros H1 H2. simpl. now rewrite H1, H2. Qed.

(** A row that starts inside the matrix and is too short for [n] columns
    stops at the first column the matrix does not have. *)
Lemma short_row a M i n :
  sp_Matrix a = inr M -> n <= length fs -> i < rows M \/ cols M = 0 -> cols M < n ->
  row_sum M fmap token_symbols fs i (seq 0 n) [] = inl (IndexError i (cols M)).
Proof.
  intros HM Hn Hi Hc. rewrite (seq_split 0 n (cols M) Hc). simpl.
  apply (row_sum_first_missing a M i HM).
  - intros j Hj. apply elem_of_seq in Hj. unfold inside. lia.
  - unfold inside. lia.
Qed.

(** A row the matrix does not have stops at its first column. *)
Lemma missing_row a M i n :
  sp_Matrix a = inr M -> 0 < n -> rows M <= i ->
  row_sum M fmap token_symbols fs i (seq 0 n) [] = inl (IndexError i 0).
Proof.
  intros HM Hn Hi. destruct n as [|n]; [lia|]. simpl seq.
  apply (row_sum_first_missing a M i HM [] 0).
  - intros j Hj. now apply elem_of_nil in Hj.
  - unfold inside. lia.
Qed.

End Reading.

(** The assembly with the vocabulary of the features unfolded. *)
Lemma generate_unfold fs aL aR L R :
  sp_Matrix aL = inr L -> sp_Matrix aR = inr R ->
  exists fmap token_symbols,
    vocabulary_ok fs fmap token_symbols /\
    token_symbols = list_to_map (map (fun tok => (tok, tok))
                                     (fst (extract_distinct_features fs))) /\
    generate_symbolic_equations_both_sides fs aL aR =
    match build_rows L R fmap token_symbols fs (length fs) (seq 0 (length fs)) with
    | inl e => inl e
    | inr eq_list => inr (eq_list, token_symbols)
    end.
Proof.
  intros HL HR. unfold generate_symbolic_equations_both_sides.
  pose proof (vocabulary_built fs) as Hvoc.
  destruct (extract_distinct_features fs) as [distinct fmap]. simpl in Hvoc.
  rewrite HL, HR. simpl.
  exists fmap, (list_to_map (map (fun tok => (tok, tok)) distinct)).
  split; [exact Hvoc|]. split; [reflexivity|].
  destruct (build_rows _ _ _ _ _ _ _); reflexivity.
Qed.

End BlockFacts.

(** C8, amended: no dimension check is made.  With rectangular coefficient
    arrays, the assembly succeeds whenever both matrices have at least
    [len(features)] rows and columns, and the result depends only on their
    leading blocks of that size, which is all it reads.  With a positive
    number of features and a smaller dimension it raises [IndexError] at the
    first missing entry in reading order: in row 0 at the first column the
    left matrix lacks, else in row 0 at the first column the right matrix
    lacks, else at column 0 of the first row one of them lacks. *)
Theorem assembly_reads_leading_block (features : list string)
    (left_coeff right_coeff : list (list Q)) (L R : Assembler.Matrix) :
  Assembler.sp_Matrix left_coeff = inr L ->
  Assembler.sp_Matrix right_coeff = inr R ->
  let n := length features in
  let assemble := Assembler.generate_symbolic_equations_both_sides features in
  ((n = 0 \/ (n <= Assembler.rows L /\ n <= Assembler.cols L /\
              n <= Assembler.rows R /\ n <= Assembler.cols R))%nat ->
   exists eqs token_symbols,
     assemble left_coeff right_coeff = inr (eqs, token_symbols) /\ length eqs = n /\
     forall left_coeff' right_coeff' L' R',
       Assembler.sp_Matrix left_coeff' = inr L' ->
       Assembler.sp_Matrix right_coeff' = inr R' ->
       (n <= Assembler.rows L' /\ n <= Assembler.cols L' /\
        n <= Assembler.rows R' /\ n <= Assembler.cols R')%nat ->
       (forall i j, (i < n)%nat -> (j < n)%nat ->
          AssemblerFacts.cell left_coeff' i j = AssemblerFacts.cell left_coeff i j /\
          AssemblerFacts.cell right_coeff' i j = AssemblerFacts.cell right_coeff i j) ->
       assemble left_coeff' right_coeff' = inr (eqs, token_symbols)) /\
  ((0 < n)%nat ->
   ((Assembler.cols L < n)%nat ->
    assemble left_coeff right_coeff = inl (Assembler.IndexError 0 (Assembler.cols L))) /\
   ((n <= Assembler.cols L)%nat -> (Assembler.cols R < n)%nat ->
    assemble left_coeff right_coeff = inl (Assembler.IndexError 0 (Assembler.cols R))) /\
   ((n <= Assembler.cols L)%nat -> (n <= Assembler.cols R)%nat ->
    (Nat.min (Assembler.rows L) (Assembler.rows R) < n)%nat ->
    assemble left_coeff right_coeff
    = inl (Assembler.IndexError (Nat.min (Assembler.rows L) (Assembler.rows R)) 0))).
Proof.
  intros HL HR n assemble. subst assemble.
  destruct (BlockFacts.generate_unfold features left_coeff right_coeff L R HL HR)
    as (fmap & ts & Hvoc & Hts & Hg).
  fold n in Hg. split.
  - intros Hd.
    assert (Hall : forall L0 R0,
               (n = 0 \/ (n <= Assembler.rows L0 /\ n <= Assembler.cols L0 /\
                          n <= Assembler.rows R0 /\ n <= Assembler.cols R0))%nat ->
               Forall (AssemblerFacts.row_inside L0 R0 n) (seq 0 n))
      by (intros; now apply AssemblerFacts.all_rows_inside).
    destruct (AssemblerFacts.build_rows_spec features fmap ts Hvoc left_coeff right_coeff
                L R n HL HR (Nat.le_refl _) (seq 0 n)) as [[_ Hb]|[Hex _]].
    2: { exfalso. apply List.Exists_exists in Hex. destruct Hex as (i & Hi & Hout).
         specialize (Hall L R Hd). rewrite List.Forall_forall in Hall.
         now apply Hout, Hall. }
    rewrite Hb in Hg. eexists _, ts. split; [exact Hg|].
    split; [now rewrite length_map, length_seq|].
    intros left' right' L' R' HL' HR' Hd' Hcells.
    destruct (BlockFacts.generate_unfold features left' right' L' R' HL' HR')
      as (fmap' & ts' & Hvoc' & Hts' & Hg').
    fold n in Hg'.
    destruct (AssemblerFacts.build_rows_spec features fmap' ts' Hvoc' left' right'
                L' R' n HL' HR' (Nat.le_refl _) (seq 0 n)) as [[_ Hb']|[Hex _]].
    2: { exfalso. apply List.Exists_exists in Hex. destruct Hex as (i & Hi & Hout).
         specialize (Hall L' R' (or_intror Hd')). rewrite List.Forall_forall in Hall.
         now apply Hout, Hall. }
    rewrite Hb' in Hg'. rewrite Hg', Hts', <- Hts. do 2 f_equal.
    apply map_ext_in. intros i Hi. apply in_seq in Hi.
    unfold AssemblerFacts.row_equation. f_equal. f_equal.
    + apply BlockFacts.row_poly_cells. intros j Hj. apply elem_of_seq in Hj.
      apply Hcells; lia.
    + apply BlockFacts.row_poly_cells. intros j Hj. apply elem_of_seq in Hj.
      apply Hcells; lia.
  - intros Hn.
    assert (Hseq : seq 0 n = 0 :: seq 1 (n - 1)).
    { destruct n as [|k]; [lia|]. simpl. now rewrite Nat.sub_0_r. }
    split; [|split].
    + intros Hc. rewrite Hg, Hseq.
      rewrite (BlockFacts.build_rows_left_error features fmap ts L R n 0 _
                 (Assembler.IndexError 0 (Assembler.cols L))); [reflexivity|].
      apply (BlockFacts.short_row features fmap ts Hvoc left_coeff L 0 n HL
               (Nat.le_refl _)); [|exact Hc].
      destruct (Assembler.cols L) eqn:E; [now right|left].
      apply (BlockFacts.cols_rows left_coeff L HL). lia.
    + intros HcL HcR. rewrite Hg, Hseq.
      rewrite (BlockFacts.build_rows_right_error features fmap ts L R n 0 _
                 (AssemblerFacts.row_poly left_coeff features 0 (seq 0 n) [])
                 (Assembler.IndexError 0 (Assembler.cols R))); [reflexivity| |].
      * apply (BlockFacts.row_sum_inside features fmap ts Hvoc left_coeff L 0 n HL
                 (Nat.le_refl _)).
        apply List.Forall_forall. intros j Hj. apply in_seq in Hj.
        pose proof (BlockFacts.cols_rows left_coeff L HL). unfold AssemblerFacts.inside. lia.
      * apply (BlockFacts.short_row features fmap ts Hvoc right_coeff R 0 n HR
                 (Nat.le_refl _)); [|exact HcR].
        destruct (Assembler.cols R) eqn:E; [now right|left].
        apply (BlockFacts.cols_rows right_coeff R HR). lia.
    + intros HcL HcR Hr. rewrite Hg.
      set (r := Nat.min (Assembler.rows L) (Assembler.rows R)) in *.
      rewrite (BlockFacts.seq_split 0 n r Hr). simpl.
      enough (Hb : Assembler.build_rows L R fmap ts features n
                     (seq 0 r ++ r :: seq (S r) (n - S r))
                   = inl (Assembler.IndexError r 0)) by now rewrite Hb.
      apply (BlockFacts.build_rows_passes features fmap ts Hvoc left_coeff right_coeff
               L R n _ HL HR (Nat.le_refl _)).
      * apply List.Forall_forall. intros i Hi. apply in_seq in Hi.
        split; apply List.Forall_forall; intros j Hj; apply in_seq in Hj;
          unfold AssemblerFacts.inside; lia.
      * destruct (le_lt_dec (Assembler.rows L) (Assembler.rows R)) as [Hle|Hlt].
        -- apply BlockFacts.build_rows_left_error.
           apply (BlockFacts.missing_row features fmap ts Hvoc left_coeff L r n HL Hn). lia.
        -- apply (BlockFacts.build_rows_right_error features fmap ts L R n r _
                    (AssemblerFacts.row_poly left_coeff features r (seq 0 n) [])).
           ++ apply (BlockFacts.row_sum_inside features fmap ts Hvoc left_coeff L r n HL
                       (Nat.le_refl _)).
              apply List.Forall_forall. intros j Hj. apply in_seq in Hj.
              unfold AssemblerFacts.inside. lia.
           ++ apply (BlockFacts.missing_row features fmap ts Hvoc right_coeff R r n HR Hn).
              lia.
Qed.

Lemma assembly_reads_leading_block_witness :
  (exists eqs token_symbols,
     Assembler.generate_symbolic_equations_both_sides
       ["x0"%string] [[1%Q; 0%Q]; [0%Q; 1%Q]] [[2%Q; 0%Q]; [0%Q; 0%Q]]
     = inr (eqs, token_symbols) /\ length eqs = 1%nat) /\
  Assembler.generate_symbolic_equations_both_sides
    ["x0"; "x1"]%string [[1%Q]] [[2%Q; 0%Q]; [0%Q; 0%Q]]
  = inl (Assembler.IndexError 0 1).
Proof.
  split.
  - destruct (proj1 (assembly_reads_leading_block ["x0"%string] [[1%Q; 0%Q]; [0%Q; 1%Q]]
                       [[2%Q; 0%Q]; [0%Q; 0%Q]] _ _ eq_refl eq_refl))
      as (eqs & ts & Hg & Hlen & _).
    + right. simpl. lia.
    + now exists eqs, ts.
  - apply (proj2 (assembly_reads_leading_block ["x0"; "x1"]%string [[1%Q]]
                    [[2%Q; 0%Q]; [0%Q; 0%Q]] _ _ eq_refl eq_refl)).
    + simpl. lia.
    + simpl. lia.
Defined.



(** ** The rescaler *)

Module RescaleFacts.

Import Sympy DropFacts EvalFacts.

(** *** Python's order on tuples *)

Lemma lex_leb_total a : forall b, lex_leb a b = true \/ lex_leb b a = true.
Proof.
  induction a as [|x a IH]; intros [|y b]; simpl; auto.
  destruct (Nat.lt_trichotomy x y) as [H|[H|H]].
  - left. apply orb_true_iff. left. now apply Nat.ltb_lt.
  - subst y. rewrite Nat.ltb_irrefl, Nat.eqb_refl. simpl. apply IH.
  - right. apply orb_true_iff. left. now apply Nat.ltb_lt.
Qed.

Lemma lex_leb_trans a : forall b c,
  lex_leb a b = true -> lex_leb b c = true -> lex_leb a c = true.
Proof.
  induction a as [|x a IH]; intros [|y b] [|z c]; simpl; auto; try discriminate.
  rewrite !orb_true_iff, !andb_true_iff, !Nat.ltb_lt, !Nat.eqb_eq.
  intros [H1|[H1 H1']] [H2|[H2 H2']]; try (left; lia).
  right. split; [lia|]. eapply IH; eauto.
Qed.

Global Instance lex_le_total : Total lex_le.
Proof. intros a b. apply lex_leb_total. Qed.

Global Instance lex_le_trans : Transitive lex_le.
Proof. intros a b c. apply lex_leb_trans. Qed.





(** *** The coefficient that is chosen *)

Local Open Scope Q_scope.


(** *** The power product of a tuple has that tuple *)




(** *** Expressions as the engine holds them *)

(** Evaluating the quotient of an expression again changes nothing. *)
Definition evaluated (e : expr) : Prop :=
  match e with
  | Frac n d => div n d = Frac n d
  | Zoo => True
  end.



End RescaleFacts.

(** * Further properties of the code *)

(** ** The tokenizer: the shape of tokens, and concatenation inverted *)

Module TokenizerFacts.
Import Tokenizer.

(** A variable is one letter followed by digits; a token is a variable, or
    a variable followed by one of the two derivative suffixes. *)
Definition variable (b : str) : Prop :=
  exists c ds, b = c :: ds /\ is_letter c = true /\ forallb is_digit ds = true.

Definition deriv_suffix (d : str) : Prop := d = of_string "_dot" \/ d = of_string "_t".

Inductive token : str -> Prop :=
| token_plain b : variable b -> token b
| token_deriv b d : variable b -> deriv_suffix d -> token (b ++ d).

(** Where a run of digits stops: at the end, or at a character that is not
    a digit. *)
Definition stops (rest : str) : Prop :=
  match rest with
  | [] => True
  | c :: _ => is_digit c = false
  end.

Lemma letter_not_digit c : is_letter c = true -> is_digit c = false.
Proof.
  unfold is_letter, is_digit. intros H.
  apply andb_false_iff. rewrite !Nat.leb_gt.
  apply orb_true_iff in H. rewrite !andb_true_iff, !Nat.leb_le in H. lia.
Qed.

Lemma span_digits_run ds rest :
  forallb is_digit ds = true -> stops rest -> span_digits (ds ++ rest) = (ds, rest).
Proof.
  intros Hd Hr. induction ds as [|c ds IH]; simpl in *.
  - destruct rest as [|c r]; [reflexivity|]. simpl in *. now rewrite Hr.
  - apply andb_true_iff in Hd. destruct Hd as [Hc Hd]. now rewrite Hc, IH.
Qed.

Lemma span_digits_digits s : forallb is_digit (fst (span_digits s)) = true.
Proof.
  induction s as [|c r IH]; simpl; [reflexivity|].
  destruct (is_digit c) eqn:E; [|reflexivity].
  destruct (span_digits r); simpl in *. now rewrite E.
Qed.

Lemma match_suffix_suffix s d rest : match_suffix s = Some (d, rest) -> deriv_suffix d.
Proof.
  unfold match_suffix, deriv_suffix. intros H.
  repeat (match type of H with
          | match ?x with _ => _ end = _ => destruct x; try discriminate
          | (if ?b then _ else _) = _ => destruct b; try discriminate
          end);
    inversion H; subst; auto.
Qed.

Lemma match_suffix_of d rest : deriv_suffix d -> match_suffix (d ++ rest) = Some (d, rest).
Proof. intros [-> | ->]; reflexivity. Qed.

Lemma suffix_stops d rest : deriv_suffix d -> stops (d ++ rest).
Proof. intros [-> | ->]; reflexivity. Qed.

Lemma variable_stops b rest : variable b -> stops (b ++ rest).
Proof. intros (c & ds & -> & Hc & _). simpl. now apply letter_not_digit. Qed.

Lemma match_suffix_letter c r : is_letter c = true -> match_suffix (c :: r) = None.
Proof.
  intros H. unfold match_suffix.
  destruct c as [[] [] [] [] [] [] [] []]; try reflexivity; discriminate H.
Qed.

(** *** The two scanners on a string that starts with a token *)

Lemma findall_var_cons c r :
  is_letter c = true ->
  findall_var (c :: r) = (c :: fst (span_digits r)) :: findall_var (snd (span_digits r)).
Proof. intros H. simp findall_var. rewrite H. reflexivity. Qed.

Lemma findall_var_skip c r : is_letter c = false -> findall_var (c :: r) = findall_var r.
Proof. intros H. simp findall_var. rewrite H. reflexivity. Qed.

Lemma finditer_deriv_none pos c r :
  match_deriv (c :: r) = None -> finditer_deriv pos (c :: r) = finditer_deriv (S pos) r.
Proof. intros H. funelim (finditer_deriv pos (c :: r)); congruence. Qed.

Lemma finditer_deriv_some pos c r b d rest :
  match_deriv (c :: r) = Some (b, d, rest) ->
  finditer_deriv pos (c :: r) =
    {| m_start := pos; m_end := pos + length b + length d; m_base := b; m_deriv := d |}
    :: finditer_deriv (pos + length b + length d) rest.
Proof. intros H. funelim (finditer_deriv pos (c :: r)); congruence. Qed.

(** Where the next token may start: at the end, or at a letter. *)
Definition begins (rest : str) : Prop :=
  match rest with
  | [] => True
  | c :: _ => is_letter c = true
  end.

Lemma begins_stops rest : begins rest -> stops rest.
Proof. destruct rest; simpl; [auto|apply letter_not_digit]. Qed.

Lemma token_begins t rest : token t -> begins (t ++ rest).
Proof.
  intros [b (c & ds & -> & Hc & _)|b d (c & ds & -> & Hc & _) _]; exact Hc.
Qed.

Lemma tokens_begin toks : Forall token toks -> begins (concat toks).
Proof. intros [|t ts Ht _]; simpl; [exact I|now apply token_begins]. Qed.

Lemma variable_token b : variable b -> token b.
Proof. apply token_plain. Qed.

Lemma findall_var_variable b rest :
  variable b -> stops rest -> findall_var (b ++ rest) = b :: findall_var rest.
Proof.
  intros (c & ds & -> & Hc & Hd) Hr. simpl.
  rewrite findall_var_cons by exact Hc. now rewrite span_digits_run.
Qed.

Lemma findall_var_variables toks : Forall variable toks -> findall_var (concat toks) = toks.
Proof.
  induction 1 as [|b toks Hb Ht IH]; simpl; [now simp findall_var|].
  rewrite findall_var_variable, IH; [reflexivity|exact Hb|].
  apply begins_stops, tokens_begin. eapply List.Forall_impl; [|exact Ht].
  apply variable_token.
Qed.

Lemma findall_var_are_variables s : Forall variable (findall_var s).
Proof.
  funelim (findall_var s).
  - constructor.
  - constructor; [|exact H]. exists c, (fst (span_digits r)).
    split; [reflexivity|]. split; [exact Heq|apply span_digits_digits].
  - exact H.
Qed.

Lemma finditer_deriv_digits ds rest pos :
  forallb is_digit ds = true ->
  finditer_deriv pos (ds ++ rest) = finditer_deriv (pos + length ds) rest.
Proof.
  revert pos. induction ds as [|c ds IH]; intros pos Hd; simpl in *.
  - now rewrite Nat.add_0_r.
  - apply andb_true_iff in Hd. destruct Hd as [Hc Hd].
    rewrite finditer_deriv_none.
    + rewrite IH by exact Hd. f_equal. lia.
    + simpl. destruct (is_letter c) eqn:E; [|reflexivity].
      apply letter_not_digit in E. congruence.
Qed.

Lemma finditer_deriv_variable b rest pos :
  variable b -> begins rest ->
  finditer_deriv pos (b ++ rest) = finditer_deriv (pos + length b) rest.
Proof.
  intros (c & ds & -> & Hc & Hd) Hr. simpl.
  rewrite finditer_deriv_none.
  - rewrite finditer_deriv_digits by exact Hd. f_equal. lia.
  - simpl. rewrite Hc, span_digits_run by (try apply begins_stops; assumption).
    simpl. destruct rest as [|c' r]; [reflexivity|].
    now rewrite match_suffix_letter.
Qed.

Lemma finditer_deriv_token b d rest pos :
  variable b -> deriv_suffix d ->
  finditer_deriv pos (b ++ d ++ rest) =
    {| m_start := pos; m_end := pos + length b + length d; m_base := b; m_deriv := d |}
    :: finditer_deriv (pos + length b + length d) rest.
Proof.
  intros (c & ds & -> & Hc & Hd) Hs. simpl app.
  apply finditer_deriv_some. simpl.
  rewrite Hc, span_digits_run by (try apply suffix_stops; assumption).
  simpl. now rewrite match_suffix_of.
Qed.

Lemma finditer_deriv_are_tokens pos s :
  Forall (fun m => variable (m_base m) /\ deriv_suffix (m_deriv m)) (finditer_deriv pos s).
Proof.
  funelim (finditer_deriv pos s).
  - constructor.
  - constructor; [|exact H]. clear H H0 Heqcall. simpl in *.
    destruct (is_letter c) eqn:Hc; [|discriminate].
    destruct (match_suffix _) as [[suf r']|] eqn:E; [|discriminate].
    inversion e; subst; clear e. split.
    + exists c, (fst (span_digits r)).
      split; [reflexivity|]. split; [exact Hc|apply span_digits_digits].
    + eapply match_suffix_suffix, E.
  - exact H.
Qed.

(** *** Reading on in the feature string *)

Lemma advance (feature : str) pos t rest :
  skipn pos feature = t ++ rest -> pos <= length feature ->
  skipn (pos + length t) feature = rest /\ pos + length t <= length feature.
Proof.
  intros Hs Hp.
  assert (L : length (skipn pos feature) = length (t ++ rest)) by now rewrite Hs.
  rewrite length_skipn, length_app in L. split; [|lia].
  rewrite Nat.add_comm, <- skipn_skipn, Hs.
  now rewrite skipn_app, skipn_all, Nat.sub_diag.
Qed.

Lemma slice_extend (feature : str) last pos pre t rest :
  last <= pos -> pos <= length feature ->
  slice feature last pos = pre -> skipn pos feature = t ++ rest ->
  slice feature last (pos + length t) = pre ++ t.
Proof.
  intros Hl Hp Hpre Hs.
  assert (L : length (slice feature last pos) = pos - last).
  { unfold slice. rewrite length_firstn, length_skipn. lia. }
  unfold slice. rewrite (skipn_slice feature last pos Hl Hp), Hpre, Hs.
  rewrite Hpre in L.
  replace (pos + length t - last) with (length (pre ++ t)) by (rewrite length_app; lia).
  rewrite app_assoc. now rewrite firstn_app, firstn_all, Nat.sub_diag, app_nil_r.
Qed.

(** The loop over the derivative matches on a string of tokens: [pend] are
    the plain variables read since the last derivative token. *)
Lemma parse_loop_tokens toks :
  Forall token toks ->
  forall feature pos last tokens pend,
    skipn pos feature = concat toks -> last <= pos -> pos <= length feature ->
    slice feature last pos = concat pend -> Forall variable pend ->
    fst (parse_loop feature (finditer_deriv pos (concat toks)) tokens last)
      ++ findall_var
           (skipn (snd (parse_loop feature (finditer_deriv pos (concat toks)) tokens last))
                  feature)
    = tokens ++ pend ++ toks.
Proof.
  induction 1 as [|t toks Ht Hts IH]; intros feature pos last tokens pend Hs Hl Hp Hpre Hv.
  - simpl concat in *. simp finditer_deriv. simpl.
    rewrite (skipn_slice feature last pos Hl Hp), Hpre, Hs, !app_nil_r.
    now rewrite findall_var_variables.
  - simpl concat in *. pose proof (tokens_begin toks Hts) as Hb.
    destruct Ht as [b Hvar|b d Hvar Hsuf].
    + rewrite finditer_deriv_variable by assumption.
      destruct (advance feature pos b (concat toks) Hs Hp) as [Hs' Hp'].
      rewrite (IH feature (pos + length b) last tokens (pend ++ [b])); try assumption.
      * now rewrite <- !app_assoc.
      * lia.
      * rewrite concat_app. simpl. rewrite app_nil_r.
        now apply slice_extend with (rest := concat toks).
      * apply Forall_app. split; [exact Hv|]. now constructor.
    + rewrite <- app_assoc in *. rewrite finditer_deriv_token by assumption.
      rewrite app_assoc in Hs.
      destruct (advance feature pos (b ++ d) (concat toks) Hs Hp) as [Hs' Hp'].
      rewrite length_app, Nat.add_assoc in Hs', Hp'.
      simpl parse_loop. rewrite Hpre.
      set (tokens1 := match concat pend with [] => tokens | _ :: _ => tokens ++ findall_var (concat pend) end).
      assert (E : tokens1 = tokens ++ pend).
      { rewrite <- (findall_var_variables pend Hv). unfold tokens1.
        destruct (concat pend); [simp findall_var; now rewrite app_nil_r|reflexivity]. }
      rewrite (IH feature _ _ (tokens1 ++ [b ++ d]) []); try assumption.
      * rewrite E. simpl. now rewrite <- !app_assoc.
      * lia.
      * unfold slice. now rewrite Nat.sub_diag.
      * constructor.
Qed.

Lemma parse_loop_are_tokens feature ms : forall tokens last,
  Forall (fun m => variable (m_base m) /\ deriv_suffix (m_deriv m)) ms ->
  Forall token tokens ->
  Forall token (fst (parse_loop feature ms tokens last)).
Proof.
  induction ms as [|m ms IH]; intros tokens last Hm Ht; simpl; [exact Ht|].
  inversion Hm as [|? ? [Hb Hd] Hms]; subst.
  apply IH; [exact Hms|].
  apply Forall_app. split; [|constructor; [now apply token_deriv|constructor]].
  destruct (slice feature last (m_start m)); [exact Ht|].
  apply Forall_app. split; [exact Ht|].
  eapply List.Forall_impl; [apply variable_token|apply findall_var_are_variables].
Qed.

Lemma no_letter_findall s : forallb (fun c => negb (is_letter c)) s = true -> findall_var s = [].
Proof.
  induction s as [|c r IH]; simpl; intros H; [now simp findall_var|].
  apply andb_true_iff in H. destruct H as [Hc Hr].
  rewrite findall_var_skip by now apply negb_true_iff. now apply IH.
Qed.

Lemma no_letter_finditer s : forall pos,
  forallb (fun c => negb (is_letter c)) s = true -> finditer_deriv pos s = [].
Proof.
  induction s as [|c r IH]; simpl; intros pos H; [now simp finditer_deriv|].
  apply andb_true_iff in H. destruct H as [Hc Hr].
  rewrite finditer_deriv_none; [now apply IH|].
  simpl. apply negb_true_iff in Hc. now rewrite Hc.
Qed.

End TokenizerFacts.

(** X1: the tokenizer inverts concatenation.  On the concatenation of any
    list of tokens, each a letter followed by digits and possibly by [_dot]
    or [_t], [parse_feature] returns that list. *)
Theorem parse_feature_inverts_concatenation (toks : list Tokenizer.str) :
  Forall TokenizerFacts.token toks ->
  Tokenizer.parse_feature (concat toks) = toks.
Proof.
  intros H. unfold Tokenizer.parse_feature.
  pose proof (TokenizerFacts.parse_loop_tokens toks H (concat toks) 0 0 [] []
                eq_refl (Nat.le_refl _) (Nat.le_0_l _) eq_refl (List.Forall_nil _)) as E.
  simpl in E.
  destruct (Tokenizer.finditer_deriv 0 (concat toks)) as [|m ms] eqn:Em; [exact E|].
  destruct (Tokenizer.parse_loop (concat toks) (m :: ms) [] 0) as [tokens last].
  simpl in E. destruct (last <? length (concat toks)) eqn:El; [exact E|].
  apply Nat.ltb_ge in El. rewrite skipn_all2 in E by exact El.
  simp findall_var in E. now rewrite app_nil_r in E.
Qed.

Lemma parse_feature_inverts_concatenation_witness :
  Tokenizer.parse_feature (Tokenizer.of_string "x0x1x2_dot")
  = [Tokenizer.of_string "x0"; Tokenizer.of_string "x1"; Tokenizer.of_string "x2_dot"].
Proof.
  apply (parse_feature_inverts_concatenation
           [Tokenizer.of_string "x0"; Tokenizer.of_string "x1";
            Tokenizer.of_string "x2_dot"]).
  apply List.Forall_cons; [|apply List.Forall_cons; [|apply List.Forall_cons; [|constructor]]].
  - apply TokenizerFacts.token_plain. exists "x"%char, [ "0"%char ]. repeat split.
  - apply TokenizerFacts.token_plain. exists "x"%char, [ "1"%char ]. repeat split.
  - apply (TokenizerFacts.token_deriv (Tokenizer.of_string "x2") (Tokenizer.of_string "_dot")).
    + exists "x"%char, [ "2"%char ]. repeat split.
    + now left.
Defined.

(** X2: every string [parse_feature] returns is a token: a letter followed
    by digits, possibly followed by [_dot] or [_t]. *)
Theorem parse_feature_returns_tokens (feature : Tokenizer.str) :
  Forall TokenizerFacts.token (Tokenizer.parse_feature feature).
Proof.
  unfold Tokenizer.parse_feature.
  pose proof (TokenizerFacts.findall_var_are_variables) as Hv.
  assert (Hf : forall s, Forall TokenizerFacts.token (Tokenizer.findall_var s)).
  { intros s. eapply List.Forall_impl; [apply TokenizerFacts.variable_token|apply Hv]. }
  destruct (Tokenizer.finditer_deriv 0 feature) as [|m ms] eqn:Em; [apply Hf|].
  pose proof (TokenizerFacts.parse_loop_are_tokens feature (m :: ms) [] 0) as Hl.
  rewrite <- Em in Hl at 1.
  specialize (Hl (TokenizerFacts.finditer_deriv_are_tokens 0 feature) (List.Forall_nil _)).
  destruct (Tokenizer.parse_loop feature (m :: ms) [] 0) as [tokens last].
  simpl in Hl. destruct (last <? length feature); [|exact Hl].
  apply Forall_app. split; [exact Hl|apply Hf].
Qed.

(** X3: a feature name without a letter, such as the constant feature [1],
    has no tokens, and [consolidate_product] turns it into the empty product
    whatever the symbol table holds. *)
Theorem features_without_letters_are_empty_products (name : string)
    (token_symbols : gmap string string) :
  forallb (fun c => negb (Tokenizer.is_letter c)) (Tokenizer.of_string name) = true ->
  Tokenizer.tokenize name = [] /\
  Assembler.consolidate_product (Tokenizer.tokenize name) token_symbols = inr [].
Proof.
  intros H. assert (E : Tokenizer.tokenize name = []).
  { unfold Tokenizer.tokenize, Tokenizer.parse_feature.
    rewrite (TokenizerFacts.no_letter_finditer _ 0 H).
    now rewrite (TokenizerFacts.no_letter_findall _ H). }
  rewrite E. split; reflexivity.
Qed.

Lemma features_without_letters_are_empty_products_witness :
  Tokenizer.tokenize "1" = [] /\
  Assembler.consolidate_product (Tokenizer.tokenize "1") ∅ = inr [].
Proof.
  apply (features_without_letters_are_empty_products "1" ∅). reflexivity.
Defined.

(** ** The vocabulary, the products and the rows *)

Module VocabularyFacts.
Import Sympy Assembler AssemblerFacts.

(** *** The order of names *)

Lemma ascii_compare_trans a b c o :
  Ascii.compare a b = o -> Ascii.compare b c = o -> Ascii.compare a c = o.
Proof.
  unfold Ascii.compare. intros H1 H2. destruct o.
  - apply N.compare_eq_iff in H1, H2. apply N.compare_eq_iff. congruence.
  - rewrite N.compare_lt_iff in *. lia.
  - rewrite N.compare_gt_iff in *. lia.
Qed.

Lemma ascii_compare_eq a b : Ascii.compare a b = Datatypes.Eq -> a = b.
Proof.
  unfold Ascii.compare. intros H. apply N.compare_eq_iff in H.
  rewrite <- (ascii_N_embedding a), <- (ascii_N_embedding b). now rewrite H.
Qed.

Lemma string_compare_lt_trans a : forall b c,
  String.compare a b = Lt -> String.compare b c = Lt -> String.compare a c = Lt.
Proof.
  induction a as [|x a IH]; intros [|y b] [|z c]; simpl; try congruence.
  destruct (Ascii.compare x y) eqn:Exy; try discriminate;
    destruct (Ascii.compare y z) eqn:Eyz; try discriminate; intros H1 H2.
  - apply ascii_compare_eq in Exy, Eyz. subst.
    assert (E : Ascii.compare z z = Datatypes.Eq)
      by (unfold Ascii.compare; apply N.compare_refl).
    rewrite E. eauto.
  - apply ascii_compare_eq in Exy. subst. now rewrite Eyz.
  - apply ascii_compare_eq in Eyz. subst. now rewrite Exy.
  - now rewrite (ascii_compare_trans x y z Lt).
Qed.

Lemma string_compare_refl a : String.compare a a = Datatypes.Eq.
Proof.
  induction a as [|x a IH]; simpl; [reflexivity|].
  unfold Ascii.compare. now rewrite N.compare_refl.
Qed.

Global Instance name_le_trans : Transitive name_le.
Proof.
  intros a b c. unfold name_le, String.leb. intros H1 H2.
  destruct (String.compare a b) eqn:Eab; try discriminate;
    destruct (String.compare b c) eqn:Ebc; try discriminate.
  - apply String.compare_eq_iff in Eab, Ebc. subst. now rewrite string_compare_refl.
  - apply String.compare_eq_iff in Eab. subst. now rewrite Ebc.
  - apply String.compare_eq_iff in Ebc. subst. now rewrite Eab.
  - now rewrite (string_compare_lt_trans a b c).
Qed.

Global Instance name_le_total : Total name_le.
Proof. intros a b. apply String.leb_total. Qed.

(** *** The loop of [extract_distinct_features] *)

Lemma extract_fold_spec (fs : list string) : forall st,
  (forall t, t ∈ fst (fold_left extract_step fs st) <->
             t ∈ fst st \/ exists f, f ∈ fs /\ t ∈ Tokenizer.tokenize f) /\
  (forall f, snd (fold_left extract_step fs st) !! f =
             if decide (f ∈ fs) then Some (Tokenizer.tokenize f) else snd st !! f).
Proof.
  induction fs as [|g fs IH]; intros st; simpl.
  - split; [intros t; split; [auto|] | intros f].
    + intros [H|(f & Hf & _)]; [exact H|]. now apply elem_of_nil in Hf.
    + destruct (decide (f ∈ [])) as [H|_]; [now apply elem_of_nil in H|reflexivity].
  - destruct (IH (extract_step st g)) as [IH1 IH2]. split.
    + intros t. rewrite IH1. unfold extract_step at 1. simpl.
      rewrite elem_of_union, elem_of_list_to_set. split.
      * intros [[H|H]|(f & Hf & Ht)]; [now left | right | right].
        -- exists g. split; [left|exact H].
        -- exists f. split; [now right|exact Ht].
      * intros [H|(f & Hf & Ht)]; [now left; left|].
        apply elem_of_cons in Hf. destruct Hf as [->|Hf]; [now left; right|].
        right. now exists f.
    + intros f. rewrite IH2. unfold extract_step. simpl.
      destruct (decide (f ∈ fs)) as [Hf|Hf].
      * rewrite decide_True by now right. reflexivity.
      * destruct (decide (f = g)) as [->|Hne].
        -- rewrite decide_True by left. now rewrite lookup_insert_eq.
        -- rewrite decide_False by (rewrite elem_of_cons; tauto).
           now rewrite lookup_insert_ne.
Qed.

Lemma vocabulary_spec fs t :
  t ∈ fst (extract_distinct_features fs) <-> exists f, f ∈ fs /\ t ∈ Tokenizer.tokenize f.
Proof.
  unfold extract_distinct_features. simpl.
  rewrite merge_sort_Permutation, elem_of_elements.
  destruct (extract_fold_spec fs (∅, ∅)) as [H _]. rewrite H. simpl.
  split; [intros [E|E]; [set_solver|exact E] | now right].
Qed.

Lemma feature_map_spec fs f :
  snd (extract_distinct_features fs) !! f =
  if decide (f ∈ fs) then Some (Tokenizer.tokenize f) else None.
Proof.
  unfold extract_distinct_features. simpl.
  destruct (extract_fold_spec fs (∅, ∅)) as [_ H]. rewrite H. simpl.
  now rewrite lookup_empty.
Qed.

(** *** The counting pass of [consolidate_product] *)

(** The distinct elements of a list, each at its first occurrence. *)
Fixpoint first_occurrences (l : list string) : list string :=
  match l with
  | [] => []
  | x :: l' => x :: List.filter (fun y => negb (String.eqb x y)) (first_occurrences l')
  end.

(** The number of occurrences of a token. *)
Definition occurrences (l : list string) (t : string) : nat :=
  length (List.filter (String.eqb t) l).

Lemma filter_filter_ext {A} (f g h : A -> bool) l :
  (forall x, h x = f x && g x) -> List.filter f (List.filter g l) = List.filter h l.
Proof.
  intros E. induction l as [|x l IH]; simpl; [reflexivity|].
  rewrite E. destruct (g x); simpl.
  - destruct (f x); simpl; now rewrite IH.
  - rewrite andb_false_r. exact IH.
Qed.

Lemma filter_all {A} (f : A -> bool) l : (forall x, f x = true) -> List.filter f l = l.
Proof.
  intros H. induction l as [|x l IH]; simpl; [reflexivity|]. now rewrite H, IH.
Qed.

Lemma first_occurrences_app l1 : forall l2,
  first_occurrences (l1 ++ l2) =
  first_occurrences l1 ++ List.filter (fun y => bool_decide (y ∉ l1)) (first_occurrences l2).
Proof.
  induction l1 as [|x l1 IH]; intros l2; simpl.
  - symmetry. now apply filter_all.
  - f_equal. rewrite IH, List.filter_app. f_equal.
    apply filter_filter_ext. intros y.
    destruct (String.eqb_spec x y) as [->|Hne]; simpl.
    + apply bool_decide_eq_false. intros H. apply H. left.
    + apply bool_decide_ext. rewrite not_elem_of_cons. split; [tauto|].
      intros H. split; [congruence|exact H].
Qed.

Lemma first_occurrences_elem l t : t ∈ first_occurrences l <-> t ∈ l.
Proof.
  induction l as [|x l IH]; simpl; [reflexivity|].
  rewrite !elem_of_cons, <- IH, list_elem_of_In, List.filter_In, <- list_elem_of_In.
  destruct (String.eqb_spec x t) as [->|Hne]; simpl; [tauto|].
  split; [tauto|]. intros [->|H]; [tauto|]. right. now split.
Qed.

Lemma first_occurrences_NoDup l : NoDup (first_occurrences l).
Proof.
  induction l as [|x l IH]; simpl; [constructor|].
  constructor.
  - rewrite list_elem_of_In, List.filter_In. intros [_ H].
    now rewrite String.eqb_refl in H.
  - apply NoDup_ListNoDup, List.NoDup_filter, NoDup_ListNoDup, IH.
Qed.

Lemma occurrences_snoc l t k :
  occurrences (l ++ [t]) k = if String.eqb k t then S (occurrences l k) else occurrences l k.
Proof.
  unfold occurrences. rewrite List.filter_app, length_app. simpl.
  destruct (String.eqb k t); simpl; lia.
Qed.

Lemma occurrences_notin l t : t ∉ l -> occurrences l t = 0.
Proof.
  intros H. unfold occurrences. induction l as [|x l IH]; simpl; [reflexivity|].
  apply not_elem_of_cons in H. destruct H as [Hne H].
  destruct (String.eqb_spec t x); [congruence|]. now apply IH.
Qed.

(** One step of the counting pass on a dict with distinct keys. *)
Lemma count_token_map (keys : list string) (c : string -> nat) t :
  NoDup keys ->
  count_token (map (fun k => (k, c k)) keys) t =
  map (fun k => (k, if String.eqb k t then S (c k) else c k)) keys
  ++ (if bool_decide (t ∈ keys) then [] else [(t, 1)]).
Proof.
  induction 1 as [|x keys Hx Hk IH]; simpl; [reflexivity|].
  destruct (String.eqb_spec x t) as [->|Hne].
  - rewrite bool_decide_eq_true_2 by left. rewrite app_nil_r. f_equal.
    apply map_ext_in. intros k Hin.
    destruct (String.eqb_spec k t) as [->|_]; [|reflexivity].
    now apply list_elem_of_In in Hin.
  - rewrite IH. simpl. rewrite (bool_decide_ext (t ∈ x :: keys) (t ∈ keys)); [reflexivity|].
    rewrite elem_of_cons. split; [|tauto]. intros [E|E]; [congruence|exact E].
Qed.

Lemma counting_pass tokens :
  fold_left count_token tokens [] =
  map (fun k => (k, occurrences tokens k)) (first_occurrences tokens).
Proof.
  induction tokens as [|t l IH] using rev_ind; [reflexivity|].
  rewrite fold_left_app, IH. simpl.
  rewrite count_token_map by apply first_occurrences_NoDup.
  rewrite first_occurrences_app, map_app. f_equal.
  - apply map_ext. intros k. now rewrite occurrences_snoc.
  - simpl. destruct (decide (t ∈ l)) as [Hin|Hout].
    + rewrite bool_decide_eq_true_2 by now apply first_occurrences_elem.
      now rewrite bool_decide_eq_false_2 by tauto.
    + rewrite bool_decide_eq_false_2 by now rewrite first_occurrences_elem.
      rewrite bool_decide_eq_true_2 by exact Hout. simpl.
      rewrite occurrences_snoc, String.eqb_refl. now rewrite occurrences_notin.
Qed.

(** *** The lookup pass of [consolidate_product] *)

Lemma powers_found (token_symbols : gmap string string) counts :
  (forall k, k ∈ map fst counts -> is_Some (token_symbols !! k)) ->
  exists f, powers token_symbols counts = inr f /\
            Forall2 (fun kc sc => token_symbols !! fst kc = Some (fst sc) /\ snd sc = snd kc)
                    counts f.
Proof.
  induction counts as [|[k c] counts IH]; intros H; simpl.
  - exists []. split; [reflexivity|constructor].
  - destruct (H k) as [s Hs]; [left|].
    destruct IH as (f & Hf & HF); [intros k' Hk'; apply H; now right|].
    exists ((s, c) :: f). unfold getitem. rewrite Hs. simpl. rewrite Hf. simpl.
    split; [reflexivity|]. constructor; [now split|exact HF].
Qed.

Lemma powers_missing (token_symbols : gmap string string) c1 k n c2 :
  (forall x, x ∈ map fst c1 -> is_Some (token_symbols !! x)) ->
  token_symbols !! k = None ->
  powers token_symbols (c1 ++ (k, n) :: c2) = inl (KeyError k).
Proof.
  induction c1 as [|[x c] c1 IH]; intros H Hk; simpl.
  - unfold getitem. now rewrite Hk.
  - destruct (H x) as [s Hs]; [left|].
    unfold getitem. rewrite Hs. simpl. rewrite IH; [reflexivity| |exact Hk].
    intros y Hy. apply H. now right.
Qed.

End VocabularyFacts.

(** X4: [extract_distinct_features] returns the vocabulary sorted by name
    and without repetition; it holds exactly the tokens of the features; and
    the feature map sends each feature name, and nothing else, to its
    tokens. *)
Theorem vocabulary_sorted_and_exact (feature_names : list string) :
  let '(unique_tokens, feature_map) := Assembler.extract_distinct_features feature_names in
  StronglySorted Sympy.name_le unique_tokens /\
  NoDup unique_tokens /\
  (forall t, t ∈ unique_tokens <->
             exists f, f ∈ feature_names /\ t ∈ Tokenizer.tokenize f) /\
  (forall f, feature_map !! f =
             if decide (f ∈ feature_names) then Some (Tokenizer.tokenize f) else None).
Proof.
  destruct (Assembler.extract_distinct_features feature_names) as [u m] eqn:E.
  pose proof (VocabularyFacts.vocabulary_spec feature_names) as Hv.
  pose proof (VocabularyFacts.feature_map_spec feature_names) as Hm.
  rewrite E in Hv, Hm. simpl in Hv, Hm.
  split; [|split; [|split; [exact Hv|exact Hm]]].
  - unfold Assembler.extract_distinct_features in E. inversion E; subst.
    apply StronglySorted_merge_sort; apply _.
  - unfold Assembler.extract_distinct_features in E. inversion E; subst.
    rewrite merge_sort_Permutation. apply NoDup_elements.
Qed.

(** X5: the vocabulary and the feature map depend only on which feature
    names occur, not on their order or on how often they occur. *)
Theorem vocabulary_ignores_order_and_repetition (fs fs' : list string) :
  (forall f, f ∈ fs <-> f ∈ fs') ->
  Assembler.extract_distinct_features fs = Assembler.extract_distinct_features fs'.
Proof.
  intros H.
  destruct (VocabularyFacts.extract_fold_spec fs (∅, ∅)) as [H1 H2].
  destruct (VocabularyFacts.extract_fold_spec fs' (∅, ∅)) as [H1' H2'].
  unfold Assembler.extract_distinct_features.
  assert (E1 : fst (fold_left Assembler.extract_step fs (∅, ∅))
               = fst (fold_left Assembler.extract_step fs' (∅, ∅))).
  { apply set_eq. intros t. rewrite H1, H1'. simpl.
    split; intros [E|(f & Hf & Ht)]; try (now left); right; exists f;
      (split; [now apply H|exact Ht]). }
  assert (E2 : snd (fold_left Assembler.extract_step fs (∅, ∅))
               = snd (fold_left Assembler.extract_step fs' (∅, ∅))).
  { apply map_eq. intros f. rewrite H2, H2'.
    destruct (decide (f ∈ fs)) as [Hf|Hf].
    - now rewrite decide_True by now apply H.
    - now rewrite decide_False by now rewrite <- H. }
  now rewrite E1, E2.
Qed.

Lemma vocabulary_ignores_order_and_repetition_witness :
  Assembler.extract_distinct_features ["x0"; "x0x1_dot"]%string
  = Assembler.extract_distinct_features ["x0x1_dot"; "x0"; "x0x1_dot"]%string.
Proof.
  apply (vocabulary_ignores_order_and_repetition
           ["x0"; "x0x1_dot"]%string ["x0x1_dot"; "x0"; "x0x1_dot"]%string).
  intros f. rewrite !elem_of_cons, !elem_of_nil. tauto.
Defined.

(** X6: when every token has a symbol, [consolidate_product] returns one
    factor for each distinct token, in the order of first occurrence: the
    symbol of the token raised to the number of its occurrences. *)
Theorem consolidate_product_counts_tokens (tokens : list string)
    (token_symbols : gmap string string) :
  (forall t, t ∈ tokens -> is_Some (token_symbols !! t)) ->
  exists f,
    Assembler.consolidate_product tokens token_symbols = inr f /\
    Forall2 (fun t sc => token_symbols !! t = Some (fst sc) /\
                         snd sc = VocabularyFacts.occurrences tokens t)
            (VocabularyFacts.first_occurrences tokens) f.
Proof.
  intros H. unfold Assembler.consolidate_product.
  rewrite VocabularyFacts.counting_pass.
  destruct (VocabularyFacts.powers_found token_symbols
              (map (fun k => (k, VocabularyFacts.occurrences tokens k))
                   (VocabularyFacts.first_occurrences tokens))) as (f & Hf & HF).
  - intros k. rewrite map_map. simpl. rewrite map_id.
    rewrite VocabularyFacts.first_occurrences_elem. apply H.
  - exists f. split; [exact Hf|].
    apply Forall2_fmap_l in HF. exact HF.
Qed.

Lemma consolidate_product_counts_tokens_witness :
  exists f,
    Assembler.consolidate_product ["x0"; "x1_dot"; "x0"]%string
      (list_to_map [("x0", "x0"); ("x1_dot", "x1_dot")]%string) = inr f /\
    Forall2 (fun t sc =>
               (list_to_map [("x0", "x0"); ("x1_dot", "x1_dot")]%string
                  : gmap string string) !! t = Some (fst sc) /\
               snd sc = VocabularyFacts.occurrences ["x0"; "x1_dot"; "x0"]%string t)
            (VocabularyFacts.first_occurrences ["x0"; "x1_dot"; "x0"]%string) f.
Proof.
  apply (consolidate_product_counts_tokens ["x0"; "x1_dot"; "x0"]%string).
  intros t Ht. rewrite !elem_of_cons, elem_of_nil in Ht.
  destruct Ht as [->|[->|[->|[]]]]; eexists; reflexivity.
Defined.

(** X7: [consolidate_product] raises [KeyError] with the first token that
    has no symbol. *)
Theorem consolidate_product_missing_symbol (tokens pre post : list string) (k : string)
    (token_symbols : gmap string string) :
  tokens = pre ++ k :: post ->
  (forall t, t ∈ pre -> is_Some (token_symbols !! t)) ->
  token_symbols !! k = None ->
  Assembler.consolidate_product tokens token_symbols = inl (Assembler.KeyError k).
Proof.
  intros -> Hpre Hk. unfold Assembler.consolidate_product.
  rewrite VocabularyFacts.counting_pass, VocabularyFacts.first_occurrences_app.
  assert (Hnot : k ∉ pre).
  { intros Hin. destruct (Hpre k Hin) as [s Hs]. congruence. }
  simpl. rewrite bool_decide_eq_true_2 by exact Hnot.
  rewrite map_app. simpl.
  apply VocabularyFacts.powers_missing; [|exact Hk].
  intros x. rewrite map_map. simpl. rewrite map_id.
  rewrite VocabularyFacts.first_occurrences_elem. apply Hpre.
Qed.

Lemma consolidate_product_missing_symbol_witness :
  Assembler.consolidate_product ["x0"; "x1"; "x2"]%string
    (list_to_map [("x0", "x0")]%string)
  = inl (Assembler.KeyError "x1").
Proof.
  apply (consolidate_product_missing_symbol _ ["x0"%string] ["x2"%string]).
  - reflexivity.
  - intros t Ht. apply list_elem_of_singleton in Ht. subst. eexists. reflexivity.
  - reflexivity.
Defined.

Module RowFacts.
Import Sympy Assembler AssemblerFacts DropFacts.
Local Open Scope Q_scope.

Lemma is_zero_Qeq c c' : c == c' -> is_zero c = is_zero c'.
Proof.
  intros E. unfold is_zero.
  destruct (Qeq_bool c 0) eqn:A, (Qeq_bool c' 0) eqn:B; try reflexivity.
  - apply Qeq_bool_iff in A. rewrite E in A. apply Qeq_bool_iff in A. congruence.
  - apply Qeq_bool_iff in B. rewrite <- E in B. apply Qeq_bool_iff in B. congruence.
Qed.

Lemma add_term_Qeq (p : list (Q * gmultiset string)) c c' m :
  c == c' -> add_term p (c, m) = add_term p (c', m).
Proof.
  intros E. induction p as [|[c0 m0] p IH]; simpl.
  - now rewrite (is_zero_Qeq _ _ E), (Qred_complete _ _ E).
  - destruct (bool_decide (m0 = m)); [|now rewrite IH].
    assert (E' : c0 + c == c0 + c') by now rewrite E.
    now rewrite (is_zero_Qeq _ _ E'), (Qred_complete _ _ E').
Qed.

Lemma row_poly_ext aL aR fs i js : forall acc,
  (forall j, j ∈ js -> coeff aL i j == coeff aR i j) ->
  row_poly aL fs i js acc = row_poly aR fs i js acc.
Proof.
  induction js as [|j js IH]; intros acc H; [reflexivity|].
  change (row_poly aL fs i (j :: js) acc)
    with (row_poly aL fs i js (add_term acc (row_term aL fs i j))).
  change (row_poly aR fs i (j :: js) acc)
    with (row_poly aR fs i js (add_term acc (row_term aR fs i j))).
  assert (E : add_term acc (row_term aL fs i j) = add_term acc (row_term aR fs i j)).
  { apply add_term_Qeq, H. left. }
  rewrite E. apply IH. intros j' Hj'. apply H. now right.
Qed.

Lemma add_term_cancel (q p : list (Q * gmultiset string)) c m :
  m ∉ map snd q -> add_term (q ++ (c, m) :: p) (Qred (-1 * c), m) = q ++ p.
Proof.
  induction q as [|[c0 m0] q IH]; intros H; simpl.
  - rewrite bool_decide_eq_true_2 by reflexivity.
    assert (E : is_zero (c + Qred (-1 * c)) = true).
    { apply Qeq_bool_iff. rewrite Qred_correct. ring. }
    now rewrite E.
  - simpl in H. apply not_elem_of_cons in H. destruct H as [Hne H].
    rewrite bool_decide_eq_false_2 by congruence. now rewrite IH.
Qed.

Lemma sub_cancels (p : list (Q * gmultiset string)) : forall q,
  NoDup (map snd (q ++ p)) -> fold_left add_term (scale (-1) p) (q ++ p) = q.
Proof.
  induction p as [|[c m] p IH]; intros q H; simpl.
  - apply app_nil_r.
  - rewrite map_app in H. simpl in H.
    apply list.NoDup_app in H. destruct H as (Hq & Hdis & Hp).
    apply list.NoDup_cons in Hp. destruct Hp as [Hm Hp].
    rewrite add_term_cancel.
    + apply IH. rewrite map_app. apply list.NoDup_app. split; [exact Hq|].
      split; [|exact Hp]. intros x Hx Hx'. apply (Hdis x Hx). now right.
    + intros Hin. apply (Hdis m Hin). left.
Qed.

Lemma sub_self (p : list (Q * gmultiset string)) : NoDup (map snd p) -> sub p p = [].
Proof. intros H. apply (sub_cancels p []). exact H. Qed.

Lemma sp_Matrix_rect (a : list (list Q)) c :
  Forall (fun r => length r = c) a -> (a = [] -> c = 0%nat) ->
  sp_Matrix a = inr {| rows := length a; cols := c; flat := concat a |}.
Proof.
  intros H H0. destruct a as [|r a]; simpl.
  - now rewrite H0.
  - inversion H as [|? ? Hr Ha]; subst.
    rewrite Nat.eqb_refl. simpl.
    assert (E : forallb (fun r' => (length r' =? length r)%nat) a = true).
    { apply forallb_forall. intros r' Hin. apply Nat.eqb_eq.
      rewrite List.Forall_forall in Ha. now apply Ha. }
    now rewrite E.
Qed.

Lemma identity_shape fs :
  length (generate_identity_matrix fs) = length fs /\
  Forall (fun r => length r = length fs) (generate_identity_matrix fs).
Proof.
  unfold generate_identity_matrix. split.
  - now rewrite length_map, length_seq.
  - apply List.Forall_forall. intros r Hr. apply in_map_iff in Hr.
    destruct Hr as (i & <- & _). now rewrite length_map, length_seq.
Qed.

End RowFacts.

(** X8: the symbol table [generate_symbolic_equations_both_sides] returns
    maps each token of each feature to the symbol of the same name, and has
    no other key. *)
Theorem token_symbols_are_the_vocabulary (features : list string)
    (left_coeff right_coeff : list (list Q))
    (eq_list : list Assembler.equation) (token_symbols : gmap string string) :
  Assembler.generate_symbolic_equations_both_sides features left_coeff right_coeff
    = inr (eq_list, token_symbols) ->
  forall t s, token_symbols !! t = Some s <->
              s = t /\ exists f, f ∈ features /\ t ∈ Tokenizer.tokenize f.
Proof.
  intros H t s. unfold Assembler.generate_symbolic_equations_both_sides in H.
  pose proof (VocabularyFacts.vocabulary_spec features t) as Hv.
  destruct (Assembler.extract_distinct_features features) as [distinct fmap].
  simpl in Hv.
  destruct (Assembler.sp_Matrix left_coeff) as [e|L]; [discriminate|].
  destruct (Assembler.sp_Matrix right_coeff) as [e|R]; [discriminate|].
  simpl in H.
  destruct (Assembler.build_rows _ _ _ _ _ _ _) as [e|eqs]; [discriminate|].
  simpl in H. inversion H; subst; clear H.
  rewrite <- Hv. split.
  - intros Hl. apply elem_of_list_to_map_2 in Hl.
    apply list_elem_of_fmap in Hl. destruct Hl as (t' & E & Hin).
    inversion E; subst. now split.
  - intros [-> Hin]. now apply AssemblerFacts.identity_map_lookup.
Qed.

Lemma token_symbols_are_the_vocabulary_witness :
  exists eq_list token_symbols,
    Assembler.generate_symbolic_equations_both_sides
      ["x0"; "x0x1_dot"]%string [[1; 0]; [0; 1]]%Q [[0; 0]; [2; 0]]%Q
    = inr (eq_list, token_symbols) /\
    forall t s, token_symbols !! t = Some s <->
                s = t /\ exists f, f ∈ ["x0"; "x0x1_dot"]%string /\ t ∈ Tokenizer.tokenize f.
Proof.
  destruct (Assembler.generate_symbolic_equations_both_sides
              ["x0"; "x0x1_dot"]%string [[1; 0]; [0; 1]]%Q [[0; 0]; [2; 0]]%Q)
    as [e|[eq_list token_symbols]] eqn:Hg.
  - vm_compute in Hg. discriminate Hg.
  - exists eq_list, token_symbols. split; [reflexivity|].
    apply (token_symbols_are_the_vocabulary _ _ _ _ _ Hg).
Defined.

(** X9: [generate_identity_matrix] returns a square array, as long as the
    feature list, with one on the diagonal and zero elsewhere; with it on the
    left and a square array of the same size on the right the assembly
    succeeds and returns one equation for each feature. *)
Theorem identity_on_the_left_is_accepted (features : list string)
    (right_coeff : list (list Q)) :
  length right_coeff = length features ->
  Forall (fun r => length r = length features) right_coeff ->
  let left_coeff := Assembler.generate_identity_matrix features in
  length left_coeff = length features /\
  Forall (fun r => length r = length features) left_coeff /\
  (forall i j, (i < length features)%nat -> (j < length features)%nat ->
     AssemblerFacts.cell left_coeff i j = Some (if (i =? j)%nat then 1%Q else 0%Q)) /\
  exists eq_list token_symbols,
    Assembler.generate_symbolic_equations_both_sides features left_coeff right_coeff
    = inr (eq_list, token_symbols) /\
    length eq_list = length features.
Proof.
  intros Hlen Hrect left_coeff.
  destruct (RowFacts.identity_shape features) as [Hl Hr]. fold left_coeff in Hl, Hr.
  split; [exact Hl|]. split; [exact Hr|].
  split; [intros i j; apply AssemblerFacts.identity_cell|].
  assert (H0 : forall a : list (list Q), length a = length features ->
                 a = [] -> length features = 0%nat).
  { intros a Ha ->. now rewrite <- Ha. }
  pose proof (RowFacts.sp_Matrix_rect left_coeff _ Hr (H0 _ Hl)) as HL.
  pose proof (RowFacts.sp_Matrix_rect right_coeff _ Hrect (H0 _ Hlen)) as HR.
  destruct (AssemblerFacts.generate_spec features left_coeff right_coeff _ _ HL HR)
    as [[_ (ts & Hg)]|[Hex _]].
  - eexists _, ts. split; [exact Hg|]. now rewrite length_map, length_seq.
  - exfalso. apply List.Exists_exists in Hex. destruct Hex as (i & Hi & Hout).
    apply Hout.
    assert (Hall : Forall (AssemblerFacts.row_inside
                     {| Assembler.rows := length left_coeff;
                        Assembler.cols := length features;
                        Assembler.flat := concat left_coeff |}
                     {| Assembler.rows := length right_coeff;
                        Assembler.cols := length features;
                        Assembler.flat := concat right_coeff |}
                     (length features)) (seq 0 (length features))).
    { apply AssemblerFacts.all_rows_inside. right. simpl. lia. }
    rewrite List.Forall_forall in Hall. now apply Hall.
Qed.

Lemma identity_on_the_left_is_accepted_witness :
  exists eq_list token_symbols,
    Assembler.generate_symbolic_equations_both_sides
      ["x0"; "x0_dot"]%string
      (Assembler.generate_identity_matrix ["x0"; "x0_dot"]%string)
      [[0; 0]; [2; 0]]%Q
    = inr (eq_list, token_symbols) /\
    length eq_list = 2%nat.
Proof.
  apply (identity_on_the_left_is_accepted ["x0"; "x0_dot"]%string [[0; 0]; [2; 0]]%Q).
  - reflexivity.
  - repeat constructor.
Defined.

(** X10: a row in which the left and right coefficients agree column by
    column, an all-zero row for instance, is assembled as the truth value
    [True] and not as an equation. *)
Theorem coinciding_rows_assemble_to_true (features : list string)
    (left_coeff right_coeff : list (list Q))
    (eq_list : list Assembler.equation) (token_symbols : gmap string string) (i : nat) :
  Assembler.generate_symbolic_equations_both_sides features left_coeff right_coeff
    = inr (eq_list, token_symbols) ->
  (i < length features)%nat ->
  (forall j, (j < length features)%nat ->
     (AssemblerFacts.coeff left_coeff i j == AssemblerFacts.coeff right_coeff i j)%Q) ->
  eq_list !! i = Some Assembler.BooleanTrue.
Proof.
  intros Hg Hi Hrow.
  destruct (Assembler.sp_Matrix left_coeff) as [e|L] eqn:HL.
  { unfold Assembler.generate_symbolic_equations_both_sides in Hg.
    destruct (Assembler.extract_distinct_features features).
    rewrite HL in Hg. discriminate. }
  destruct (Assembler.sp_Matrix right_coeff) as [e|R] eqn:HR.
  { unfold Assembler.generate_symbolic_equations_both_sides in Hg.
    destruct (Assembler.extract_distinct_features features).
    rewrite HL, HR in Hg. discriminate. }
  destruct (AssemblerFacts.generate_spec features left_coeff right_coeff L R HL HR)
    as [[_ (ts & Hg')]|[_ (i' & j' & Hg')]]; rewrite Hg in Hg'; [|discriminate].
  inversion Hg'; subst; clear Hg'.
  rewrite list_lookup_fmap, lookup_seq_lt by exact Hi. simpl.
  unfold AssemblerFacts.row_equation.
  rewrite (RowFacts.row_poly_ext left_coeff right_coeff).
  - rewrite RowFacts.sub_self; [reflexivity|].
    apply (AssemblerFacts.row_poly_wf right_coeff features i).
  - intros j Hj. apply Hrow. apply elem_of_seq in Hj. lia.
Qed.

Lemma coinciding_rows_assemble_to_true_witness :
  exists eq_list token_symbols,
    Assembler.generate_symbolic_equations_both_sides
      ["x0"; "x0_dot"]%string [[1; 0]; [0; 1]]%Q [[1; 0]; [2; 0]]%Q
    = inr (eq_list, token_symbols) /\
    eq_list !! 0%nat = Some Assembler.BooleanTrue.
Proof.
  destruct (Assembler.generate_symbolic_equations_both_sides
              ["x0"; "x0_dot"]%string [[1; 0]; [0; 1]]%Q [[1; 0]; [2; 0]]%Q)
    as [e|[eq_list token_symbols]] eqn:Hg.
  - vm_compute in Hg. discriminate Hg.
  - exists eq_list, token_symbols. split; [reflexivity|].
    apply (coinciding_rows_assemble_to_true _ _ _ _ _ 0%nat Hg).
    + simpl. lia.
    + intros [|[|j]] Hj; simpl in Hj; [reflexivity|reflexivity|lia].
Defined.

(** ** Reformatted feature names *)

Module ReformatFacts.
Import Sympy Assembler AssemblerFacts.

Lemma reformat_ok (str : product -> string) fs0 fmap (token_symbols : gmap string string) :
  vocabulary_ok fs0 fmap token_symbols ->
  forall fs, (forall f, f ∈ fs -> f ∈ fs0) ->
    reformat str fmap token_symbols fs = inr (map (fun f => str (feature_product f)) fs).
Proof.
  intros Hvoc. induction fs as [|f fs IH]; intros Hin; simpl; [reflexivity|].
  destruct (Hvoc f) as [Hf Ht]; [apply Hin; left|].
  unfold getitem. rewrite Hf. simpl.
  rewrite (consolidate_product_ok _ _ Ht). simpl.
  rewrite IH; [reflexivity|]. intros g Hg. apply Hin. now right.
Qed.

End ReformatFacts.

(** X11: [get_reformatted_feature_names] never raises: it returns, for each
    feature name in order, the printed product of the distinct tokens of the
    name, each raised to the number of its occurrences. *)
Theorem get_reformatted_feature_names_never_fails
    (str : Assembler.product -> string) (feature_names : list string) :
  Assembler.get_reformatted_feature_names str feature_names
  = inr (map (fun f =>
                let tokens := Tokenizer.tokenize f in
                str (map (fun t => (t, VocabularyFacts.occurrences tokens t))
                         (VocabularyFacts.first_occurrences tokens)))
             feature_names).
Proof.
  cbv zeta. rewrite (map_ext _ _
    (fun f => eq_sym (f_equal str (VocabularyFacts.counting_pass (Tokenizer.tokenize f))))).
  unfold Assembler.get_reformatted_feature_names.
  pose proof (AssemblerFacts.vocabulary_built feature_names) as Hvoc.
  destruct (Assembler.extract_distinct_features feature_names) as [distinct fmap].
  simpl in Hvoc.
  now apply (ReformatFacts.reformat_ok str feature_names).
Qed.

(** ** Quotients, cleaning and rescaling *)

Module QuotientFacts.
Import Sympy DropFacts EvalFacts RescaleFacts.
Local Open Scope Q_scope.

(** Coefficients in lowest terms. *)
Definition reduced (p : list (Q * gmultiset string)) : Prop :=
  Forall (fun t => Qred (fst t) = fst t) p.

Lemma scale_reduced k p : reduced (scale k p).
Proof.
  apply List.Forall_forall. intros t Ht. apply in_map_iff in Ht.
  destruct Ht as (t0 & <- & _). simpl. apply Qred_complete, Qred_correct.
Qed.

Lemma scale_one_reduced p : reduced p -> scale (/ 1) p = p.
Proof.
  induction 1 as [|[a m] p Ha Hp IH]; simpl; [reflexivity|].
  rewrite IH. simpl in Ha. now rewrite (Qred_fix_div_one a Ha).
Qed.

(** The quotient the engine returns is evaluated: dividing its parts again
    gives it back. *)
Lemma div_evaluated n d : evaluated (div n d).
Proof.
  unfold div. destruct d as [|[c m] [|t2 d']]; [exact I| |].
  - destruct (is_zero c); [exact I|].
    pose proof (scale_reduced (/ c) n) as Hr. unfold div_number.
    destruct (scale (/ c) n) as [|[a mn] [|t n']] eqn:E.
    + reflexivity.
    + inversion Hr as [|? ? Ha _]; subst. simpl in Ha.
      unfold evaluated, div, div_number. cbn [scale map fst snd].
      change (is_zero 1) with false. cbv iota.
      rewrite (Qred_fix_div_one a Ha). f_equal; f_equal; f_equal; multiset_solver.
    + unfold evaluated, div, div_number. change (is_zero 1) with false. cbv iota.
      rewrite (scale_one_reduced _ Hr). reflexivity.
  - destruct n as [|t n]; [reflexivity|]. reflexivity.
Qed.

Lemma expand_rational_expr_evaluated e : evaluated (expand_rational_expr e).
Proof. destruct e as [n d|]; [apply div_evaluated|exact I]. Qed.

Lemma evaluated_fix e : evaluated e -> expand_rational_expr e = e.
Proof. destruct e as [n d|]; [intros H; exact H|reflexivity]. Qed.

(** *** Scaling keeps the terms *)


End QuotientFacts.

(** X12: [expand_rational_expr] is idempotent, and it leaves every result
    of [drop_small_terms] as it is. *)
Theorem expanded_forms_are_stable (e : Sympy.expr) (tol : Q) :
  Sympy.expand_rational_expr (Sympy.expand_rational_expr e) = Sympy.expand_rational_expr e /\
  Sympy.expand_rational_expr (Sympy.drop_small_terms e tol) = Sympy.drop_small_terms e tol.
Proof.
  split; apply QuotientFacts.evaluated_fix.
  - apply QuotientFacts.expand_rational_expr_evaluated.
  - destruct e as [num den|]; [|exact I]. unfold Sympy.drop_small_terms.
    destruct (Sympy.poly_is_zero _); [exact I|].
    apply QuotientFacts.expand_rational_expr_evaluated.
Qed.

Module CleaningFacts.
Import Sympy DropFacts EvalFacts RescaleFacts QuotientFacts Orchestrator.
Local Open Scope nat_scope.

Lemma above_tolerance_stable tol (p : list (Q * gmultiset string)) :
  wf_poly p -> Forall (fun t => (tol < Qabs (fst t))%Q) p -> stable tol p.
Proof.
  intros Hwf Hall. split; [exact Hwf|].
  destruct p as [|t p]; [now left|]. right. left. split; [discriminate|].
  apply forallb_forall. intros x Hx. apply keep_term_iff.
  rewrite List.Forall_forall in Hall. split; [|now apply Hall].
  apply is_zero_false. now apply (wf_poly_In (t :: p) x Hwf).
Qed.

Lemma length_add_term (p : list (Q * gmultiset string)) t :
  length (add_term p t) <= S (length p).
Proof.
  induction p as [|[c m] p IH]; simpl.
  - destruct (is_zero (fst t)); simpl; lia.
  - destruct (bool_decide (m = snd t)); [|simpl; lia].
    destruct (is_zero _); simpl; lia.
Qed.

Lemma length_fold_add_term ts : forall p : list (Q * gmultiset string),
  length (fold_left add_term ts p) <= length p + length ts.
Proof.
  induction ts as [|t ts IH]; intros p; simpl; [lia|].
  specialize (IH (add_term p t)). pose proof (length_add_term p t). lia.
Qed.

Lemma length_as_ordered_terms (p : list (Q * gmultiset string)) :
  1 <= length (as_ordered_terms p) /\ (p <> [] -> as_ordered_terms p = p).
Proof. destruct p; simpl; split; try lia; congruence. Qed.



Lemma div_counts n d n' d' :
  div n d = Frac n' d' ->
  length (as_ordered_terms n') <= length (as_ordered_terms n) /\
  length (as_ordered_terms d') <= length (as_ordered_terms d).
Proof.
  unfold div. intros H. destruct d as [|[c m] [|t2 d0]]; [discriminate| |].
  - destruct (is_zero c); [discriminate|]. unfold div_number in H.
    pose proof (length_map (fun t : Q * gmultiset string => (Qred (/ c * fst t), snd t)) n) as L.
    fold (scale (/ c) n) in L.
    destruct (scale (/ c) n) as [|[a mn] [|t n0]] eqn:E; inversion H; subst; clear H.
    + split; [apply (length_as_ordered_terms n)|simpl; lia].
    + split; [|simpl; lia]. destruct n as [|? [|? ?]]; simpl in *; lia.
    + split; [|simpl; lia]. destruct n as [|? [|? ?]]; simpl in *; lia.
  - destruct n as [|t n]; inversion H; subst; clear H; simpl; lia.
Qed.

End CleaningFacts.

(** X14: when every coefficient of the numerator and of the denominator has
    magnitude above [tol], [drop_small_terms] drops nothing: it returns the
    expanded form of its argument. *)
Theorem drop_small_terms_above_tolerance (num den : list (Q * gmultiset string)) (tol : Q) :
  DropFacts.wf_poly num -> DropFacts.wf_poly den ->
  Forall (fun t => (tol < Qabs (fst t))%Q) num ->
  Forall (fun t => (tol < Qabs (fst t))%Q) den ->
  Sympy.drop_small_terms (Sympy.Frac num den) tol
  = Sympy.expand_rational_expr (Sympy.Frac num den).
Proof.
  intros Hn Hd Han Had. unfold Sympy.drop_small_terms.
  rewrite DropFacts.den_clean_eq.
  rewrite (DropFacts.stable_fix tol den) by now apply CleaningFacts.above_tolerance_stable.
  rewrite (DropFacts.stable_fix tol num) by now apply CleaningFacts.above_tolerance_stable.
  destruct den as [|t den]; [reflexivity|]. cbn [Sympy.poly_is_zero].
  apply QuotientFacts.evaluated_fix, QuotientFacts.div_evaluated.
Qed.

Lemma drop_small_terms_above_tolerance_witness :
  let num := [(3%Q, {[+ "x"%string +]}); ((1 # 2)%Q, ∅)] in
  let den := [(1%Q, {[+ "y"%string +]}); (2%Q, ∅)] in
  Sympy.drop_small_terms (Sympy.Frac num den) (1 # 10)
  = Sympy.expand_rational_expr (Sympy.Frac num den).
Proof.
  apply drop_small_terms_above_tolerance.
  - split; [|repeat constructor].
    apply list.NoDup_cons. split; [|apply NoDup_singleton].
    intros H. apply list_elem_of_singleton in H. vm_compute in H. discriminate H.
  - split; [|repeat constructor].
    apply list.NoDup_cons. split; [|apply NoDup_singleton].
    intros H. apply list_elem_of_singleton in H. vm_compute in H. discriminate H.
  - repeat constructor.
  - repeat constructor.
Defined.


Module RescaleAgain.
Import Sympy DropFacts EvalFacts RescaleFacts QuotientFacts.
Local Open Scope Q_scope.

Lemma map_snd_scale k (D : list (Q * gmultiset string)) : map snd (scale k D) = map snd D.
Proof. unfold scale. rewrite map_map. reflexivity. Qed.

Lemma monoms_nonempty P : monoms P <> [].
Proof.
  unfold monoms. destruct (rep P) as [|t D]; [discriminate|].
  intros H. assert (Hin : exps (poly_gens P) (snd t) ∈ remove_dups (map (fun t0 => exps (poly_gens P) (snd t0)) (t :: D))).
  { apply elem_of_remove_dups. left. }
  rewrite H in Hin. now apply elem_of_nil in Hin.
Qed.

End RescaleAgain.

(** ** What the batch stores, exports and prints *)

Module StageFacts.
Import Sympy Assembler Orchestrator OrchestratorFacts.

Section Stages.

Variable solve : equation -> symbol -> list expr.
Variable evalf : nat -> expr -> expr.
Variable xdot_symbol : symbol.
Variable target : option poly.
Variable gens : option (list symbol).
Variable sig_digits : nat.
Variable tol : Q.
Variable latex_path : bool.

Let step := process_row solve evalf xdot_symbol target gens sig_digits tol latex_path.
Let go := loop solve evalf xdot_symbol target gens sig_digits tol latex_path.
Let exit_of := classify solve xdot_symbol target gens tol.

(** What one row stores at each stage, when it gets that far. *)
Definition raw_of (eq : equation) : option expr :=
  match solve eq xdot_symbol with
  | [] => None
  | raw :: _ => Some (together (expand_expr raw))
  end.

Definition rescaled_of (eq : equation) : option expr :=
  match raw_of eq with
  | Some raw => if numerator_is_zero raw then None
                else Some (rescale_expression raw target gens)
  | None => None
  end.

Definition cleaned_of (eq : equation) : option expr :=
  match rescaled_of eq with
  | Some rescaled => if numerator_is_zero (drop_small_terms rescaled tol) then None
                     else Some (drop_small_terms rescaled tol)
  | None => None
  end.

Definition final_of (eq : equation) : option expr :=
  match cleaned_of eq with
  | Some cleaned => Some (expand_rational_expr (evalf sig_digits cleaned))
  | None => None
  end.

Definition row_of (i : nat) (eq : equation) : option csv_row :=
  match cleaned_of eq with
  | Some cleaned =>
      Some {| csv_model := i;
              csv_equation := (xdot_symbol, expand_rational_expr (evalf sig_digits cleaned));
              csv_numerator_terms := fst (count_terms cleaned);
              csv_denominator_terms := snd (count_terms cleaned);
              csv_any_negative := has_negative cleaned |}
  | None => None
  end.

Definition report (i : nat) (eq : equation) : message :=
  match solve eq xdot_symbol with
  | [] => NoSolution i
  | _ =>
      match rescaled_of eq, final_of eq with
      | None, _ => ZeroNumerator i
      | Some _, None => AllTermsDropped i
      | Some _, Some final => RationalEq i xdot_symbol final
      end
  end.

Definition store (m : gmap nat expr) (i : nat) (v : option expr) : gmap nat expr :=
  match v with
  | Some e => <[i := e]> m
  | None => m
  end.

(** One pass of the loop body, field by field. *)
Lemma process_row_fields st i eq :
  raw_models (step st i eq) = store (raw_models st) i (raw_of eq) /\
  rescaled_models (step st i eq) = store (rescaled_models st) i (rescaled_of eq) /\
  cleaned_models (step st i eq) = store (cleaned_models st) i (cleaned_of eq) /\
  final_models (step st i eq) = store (final_models st) i (final_of eq) /\
  rows_for_csv (step st i eq) = rows_for_csv st ++ option_list (row_of i eq) /\
  successful_models (step st i eq)
    = successful_models st + length (option_list (row_of i eq)) /\
  latex_file (step st i eq)
    = latex_file st ++
      (if latex_path
       then map (fun row => (csv_model row, snd (csv_equation row)))
                (option_list (row_of i eq))
       else []) /\
  printed (step st i eq) = printed st ++ [report i eq].
Proof.
  unfold step, process_row, report, row_of, final_of, cleaned_of, rescaled_of, raw_of.
  destruct (solve eq xdot_symbol) as [|raw sols]; simpl.
  { rewrite !app_nil_r, Nat.add_0_r. destruct latex_path; rewrite ?app_nil_r; auto 10. }
  destruct (numerator_is_zero (together (expand_expr raw))); simpl.
  { rewrite !app_nil_r, Nat.add_0_r. destruct latex_path; rewrite ?app_nil_r; auto 10. }
  destruct (numerator_is_zero (drop_small_terms _ tol)); simpl.
  { rewrite !app_nil_r, Nat.add_0_r. destruct latex_path; rewrite ?app_nil_r; auto 10. }
  destruct latex_path; rewrite ?app_nil_r; auto 10.
Qed.

(** A dictionary filled by the loop holds, under key [k], what row [k]
    stores. *)
Lemma loop_lookup (proj : state -> gmap nat expr) (f : equation -> option expr) :
  (forall st i eq, proj (step st i eq) = store (proj st) i (f eq)) ->
  forall eq_list i st k,
    proj (go i eq_list st) !! k =
    match (if decide (i <= k) then eq_list !! (k - i) ≫= f else None) with
    | Some v => Some v
    | None => proj st !! k
    end.
Proof.
  intros Hstep. induction eq_list as [|eq rest IH]; intros i st k.
  - simpl. destruct (decide (i <= k)); reflexivity.
  - unfold go in *. simpl. rewrite IH. fold step. rewrite Hstep.
    destruct (decide (S i <= k)) as [Hk|Hk].
    + rewrite decide_True by lia.
      replace (k - i) with (S (k - S i)) by lia. simpl.
      destruct (rest !! (k - S i) ≫= f); [reflexivity|].
      unfold store. destruct (f eq); [|reflexivity].
      apply lookup_insert_ne. lia.
    + destruct (decide (i <= k)) as [Hi|Hi].
      * assert (k = i) by lia. subst k. rewrite Nat.sub_diag. simpl.
        unfold store. destruct (f eq); [apply lookup_insert_eq|reflexivity].
      * unfold store. destruct (f eq); [|reflexivity].
        apply lookup_insert_ne. lia.
Qed.

Lemma run_lookup (proj : state -> gmap nat expr) (f : equation -> option expr) :
  proj initial = ∅ ->
  (forall st i eq, proj (step st i eq) = store (proj st) i (f eq)) ->
  forall eq_list k, proj (go 0 eq_list initial) !! k = eq_list !! k ≫= f.
Proof.
  intros H0 Hstep eq_list k. rewrite (loop_lookup proj f Hstep).
  rewrite decide_True by lia. rewrite Nat.sub_0_r, H0, lookup_empty.
  destruct (eq_list !! k ≫= f); reflexivity.
Qed.

Lemma raw_lookup eq_list k :
  raw_models (go 0 eq_list initial) !! k = eq_list !! k ≫= raw_of.
Proof. apply run_lookup; [reflexivity|]. intros. apply process_row_fields. Qed.

Lemma rescaled_lookup eq_list k :
  rescaled_models (go 0 eq_list initial) !! k = eq_list !! k ≫= rescaled_of.
Proof. apply run_lookup; [reflexivity|]. intros. apply process_row_fields. Qed.

Lemma cleaned_lookup eq_list k :
  cleaned_models (go 0 eq_list initial) !! k = eq_list !! k ≫= cleaned_of.
Proof. apply run_lookup; [reflexivity|]. intros. apply process_row_fields. Qed.

Lemma final_lookup eq_list k :
  final_models (go 0 eq_list initial) !! k = eq_list !! k ≫= final_of.
Proof. apply run_lookup; [reflexivity|]. intros. apply process_row_fields. Qed.

(** The lists the loop appends to. *)
Definition rows_from (i : nat) (eq_list : list equation) : list csv_row :=
  concat (imap (fun j eq => option_list (row_of (i + j) eq)) eq_list).

Lemma loop_lists eq_list : forall i st,
  rows_for_csv (go i eq_list st) = rows_for_csv st ++ rows_from i eq_list /\
  successful_models (go i eq_list st)
    = successful_models st + length (rows_from i eq_list) /\
  latex_file (go i eq_list st)
    = latex_file st ++
      (if latex_path
       then map (fun row => (csv_model row, snd (csv_equation row))) (rows_from i eq_list)
       else []) /\
  printed (go i eq_list st) = printed st ++ imap (fun j eq => report (i + j) eq) eq_list.
Proof.
  induction eq_list as [|eq rest IH]; intros i st.
  - unfold rows_from. simpl. rewrite !app_nil_r, Nat.add_0_r.
    destruct latex_path; rewrite ?app_nil_r; auto.
  - unfold go in *. simpl. fold step.
    destruct (IH (S i) (step st i eq)) as (H1 & H2 & H3 & H4).
    destruct (process_row_fields st i eq) as (_ & _ & _ & _ & R1 & R2 & R3 & R4).
    rewrite H1, H2, H3, H4, R1, R2, R3, R4.
    assert (E : rows_from i (eq :: rest) = option_list (row_of i eq) ++ rows_from (S i) rest).
    { unfold rows_from. simpl. rewrite Nat.add_0_r. f_equal. f_equal.
      apply imap_ext. intros j x _. simpl. f_equal. f_equal. lia. }
    rewrite E, <- !app_assoc, length_app. simpl. rewrite Nat.add_0_r.
    split; [reflexivity|]. split; [lia|]. split.
    + destruct latex_path; [|reflexivity]. now rewrite map_app.
    + f_equal. f_equal. apply imap_ext. intros j x _. simpl. f_equal. lia.
Qed.

Lemma rows_from_spec eq_list : forall i row,
  row ∈ rows_from i eq_list <->
  exists j eq, eq_list !! j = Some eq /\ row_of (i + j) eq = Some row.
Proof.
  induction eq_list as [|eq rest IH]; intros i row.
  - unfold rows_from. simpl. split; [intros H; now apply elem_of_nil in H|].
    intros (j & eq & H & _). discriminate.
  - assert (E : rows_from i (eq :: rest) = option_list (row_of i eq) ++ rows_from (S i) rest).
    { unfold rows_from. simpl. rewrite Nat.add_0_r. f_equal. f_equal.
      apply imap_ext. intros j x _. simpl. f_equal. f_equal. lia. }
    rewrite E, elem_of_app, IH. split.
    + intros [H|(j & eq' & Hl & Hr)].
      * exists 0, eq. rewrite Nat.add_0_r. split; [reflexivity|].
        destruct (row_of i eq); simpl in H; [|now apply elem_of_nil in H].
        apply list_elem_of_singleton in H. now subst.
      * exists (S j), eq'. split; [exact Hl|]. now rewrite <- Nat.add_succ_comm.
    + intros ([|j] & eq' & Hl & Hr); simpl in Hl.
      * inversion Hl; subst eq'. rewrite Nat.add_0_r in Hr. rewrite Hr. left. simpl. left.
      * right. exists j, eq'. split; [exact Hl|]. now rewrite Nat.add_succ_comm.
Qed.

Lemma row_of_model i eq row : row_of i eq = Some row -> csv_model row = i.
Proof. unfold row_of. destruct (cleaned_of eq); [|discriminate]. now intros [= <-]. Qed.

Lemma rows_from_sorted eq_list : forall i,
  StronglySorted lt (map csv_model (rows_from i eq_list)) /\
  Forall (fun k => i <= k) (map csv_model (rows_from i eq_list)).
Proof.
  induction eq_list as [|eq rest IH]; intros i.
  - unfold rows_from. simpl. split; constructor.
  - assert (E : rows_from i (eq :: rest) = option_list (row_of i eq) ++ rows_from (S i) rest).
    { unfold rows_from. simpl. rewrite Nat.add_0_r. f_equal. f_equal.
      apply imap_ext. intros j x _. simpl. f_equal. f_equal. lia. }
    rewrite E, map_app. destruct (IH (S i)) as [Hs Hb].
    destruct (row_of i eq) as [row|] eqn:Er; simpl.
    + apply row_of_model in Er. rewrite Er. split.
      * constructor; [exact Hs|]. eapply List.Forall_impl; [|exact Hb]. simpl. lia.
      * constructor; [lia|]. eapply List.Forall_impl; [|exact Hb]. simpl. lia.
    + split; [exact Hs|]. eapply List.Forall_impl; [|exact Hb]. simpl. lia.
Qed.

End Stages.

End StageFacts.

Section OrchestratorStages.

Import Sympy Assembler Orchestrator OrchestratorFacts StageFacts.

Variable solve : equation -> symbol -> list expr.
Variable evalf : nat -> expr -> expr.
Variable xdot_symbol : symbol.
Variable target : option poly.
Variable gens : option (list symbol).
Variable sig_digits : nat.
Variable tol : Q.
Variable latex_path : bool.

Let final_state := run solve evalf xdot_symbol target gens sig_digits tol latex_path.
Let exit_of := classify solve xdot_symbol target gens tol.

(** X17: the four dictionaries are consistent stage by stage.  Under the
    same key, the raw model is the expanded first solution of that row, the
    rescaled model is [rescale_expression] of the raw model, the cleaned
    model is [drop_small_terms] of the rescaled model, and the final model is
    the rounded and expanded cleaned model; the raw and cleaned models that
    went on have nonzero numerators. *)
Theorem stored_stages_follow_the_pipeline (eq_list : list equation) :
  let '(raw, rescaled, cleaned, final) :=
    print_and_store_models solve evalf xdot_symbol target gens sig_digits tol
                           latex_path eq_list in
  (forall k r, raw !! k = Some r ->
     exists eq x xs, eq_list !! k = Some eq /\ solve eq xdot_symbol = x :: xs /\
                     r = together (expand_expr x)) /\
  (forall k r, rescaled !! k = Some r ->
     exists r0, raw !! k = Some r0 /\ numerator_is_zero r0 = false /\
                r = rescale_expression r0 target gens) /\
  (forall k c, cleaned !! k = Some c ->
     exists r, rescaled !! k = Some r /\ numerator_is_zero c = false /\
               c = drop_small_terms r tol) /\
  (forall k f, final !! k = Some f ->
     exists c, cleaned !! k = Some c /\
               f = expand_rational_expr (evalf sig_digits c)).
Proof.
  unfold print_and_store_models, run.
  split; [|split; [|split]]; intros k v H.
  - rewrite raw_lookup in H. destruct (eq_list !! k) as [eq|]; [|discriminate].
    simpl in H. unfold raw_of in H.
    destruct (solve eq xdot_symbol) as [|x xs] eqn:E; [discriminate|].
    exists eq, x, xs. inversion H. auto.
  - rewrite rescaled_lookup in H. rewrite raw_lookup.
    destruct (eq_list !! k) as [eq|]; [|discriminate].
    simpl in *. unfold rescaled_of in H.
    destruct (raw_of solve xdot_symbol eq) as [r0|]; [|discriminate].
    destruct (numerator_is_zero r0) eqn:E; [discriminate|].
    exists r0. inversion H. auto.
  - rewrite cleaned_lookup in H. rewrite rescaled_lookup.
    destruct (eq_list !! k) as [eq|]; [|discriminate].
    simpl in *. unfold cleaned_of in H.
    destruct (rescaled_of solve xdot_symbol target gens eq) as [r|]; [|discriminate].
    destruct (numerator_is_zero (drop_small_terms r tol)) eqn:E; [discriminate|].
    exists r. inversion H; subst. auto.
  - rewrite final_lookup in H. rewrite cleaned_lookup.
    destruct (eq_list !! k) as [eq|]; [|discriminate].
    simpl in *. unfold final_of in H.
    destruct (cleaned_of solve xdot_symbol target gens tol eq) as [c|]; [|discriminate].
    exists c. inversion H. auto.
Qed.

(** X18: the CSV rows are one for each final model, in increasing order of
    the model index; a row carries the final expression, and the term counts
    and the negative-coefficient flag of the cleaned expression; the LaTeX
    file, when asked for, has one entry for each row. *)
Theorem csv_rows_follow_the_final_models (eq_list : list equation) :
  let st := final_state eq_list in
  successful_models st = length (rows_for_csv st) /\
  size (final_models st) = length (rows_for_csv st) /\
  StronglySorted lt (map csv_model (rows_for_csv st)) /\
  (forall k, is_Some (final_models st !! k) <-> k ∈ map csv_model (rows_for_csv st)) /\
  (forall row, row ∈ rows_for_csv st ->
     exists c f,
       cleaned_models st !! csv_model row = Some c /\
       final_models st !! csv_model row = Some f /\
       csv_equation row = (xdot_symbol, f) /\
       csv_numerator_terms row = fst (count_terms c) /\
       csv_denominator_terms row = snd (count_terms c) /\
       csv_any_negative row = has_negative c) /\
  latex_file st =
    if latex_path
    then map (fun row => (csv_model row, snd (csv_equation row))) (rows_for_csv st)
    else [].
Proof.
  intros st. subst st. unfold final_state, run.
  destruct (loop_lists solve evalf xdot_symbol target gens sig_digits tol latex_path
              eq_list 0 initial) as (H1 & H2 & H3 & _).
  simpl in H1, H2, H3.
  set (rows := rows_from solve evalf xdot_symbol target gens sig_digits tol 0 eq_list) in *.
  destruct (rows_from_sorted solve evalf xdot_symbol target gens sig_digits tol eq_list 0)
    as [Hs _]. fold rows in Hs.
  assert (Hkeys : forall k,
            is_Some (final_models (loop solve evalf xdot_symbol target gens sig_digits tol
                                        latex_path 0 eq_list initial) !! k)
            <-> k ∈ map csv_model rows).
  { intros k. rewrite final_lookup. rewrite list_elem_of_fmap. split.
    - intros [f Hf]. destruct (eq_list !! k) as [eq|] eqn:Ek; [|discriminate].
      simpl in Hf. unfold final_of in Hf.
      destruct (cleaned_of solve xdot_symbol target gens tol eq) as [c|] eqn:Ec;
        [|discriminate].
      eexists. split; [|apply rows_from_spec; exists k, eq; split; [exact Ek|]].
      2: { unfold row_of. rewrite Ec. reflexivity. }
      reflexivity.
    - intros (row & -> & Hin). apply rows_from_spec in Hin.
      destruct Hin as (j & eq & Hl & Hr). simpl in Hr.
      pose proof (row_of_model _ _ _ _ _ _ _ _ _ _ Hr) as Hm. rewrite Hm, Hl. simpl.
      unfold final_of. unfold row_of in Hr.
      destruct (cleaned_of solve xdot_symbol target gens tol eq); [eauto|discriminate]. }
  rewrite H1, H2, H3. split; [reflexivity|]. split; [|split; [exact Hs|split; [exact Hkeys|split]]].
  - rewrite <- (length_map csv_model rows).
    rewrite <- size_dom, <- (size_list_to_set (C := gset nat)).
    + f_equal. apply set_eq. intros k.
      rewrite elem_of_dom, elem_of_list_to_set. apply Hkeys.
    + clear -Hs. induction Hs as [|x l Hs IH Hx]; constructor; [|exact IH].
      intros Hin. rewrite List.Forall_forall in Hx.
      apply list_elem_of_In in Hin. specialize (Hx x Hin). lia.
  - intros row Hin. apply rows_from_spec in Hin.
    destruct Hin as (j & eq & Hl & Hr). simpl in Hr.
    pose proof (row_of_model _ _ _ _ _ _ _ _ _ _ Hr) as Hm.
    rewrite cleaned_lookup, final_lookup, Hm, Hl. simpl.
    unfold final_of. unfold row_of in Hr.
    destruct (cleaned_of solve xdot_symbol target gens tol eq) as [c|]; [|discriminate].
    inversion Hr; subst; clear Hr. simpl. eauto 10.
  - destruct latex_path; reflexivity.
Qed.

(** X19: the loop prints exactly one message for each input row, in order:
    the failure message of the exit the row takes, or the final model stored
    under its index. *)
Theorem one_message_per_row (eq_list : list equation) :
  let st := final_state eq_list in
  length (printed st) = length eq_list /\
  forall i eq, eq_list !! i = Some eq ->
    exists m, printed st !! i = Some m /\
      match exit_of eq, m with
      | SolveFailure, NoSolution j => j = i
      | ZeroNum, ZeroNumerator j => j = i
      | Dropped, AllTermsDropped j => j = i
      | Final, RationalEq j var e =>
          j = i /\ var = xdot_symbol /\ final_models st !! i = Some e
      | _, _ => False
      end.
Proof.
  intros st. subst st. unfold final_state, run.
  destruct (loop_lists solve evalf xdot_symbol target gens sig_digits tol latex_path
              eq_list 0 initial) as (_ & _ & _ & H4).
  simpl in H4. rewrite H4. split; [apply length_imap|].
  intros i eq Hl. rewrite list_lookup_imap, Hl. simpl.
  eexists. split; [reflexivity|].
  rewrite final_lookup, Hl. simpl.
  unfold exit_of, classify, report, final_of, cleaned_of, rescaled_of, raw_of.
  destruct (solve eq xdot_symbol) as [|x xs]; [reflexivity|].
  destruct (numerator_is_zero (together (expand_expr x))); [reflexivity|].
  destruct (numerator_is_zero (drop_small_terms _ tol)); [reflexivity|].
  auto.
Qed.

End OrchestratorStages.

(** ** The symbols of the assembled equations *)

Module SymbolFacts.
Import Sympy Assembler AssemblerFacts EvalFacts.

Lemma mono_of_product_symbols (f : product) s :
  s ∈ mono_of_product f -> s ∈ map fst f.
Proof.
  induction f as [|[x c] f IH]; simpl; intros H.
  - multiset_solver.
  - apply gmultiset_elem_of_disj_union in H. destruct H as [H|H].
    + apply gmultiset_elem_of_scalar_mul in H. destruct H as [_ H].
      apply gmultiset_elem_of_singleton in H. subst. left.
    + right. now apply IH.
Qed.

Lemma feature_product_symbols name s :
  s ∈ mono_of_product (feature_product name) -> s ∈ Tokenizer.tokenize name.
Proof.
  intros H. apply mono_of_product_symbols in H.
  apply fold_count_token_keys in H. destruct H as [H|H]; [exact H|].
  now apply elem_of_nil in H.
Qed.

Lemma fold_add_term_keys ts : forall (p : list (Q * gmultiset string)) k,
  k ∈ map snd (fold_left add_term ts p) -> k ∈ map snd p \/ k ∈ map snd ts.
Proof.
  induction ts as [|t ts IH]; intros p k H; simpl in *; [now left|].
  apply IH in H. destruct H as [H|H]; [|right; now right].
  apply add_term_keys in H. destruct H as [->|H]; [right; left|now left].
Qed.

Lemma sub_keys (lhs rhs : list (Q * gmultiset string)) k :
  k ∈ map snd (sub lhs rhs) -> k ∈ map snd lhs \/ k ∈ map snd rhs.
Proof.
  unfold sub. intros H. apply fold_add_term_keys in H.
  now rewrite RescaleAgain.map_snd_scale in H.
Qed.

Lemma row_poly_keys a fs i js : forall acc k,
  k ∈ map snd (row_poly a fs i js acc) ->
  k ∈ map snd acc \/ exists j, j ∈ js /\ k = snd (row_term a fs i j).
Proof.
  induction js as [|j js IH]; intros acc k H; [now left|].
  change (row_poly a fs i (j :: js) acc)
    with (row_poly a fs i js (add_term acc (row_term a fs i j))) in H.
  apply IH in H. destruct H as [H|(j' & Hj' & ->)].
  - apply add_term_keys in H. destruct H as [->|H]; [|now left].
    right. exists j. split; [left|reflexivity].
  - right. exists j'. split; [now right|reflexivity].
Qed.

Lemma free_symbols_elem (p : list (Q * gmultiset string)) s :
  s ∈ free_symbols p -> exists k, k ∈ map snd p /\ s ∈ k.
Proof.
  unfold free_symbols. intros H. apply elem_of_union_list in H.
  destruct H as (X & HX & Hs). apply list_elem_of_fmap in HX.
  destruct HX as (t & -> & Ht). exists (snd t).
  split; [now apply list_elem_of_fmap_2|]. now apply gmultiset_elem_of_dom.
Qed.

(** Every symbol of a row is a token of one of the features. *)
Lemma row_symbols aL aR fs i s :
  s ∈ free_symbols (sub (row_poly aL fs i (seq 0 (length fs)) [])
                        (row_poly aR fs i (seq 0 (length fs)) [])) ->
  exists name, name ∈ fs /\ s ∈ Tokenizer.tokenize name.
Proof.
  intros H. apply free_symbols_elem in H. destruct H as (k & Hk & Hs).
  assert (Hrow : exists a j, j ∈ seq 0 (length fs) /\ k = snd (row_term a fs i j)).
  { apply sub_keys in Hk. destruct Hk as [Hk|Hk]; apply row_poly_keys in Hk;
      destruct Hk as [Hk|(j & Hj & ->)]; try (now apply elem_of_nil in Hk); eauto. }
  destruct Hrow as (a & j & Hj & ->). apply elem_of_seq in Hj.
  destruct (lookup_lt_is_Some_2 fs j) as [name Hname]; [lia|].
  exists name. split; [now apply list_elem_of_lookup_2 in Hname|].
  unfold row_term, times in Hs. simpl in Hs. rewrite Hname in Hs. simpl in Hs.
  now apply feature_product_symbols.
Qed.

Lemma generate_token_symbols fs aL aR eqs (ts : gmap string string) :
  generate_symbolic_equations_both_sides fs aL aR = inr (eqs, ts) ->
  ts = list_to_map (map (fun tok => (tok, tok)) (fst (extract_distinct_features fs))) /\
  exists L R, sp_Matrix aL = inr L /\ sp_Matrix aR = inr R.
Proof.
  unfold generate_symbolic_equations_both_sides. intros H.
  destruct (extract_distinct_features fs) as [distinct fmap].
  destruct (sp_Matrix aL) as [e|L]; [discriminate|].
  destruct (sp_Matrix aR) as [e|R]; [discriminate|].
  simpl in H.
  destruct (build_rows _ _ _ _ _ _ _) as [e|rows]; [discriminate|].
  simpl in H. inversion H; subst. split; [reflexivity|eauto].
Qed.

End SymbolFacts.

(** X20: every returned object that is an equation has zero on the right
    and a left-hand side that is not a number, and every symbol occurring in
    it is a key of the returned symbol table, mapped to itself. *)
Theorem equations_mention_only_the_vocabulary (features : list string)
    (left_coeff right_coeff : list (list Q))
    (eq_list : list Assembler.equation) (token_symbols : gmap string string) :
  Assembler.generate_symbolic_equations_both_sides features left_coeff right_coeff
    = inr (eq_list, token_symbols) ->
  forall lhs rhs, Assembler.Eq lhs rhs ∈ eq_list ->
    rhs = [] /\
    Sympy.is_number lhs = false /\
    forall s, s ∈ Sympy.free_symbols lhs -> token_symbols !! s = Some s.
Proof.
  intros Hg lhs rhs Hin.
  destruct (SymbolFacts.generate_token_symbols _ _ _ _ _ Hg) as (Hts & L & R & HL & HR).
  destruct (AssemblerFacts.generate_spec features left_coeff right_coeff L R HL HR)
    as [[_ (ts & Hg')]|[_ (i' & j' & Hg')]]; rewrite Hg in Hg'; [|discriminate].
  inversion Hg'; subst eq_list ts; clear Hg'.
  apply list_elem_of_fmap in Hin. destruct Hin as (i & Hi & _).
  unfold AssemblerFacts.row_equation, Assembler.sp_Eq in Hi.
  destruct (Sympy.is_number _) eqn:Hnum.
  { destruct (Sympy.poly_is_zero _); discriminate. }
  inversion Hi; subst lhs rhs; clear Hi.
  split; [reflexivity|]. split; [exact Hnum|].
  intros s Hs. apply SymbolFacts.row_symbols in Hs. destruct Hs as (name & Hname & Ht).
  pose proof (AssemblerFacts.vocabulary_built features name Hname) as [_ Hvoc].
  rewrite Hts. now apply Hvoc.
Qed.

Lemma equations_mention_only_the_vocabulary_witness :
  exists eq_list token_symbols,
    Assembler.generate_symbolic_equations_both_sides
      ["x0"; "x0x1_dot"]%string [[1; 0]; [0; 1]]%Q [[0; 0]; [2; 0]]%Q
    = inr (eq_list, token_symbols) /\
    forall lhs rhs, Assembler.Eq lhs rhs ∈ eq_list ->
      rhs = [] /\
      Sympy.is_number lhs = false /\
      forall s, s ∈ Sympy.free_symbols lhs -> token_symbols !! s = Some s.
Proof.
  destruct (Assembler.generate_symbolic_equations_both_sides
              ["x0"; "x0x1_dot"]%string [[1; 0]; [0; 1]]%Q [[0; 0]; [2; 0]]%Q)
    as [e|[eq_list token_symbols]] eqn:Hg.
  - vm_compute in Hg. discriminate Hg.
  - exists eq_list, token_symbols. split; [reflexivity|].
    apply (equations_mention_only_the_vocabulary _ _ _ _ _ Hg).
Defined.

(** ** The exit that is never taken *)

Module ExitFacts.
Import Sympy DropFacts EvalFacts RescaleFacts QuotientFacts Orchestrator.
Local Open Scope Q_scope.

Lemma scale_inv_wf c (p : list (Q * gmultiset string)) :
  is_zero c = false -> wf_poly p -> wf_poly (scale (/ c) p).
Proof.
  intros Hc [Hnd Hall]. split.
  - now rewrite RescaleAgain.map_snd_scale.
  - apply List.Forall_forall. intros t Ht. apply in_map_iff in Ht.
    destruct Ht as ([a m] & <- & Hin). simpl.
    apply (wf_term_quotient c a m m Hc).
    rewrite List.Forall_forall in Hall. now apply (Hall (a, m)).
Qed.




End ExitFacts.


Section Exits.

Import Sympy Assembler Orchestrator OrchestratorFacts StageFacts.

Variable solve : equation -> symbol -> list expr.
Variable evalf : nat -> expr -> expr.
Variable xdot_symbol : symbol.
Variable target : option poly.
Variable gens : option (list symbol).
Variable sig_digits : nat.
Variable tol : Q.
Variable latex_path : bool.

Let final_state := run solve evalf xdot_symbol target gens sig_digits tol latex_path.
Let exit_of := classify solve xdot_symbol target gens tol.


End Exits.


(** ** The term dropper applied twice *)

Module TwiceFacts.
Import Sympy DropFacts EvalFacts RescaleFacts QuotientFacts CleaningFacts ExitFacts.

(** A side that the filter leaves as it is: at most one term, or every
    coefficient above the tolerance. *)
Definition settled (tol : Q) (p : list (Q * gmultiset string)) : Prop :=
  length p <= 1 \/ Forall (fun t => (tol < Qabs (fst t))%Q) p.

Lemma settled_stable tol p : wf_poly p -> settled tol p -> stable tol p.
Proof.
  intros Hwf [Hlen|Hall]; [|now apply above_tolerance_stable].
  destruct p as [|t [|? ?]]; [split; [exact Hwf|now left]| |simpl in Hlen; lia].
  apply stable_single. apply (wf_poly_In [t] t Hwf). now left.
Qed.

Lemma stable_settled tol p : stable tol p -> settled tol p.
Proof.
  intros [Hwf [->|[[_ Hall]|(t & -> & _)]]]; [left; simpl; lia| |left; simpl; lia].
  right. apply List.Forall_forall. intros t Ht.
  apply (proj1 (forallb_forall _ _) Hall) in Ht. now apply keep_term_iff in Ht.
Qed.

Lemma wf_reduced p : wf_poly p -> reduced p.
Proof.
  intros [_ H]. eapply List.Forall_impl; [|exact H]. now intros t [_ Hr].
Qed.

(** The parts of an evaluated quotient of a clean numerator and a clean,
    nonzero denominator. *)
Lemma div_parts tol n d n' d' :
  wf_poly n -> stable tol d -> div n d = Frac n' d' ->
  wf_poly n' /\ stable tol d' /\ d' <> [].
Proof.
  intros Hn Hd H. pose proof (div_denominator n d n' d' H) as Hne.
  unfold div in H. destruct d as [|[c m] [|t2 d0]]; [discriminate| |].
  - destruct (is_zero c) eqn:Hc; [discriminate|].
    pose proof (scale_inv_wf c n Hc Hn) as Hs. unfold div_number in H.
    destruct (scale (/ c) n) as [|[a mn] [|t n0]]; inversion H; subst; clear H.
    + split; [apply wf_poly_nil|]. split; [apply stable_single, wf_term_one|discriminate].
    + split; [|split; [apply stable_single, wf_term_one|discriminate]].
      apply wf_poly_single. apply (wf_poly_In _ (a, mn)) in Hs; [exact Hs|now left].
    + split; [exact Hs|]. split; [apply stable_single, wf_term_one|discriminate].
  - destruct n as [|t n]; inversion H; subst; clear H.
    + split; [apply wf_poly_nil|]. split; [apply stable_single, wf_term_one|discriminate].
    + split; [exact Hn|]. split; [exact Hd|discriminate].
Qed.

(** What [drop_small_terms] returns: an evaluated quotient of a well-formed
    numerator and a denominator the filter leaves as it is. *)
Lemma drop_parts tol num den n1 d1 :
  wf_poly num -> wf_poly den ->
  drop_small_terms (Frac num den) tol = Frac n1 d1 ->
  wf_poly n1 /\ stable tol d1 /\ d1 <> [] /\ div n1 d1 = Frac n1 d1 /\
  length (as_ordered_terms n1) <= length (as_ordered_terms (num_clean tol num)).
Proof.
  intros Hn Hd H. unfold drop_small_terms in H. rewrite den_clean_eq in H.
  destruct (poly_is_zero _); [discriminate|].
  pose proof (clean_stable tol num Hn) as Sn.
  pose proof (clean_stable tol den Hd) as Sd.
  pose proof (div_evaluated (num_clean tol num) (num_clean tol den)) as Hev.
  rewrite (evaluated_fix _ Hev) in H. rewrite H in Hev. simpl in Hev.
  destruct (div_parts tol _ _ _ _ (proj1 Sn) Sd H) as (H1 & H2 & H3).
  destruct (div_counts _ _ _ _ H) as [Hc _]. auto.
Qed.

Lemma drop_settled tol n1 d1 :
  wf_poly n1 -> stable tol d1 -> d1 <> [] -> div n1 d1 = Frac n1 d1 ->
  settled tol n1 ->
  drop_small_terms (Frac n1 d1) tol = Frac n1 d1.
Proof.
  intros Hn Hd Hne Hev Hs. unfold drop_small_terms. rewrite den_clean_eq.
  rewrite (stable_fix tol d1 Hd), (stable_fix tol n1 (settled_stable tol n1 Hn Hs)).
  destruct d1; [congruence|]. cbn [poly_is_zero]. rewrite Hev. exact Hev.
Qed.

Lemma filter_length_all {A} (f : A -> bool) l :
  length (List.filter f l) = length l -> forallb f l = true.
Proof.
  induction l as [|x l IH]; simpl; [reflexivity|].
  destruct (f x); simpl; intros H.
  - apply IH. lia.
  - pose proof (List.filter_length_le f l). lia.
Qed.

(** A numerator of several terms that the filter does not leave as it is
    comes back shorter from cleaning. *)
Lemma clean_shorter tol p :
  wf_poly p -> 2 <= length p -> ~ settled tol p ->
  length (as_ordered_terms (num_clean tol p)) < length p.
Proof.
  intros Hwf Hlen Hns.
  assert (Hf : length (List.filter (keep_term tol) p) < length p).
  { pose proof (List.filter_length_le (keep_term tol) p) as Hle.
    destruct (Nat.eq_dec (length (List.filter (keep_term tol) p)) (length p)) as [E|E];
      [|lia].
    exfalso. apply Hns. right. apply filter_length_all in E.
    apply List.Forall_forall. intros t Ht.
    apply (proj1 (forallb_forall _ _) E) in Ht. now apply keep_term_iff in Ht. }
  unfold num_clean, kept_terms, expand, filter_terms.
  destruct p as [|t p]; [simpl in Hlen; lia|].
  change (as_ordered_terms (t :: p)) with (t :: p).
  pose proof (length_fold_add_term
                (match List.filter (keep_term tol) (t :: p) with
                 | [] => [max_by magnitude t p]
                 | _ :: _ => List.filter (keep_term tol) (t :: p)
                 end) []) as Ha.
  unfold Add.
  destruct (List.filter (keep_term tol) (t :: p)) as [|x xs] eqn:Ef.
  - destruct (fold_left add_term [max_by magnitude t p] []) as [|? ?]; simpl in *; lia.
  - destruct (fold_left add_term (x :: xs) []) as [|? ?]; simpl in *; lia.
Qed.

Lemma settled_dec tol p : settled tol p \/ ~ settled tol p.
Proof.
  unfold settled.
  destruct (forallb (fun t => Qlt_bool tol (Qabs (fst t))) p) eqn:E.
  - left. right. apply List.Forall_forall. intros t Ht.
    apply (proj1 (forallb_forall _ _) E) in Ht. now apply Qlt_bool_iff.
  - destruct (le_lt_dec (length p) 1) as [Hle|Hlt]; [now left; left|].
    right. intros [H|H]; [lia|].
    assert (E' : forallb (fun t => Qlt_bool tol (Qabs (fst t))) p = true); [|congruence].
    apply forallb_forall. intros t Ht. apply Qlt_bool_iff.
    rewrite List.Forall_forall in H. now apply H.
Qed.

(** When the evaluation of the quotient leaves the cleaned numerator alone,
    the numerator of the result is one the filter leaves as it is. *)
Lemma auto_settled tol num den n1 d1 :
  wf_poly num -> wf_poly den ->
  drop_small_terms (Frac num den) tol = Frac n1 d1 ->
  2 <= length (den_clean tol den) \/
  (exists m, den_clean tol den = [(1%Q, m)]) \/
  length (num_clean tol num) <= 1 ->
  settled tol n1.
Proof.
  intros Hn Hd H Hauto.
  destruct (drop_parts tol num den n1 d1 Hn Hd H) as (Hw & _ & _ & _ & Hlen).
  pose proof (clean_stable tol num Hn) as Sn.
  pose proof (stable_settled tol _ Sn) as Hset.
  unfold drop_small_terms in H. rewrite den_clean_eq in *.
  destruct (poly_is_zero _); [discriminate|].
  rewrite (evaluated_fix _ (div_evaluated _ _)) in H.
  set (Nc := num_clean tol num) in *. set (Dc := num_clean tol den) in *.
  destruct Hauto as [H2|[(m & Hm)|H1]].
  - unfold div in H. destruct Dc as [|t1 [|t2 Dc']]; try (simpl in H2; lia).
    destruct t1 as [c1 m1].
    destruct Nc as [|t Nc']; inversion H; subst; [left; simpl; lia|exact Hset].
  - rewrite Hm in H. unfold div, div_number in H.
    change (is_zero 1) with false in H. cbv iota in H.
    rewrite (scale_one_reduced Nc (wf_reduced Nc (proj1 Sn))) in H.
    destruct Nc as [|[a mn] [|t Nc']]; inversion H; subst;
      [left; simpl; lia|left; simpl; lia|exact Hset].
  - left. destruct Nc as [|t [|? ?]]; try (simpl in H1; lia);
      destruct n1 as [|? [|? ?]]; simpl in *; lia.
Qed.

End TwiceFacts.

(** C6, amended: for a fraction of two expanded polynomials, applying
    [drop_small_terms] a second time changes nothing exactly when the
    numerator of the first result has at most one term or all its
    coefficients have magnitude above [tol].  That is always so when the
    cleaned denominator keeps at least two terms, or is a single term with
    coefficient one (every polynomial model, whose denominator is 1), or the
    cleaned numerator keeps at most one term; it fails only after a single
    denominator term with another coefficient was divided into a numerator
    of several terms. *)
Theorem drop_small_terms_idempotent (num den : Sympy.poly) (tol : Q) :
  DropFacts.wf_poly num -> DropFacts.wf_poly den ->
  let once := Sympy.drop_small_terms (Sympy.Frac num den) tol in
  (Sympy.drop_small_terms once tol = once <->
   match once with
   | Sympy.Frac n1 _ =>
       (length n1 <= 1)%nat \/ Forall (fun t => (tol < Qabs (fst t))%Q) n1
   | Sympy.Zoo => True
   end) /\
  ((2 <= length (Sympy.den_clean tol den))%nat \/
   (exists m, Sympy.den_clean tol den = [(1%Q, m)]) \/
   (length (Sympy.num_clean tol num) <= 1)%nat ->
   Sympy.drop_small_terms once tol = once).
Proof.
  intros Hn Hd once.
  assert (Hiff : Sympy.drop_small_terms once tol = once <->
                 match once with
                 | Sympy.Frac n1 _ => TwiceFacts.settled tol n1
                 | Sympy.Zoo => True
                 end).
  { destruct once as [n1 d1|] eqn:E; [|split; [trivial|reflexivity]].
    destruct (TwiceFacts.drop_parts tol num den n1 d1 Hn Hd E)
      as (Hw & Hs & Hne & Hev & _).
    split; [|now apply TwiceFacts.drop_settled].
    intros Hfix.
    destruct (le_lt_dec (length n1) 1) as [Hle|Hlt]; [now left|].
    destruct (TwiceFacts.settled_dec tol n1) as [Hset|Hns]; [exact Hset|].
    exfalso.
    pose proof (TwiceFacts.clean_shorter tol n1 Hw Hlt Hns) as Hshort.
    destruct (TwiceFacts.drop_parts tol n1 d1 n1 d1 Hw (proj1 Hs) Hfix)
      as (_ & _ & _ & _ & Hlen).
    destruct n1 as [|t n1]; [simpl in Hlt; lia|]. simpl in Hlen, Hshort. lia. }
  split; [exact Hiff|].
  intros Hauto. apply Hiff.
  destruct once as [n1 d1|] eqn:E; [|exact I].
  now apply (TwiceFacts.auto_settled tol num den n1 d1).
Qed.

Lemma drop_small_terms_idempotent_witness :
  let num := [(2%Q, {[+ "x0"%string +]}); ((-1)%Q, {[+ "x1"%string +]})] in
  let den := [(1%Q, ∅)] in
  Sympy.drop_small_terms (Sympy.drop_small_terms (Sympy.Frac num den) (1 # 1000000))
                         (1 # 1000000)
  = Sympy.drop_small_terms (Sympy.Frac num den) (1 # 1000000).
Proof.
  intros num den.
  assert (Hn : DropFacts.wf_poly num).
  { split; [|repeat constructor].
    apply list.NoDup_cons. split; [|apply NoDup_singleton].
    intros H. apply list_elem_of_singleton in H. vm_compute in H. discriminate H. }
  assert (Hd : DropFacts.wf_poly den).
  { split; [apply NoDup_singleton|repeat constructor]. }
  apply (proj2 (drop_small_terms_idempotent num den (1 # 1000000) Hn Hd)).
  right. left. exists ∅. reflexivity.
Defined.

(** ** The rescaler over the engine's numbers *)

Module EngineFacts.

Import Sympy DropFacts EvalFacts Engine.
Local Open Scope Q_scope.


(** *** One term for a power product *)






Section Facts.

Variable together : expr -> expr.
Variable rnd : Q -> Q.



(** *** Coefficients that cannot be used *)

(** Not a number, zero, or of magnitude not above the floor. *)
Definition degenerate (coeff : coefficient) : Prop :=
  match coeff with
  | Symbolic _ => True
  | Number q => q == 0 \/ Qabs q <= floor rnd
  end.

Lemma degenerate_unusable coeff : degenerate coeff <-> usable rnd coeff = None.
Proof.
  destruct coeff as [q|p]; simpl; [|tauto].
  destruct (is_zero q) eqn:Ez; simpl.
  - split; [reflexivity|]. intros _. left.
    unfold is_zero in Ez. now apply Qeq_bool_iff in Ez.
  - destruct (Qlt_bool (floor rnd) (Qabs q)) eqn:El.
    + split; [|discriminate]. intros [H|H].
      * apply is_zero_false in Ez. contradiction.
      * apply Qlt_bool_iff in El. exfalso. apply (Qlt_not_le _ _ El H).
    + split; [reflexivity|]. intros _. right.
      apply Qnot_lt_le. intros Hlt. apply Qlt_bool_iff in Hlt. congruence.
Qed.

(** The target gave no scaling coefficient: there is none, or its
    coefficient cannot be used. *)
Definition no_target_coefficient (P : Poly)
    (target : option (list (Q * gmultiset string))) : Prop :=
  target = None \/
  exists t coeff, target = Some t /\ coeff_monomial P (expand t) = Some coeff /\
                  degenerate coeff.

Lemma no_target_continues P target :
  no_target_coefficient P target -> try_target rnd P target = Some None.
Proof.
  intros [->|(t & coeff & -> & Hc & Hd)]; [reflexivity|].
  unfold try_target. rewrite Hc. apply degenerate_unusable in Hd. now rewrite Hd.
Qed.

Lemma rescale_expression_steps e N D target gens :
  together e = Frac N D ->
  rescale_expression together rnd e target gens =
  if is_number D then Frac N D
  else match select_scaling rnd D target (generators D gens) with
       | Some (scaling_coeff, _) =>
           expand_rational_expr rnd (div rnd (div_number rnd N scaling_coeff)
                                             (div_number rnd D scaling_coeff))
       | None => Frac N D
       end.
Proof. intros H. unfold rescale_expression. now rewrite H. Qed.

(** *** The quotient of the two divided sides *)






(** *** Divisions that come out exact *)




End Facts.

End EngineFacts.

(** C7, as stated, fails: the first line rebinds [expr] to
    [sp.together(expr)], and that is what the early exits return.  For
    [(6*x + 8*z)/(2*a*x + 4)] with [gens = [x]] the leading coefficient [a]
    is not a number, so the rescaler gives up; [sp.together] has cancelled
    the common content [2], and what comes back is
    [(3*x + 4*z)/(a*x + 2)], not the input. *)
Lemma rescale_abort_changes_expression :
  let x : gmultiset string := {[+ "x"%string +]} in
  let z : gmultiset string := {[+ "z"%string +]} in
  let a : gmultiset string := {[+ "a"%string +]} in
  let expr := Sympy.Frac [(6%Q, x); (8%Q, z)] [(2%Q, a ⊎ x); (4%Q, ∅)] in
  Engine.rescale_expression Engine.together_content Engine.round53
    expr None (Some ["x"%string])
  = Sympy.Frac [(3%Q, x); (4%Q, z)] [(1%Q, a ⊎ x); (2%Q, ∅)] /\
  Engine.rescale_expression Engine.together_content Engine.round53
    expr None (Some ["x"%string])
  <> expr.
Proof.
  intros x z a expr. split.
  - vm_compute. reflexivity.
  - vm_compute. intros H. discriminate H.
Qed.

(** C7, amended: on every early exit the rescaler returns
    [sp.together(expr)], whatever [sp.together] makes of the input, and no
    error escapes: when the denominator of that expression is a constant,
    when the polynomial cannot be built or the coefficient lookup raises,
    and when neither the target nor the leading monomial has a usable
    coefficient: one that is a number, not zero, of magnitude above
    [1e-12].  The polynomial always has a monomial, so the exit for an
    empty list of monomials is never the one taken. *)
Theorem rescale_returns_combined_expression
    (together : Sympy.expr -> Sympy.expr) (rnd : Q -> Q) (e : Sympy.expr)
    (target : option (list (Q * gmultiset string))) (gens : option (list string)) :
  let expr := together e in
  let rescaled := Engine.rescale_expression together rnd e target gens in
  (expr = Sympy.Zoo -> rescaled = expr) /\
  forall num den,
    expr = Sympy.Frac num den ->
    let G := Sympy.generators den gens in
    (Sympy.is_number den = true -> rescaled = expr) /\
    (Sympy.mk_Poly den G = None -> rescaled = expr) /\
    (forall P, Sympy.mk_Poly den G = Some P ->
       Sympy.monoms P <> [] /\
       (forall t, target = Some t -> Sympy.coeff_monomial P (Sympy.expand t) = None ->
                  rescaled = expr) /\
       (EngineFacts.no_target_coefficient rnd P target ->
          forall lead rest coeff,
            Sympy.lead_candidates P = lead :: rest ->
            Sympy.coeff_monomial P [(1%Q, Sympy.mono_of (Sympy.poly_gens P) lead)]
              = Some coeff ->
            EngineFacts.degenerate rnd coeff ->
            rescaled = expr)).
Proof.
  intros expr rescaled. split.
  { intros H. unfold rescaled, Engine.rescale_expression. fold expr. now rewrite H. }
  intros num den H G. unfold rescaled.
  rewrite (EngineFacts.rescale_expression_steps together rnd e num den target gens H).
  fold G. rewrite H.
  destruct (Sympy.is_number den).
  { split; [reflexivity|]. split; [reflexivity|]. intros P HP.
    split; [apply RescaleAgain.monoms_nonempty|].
    split; [reflexivity|]. reflexivity. }
  split; [discriminate|]. split.
  { intros HP. unfold Engine.select_scaling. now rewrite HP. }
  intros P HP. unfold Engine.select_scaling. rewrite HP.
  split; [apply RescaleAgain.monoms_nonempty|]. split.
  - intros t -> Ht. unfold Engine.try_target. now rewrite Ht.
  - intros Hno lead rest coeff Hl Hc Hd.
    rewrite (EngineFacts.no_target_continues rnd P target Hno).
    unfold Engine.try_leading.
    destruct (Sympy.monoms P); [reflexivity|].
    rewrite Hl, Hc. apply EngineFacts.degenerate_unusable in Hd. now rewrite Hd.
Qed.

Lemma rescale_returns_combined_expression_witness :
  let x : gmultiset string := {[+ "x"%string +]} in
  let z : gmultiset string := {[+ "z"%string +]} in
  let a : gmultiset string := {[+ "a"%string +]} in
  let expr := Sympy.Frac [(6%Q, x); (8%Q, z)] [(2%Q, a ⊎ x); (4%Q, ∅)] in
  Engine.rescale_expression Engine.together_content Engine.round53
    expr None (Some ["x"%string])
  = Engine.together_content expr /\
  Engine.rescale_expression Engine.together_content Engine.round53
    (Sympy.Frac [(1%Q, x)] [(2%Q, ∅)]) None None
  = Engine.together_content (Sympy.Frac [(1%Q, x)] [(2%Q, ∅)]).
Proof.
  intros x z a expr.
  destruct (rescale_returns_combined_expression Engine.together_content Engine.round53
              expr None (Some ["x"%string])) as [_ H1].
  destruct (rescale_returns_combined_expression Engine.together_content Engine.round53
              (Sympy.Frac [(1%Q, x)] [(2%Q, ∅)]) None None) as [_ H2].
  split.
  - destruct (H1 [(3%Q, x); (4%Q, z)] [(1%Q, a ⊎ x); (2%Q, ∅)]) as (_ & _ & H).
    { vm_compute. reflexivity. }
    destruct (H {| Sympy.rep := [(1%Q, a ⊎ x); (2%Q, ∅)];
                   Sympy.poly_gens := ["x"%string] |} eq_refl) as (_ & _ & Hlead).
    apply (Hlead (or_introl eq_refl) [1%nat] [] (Sympy.Symbolic [(1%Q, a)])).
    + vm_compute. reflexivity.
    + vm_compute. reflexivity.
    + exact I.
  - destruct (H2 [(1%Q, x)] [(2%Q, ∅)]) as (H & _).
    { vm_compute. reflexivity. }
    apply H. vm_compute. reflexivity.
Defined.



